(** * ISO 8583 parser playground: the decoding engine of [src/parser.ts]

    A shallow embedding of [parser.ts] (codecs, [decodeMTI], [decodeBitmap],
    [parseISO8583]) and of the bitmap and payload helpers of the preset
    builder, followed by the properties of the decoder.

    Conventions of the embedding.
    - A JavaScript string is a [list ascii]; [lit "..."] is a string literal.
      Code units are [ascii], so the model speaks about inputs whose code
      units are below 256, and it is exact for ASCII input: case conversion
      is the ASCII one (see [toUpperChar] for the code units on which
      JavaScript does more).
    - Positions, lengths and field numbers are [nat]: every number the
      decoder computes is a non-negative integer.  The one subtraction that
      can go below zero in the source, [pos - hexLen] after a truncated
      variable-length field, is passed to [substring], which clamps a
      negative start to 0 exactly as the truncated subtraction of [nat] does.
    - The objects imported from [./fieldSpecs] are finite maps ([gmap]); the
      module itself is the record [fieldSpecs], a parameter of the decoder.
    - The field loop threads a [LoopState] (cursor, fields, errors,
      segments); [break] and [continue] are the two constructors of [Flow]. *)

From Stdlib Require Import Ascii String DecimalString DecimalNat.
From stdpp Require Import gmap strings list.

Local Open Scope nat_scope.
Local Open Scope list_scope.

(** ** Strings *)

Definition lit (s : string) : list ascii := list_ascii_of_string s.

(** Template-literal rendering of a non-negative integer. *)
Definition showNat (n : nat) : list ascii :=
  lit (NilZero.string_of_uint (Nat.to_uint n)).

Definition streq (a b : list ascii) : bool := bool_decide (a = b).

(** [s.substring(start, end)]: both indices are clamped to the length and
    swapped when [start > end]. *)
Definition substring (s : list ascii) (start end_ : nat) : list ascii :=
  let lo := Nat.min start end_ in
  let hi := Nat.max start end_ in
  take (hi - lo) (drop lo s).

(** [s.substring(start)]. *)
Definition substringFrom (s : list ascii) (start : nat) : list ascii :=
  drop start s.

Fixpoint startsWith (needle s : list ascii) : bool :=
  match needle, s with
  | [], _ => true
  | _ :: _, [] => false
  | a :: needle', b :: s' => bool_decide (a = b) && startsWith needle' s'
  end.

(** [s.includes(needle)]. *)
Fixpoint includes (needle s : list ascii) : bool :=
  startsWith needle s ||
  match s with
  | [] => false
  | _ :: s' => includes needle s'
  end.

Definition inRange (lo hi : nat) (c : ascii) : bool :=
  (lo <=? nat_of_ascii c) && (nat_of_ascii c <=? hi).

(** [\d] and [[0-9]]. *)
Definition isDigit (c : ascii) : bool := inRange 48 57 c.

(** [[0-9A-F]] under the [i] flag. *)
Definition isHexChar (c : ascii) : bool :=
  isDigit c || inRange 65 70 c || inRange 97 102 c.

(** The class [[\s\n\r]] on code units below 256. *)
Definition isSpace (c : ascii) : bool :=
  inRange 9 13 c || bool_decide (nat_of_ascii c = 32)
  || bool_decide (nat_of_ascii c = 160).

(** [toUpperCase] on one code unit: the ASCII letters.  JavaScript also
    rewrites the code units 181 and 223 to 255 (223, the sharp s, becomes
    two letters).  None of them is a hex digit before or after, so the
    decoder refuses an input that holds one here as it does there, but the
    number of characters, and with it which of the two fatal errors is
    reported, can differ.  The model is exact on inputs without these code
    units. *)
Definition toUpperChar (c : ascii) : ascii :=
  if inRange 97 122 c then ascii_of_nat (nat_of_ascii c - 32) else c.

Definition toUpperCase (s : list ascii) : list ascii := map toUpperChar s.

(** Value of one hexadecimal digit, either case. *)
Definition hexVal (c : ascii) : option nat :=
  let n := nat_of_ascii c in
  if isDigit c then Some (n - 48)
  else if inRange 65 70 c then Some (n - 55)
  else if inRange 97 102 c then Some (n - 87)
  else None.

(** [parseInt(s, 16)] on a string of at most two characters: the value of
    the leading hex digits, [None] (NaN) when there is none.  Leading white
    space, a sign or a [0x] prefix are not modelled: with at most two
    characters each of them leaves at most one digit, so the value (or NaN)
    is below 16 in JavaScript and here alike, and the only caller,
    [hexToAscii], maps all of these to the same character. *)
Definition parseInt16 (s : list ascii) : option nat :=
  match s with
  | [] => None
  | a :: t =>
      match hexVal a with
      | None => None
      | Some x =>
          match t with
          | b :: _ =>
              match hexVal b with
              | Some y => Some (16 * x + y)
              | None => Some x
              end
          | [] => Some x
          end
      end
  end.

(** [parseInt(s, 10)] on a substring of the validated hex stream (characters
    [0-9A-F] only, so no white space and no sign): the value of the leading
    decimal digits, [None] (NaN) when the first character is not one. *)
Fixpoint leadingDigits (s : list ascii) : list ascii :=
  match s with
  | c :: s' => if isDigit c then c :: leadingDigits s' else []
  | [] => []
  end.

Definition digitStep (acc : nat) (c : ascii) : nat :=
  10 * acc + (nat_of_ascii c - 48).

Definition digitsValue (ds : list ascii) : nat := fold_left digitStep ds 0.

Definition parseInt10 (s : list ascii) : option nat :=
  match leadingDigits s with
  | [] => None
  | ds => Some (digitsValue ds)
  end.

(** ** Codecs *)

Definition bitChar (b : bool) : ascii := if b then "1"%char else "0"%char.

(** [parseInt(h, 16).toString(2).padStart(4, '0')] for one character: four
    binary digits for a hex digit (its value is at most 15), and ["0NaN"]
    otherwise. *)
Definition nibbleBits (h : ascii) : list ascii :=
  match hexVal h with
  | Some v => map (fun k => bitChar (Nat.testbit v k)) [3; 2; 1; 0]
  | None => lit "0NaN"
  end.

Definition hexToBinary (hex : list ascii) : list ascii :=
  concat (map nibbleBits hex).

Definition asciiOfCode (code : option nat) : ascii :=
  match code with
  | Some c => if (32 <=? c) && (c <=? 126) then ascii_of_nat c else "."%char
  | None => "."%char
  end.

(** The loop [for (i = 0; i < hex.length; i += 2)] of [hexToAscii]. *)
Fixpoint hexToAscii (hex : list ascii) : list ascii :=
  match hex with
  | [] => []
  | [a] => [asciiOfCode (parseInt16 [a])]
  | a :: b :: rest => asciiOfCode (parseInt16 [a; b]) :: hexToAscii rest
  end.

(** ** The tables of [./fieldSpecs] *)

(** The members of a field specification that [parser.ts] reads. *)
Record FieldSpec := {
  spec_name : list ascii;
  spec_format : list ascii;
  spec_type : list ascii;
  spec_maxLength : nat;
  spec_category : list ascii;
  spec_description : option (list ascii);
}.

(** The six objects [parser.ts] imports; [fieldSpecs.ts] itself is not part
    of the sources, so the module is a parameter of everything below. *)
Record fieldSpecs := {
  FIELD_SPECS : gmap nat FieldSpec;
  MTI_VERSION : gmap (list ascii) (list ascii);
  MTI_CLASS : gmap (list ascii) (list ascii);
  MTI_FUNCTION : gmap (list ascii) (list ascii);
  MTI_ORIGIN : gmap (list ascii) (list ascii);
  MTI_DESCRIPTIONS : gmap (list ascii) (list ascii);
}.

(** ** Result types *)

Record CodeLabel := {
  cl_code : option ascii;          (* [digits[i]], [undefined] as [None] *)
  cl_label : list ascii;
}.

Record MTIInfo := {
  mti_raw : list ascii;
  mti_version : CodeLabel;
  mti_messageClass : CodeLabel;
  mti_function : CodeLabel;
  mti_origin : CodeLabel;
  mti_description : list ascii;
}.

Record ParsedField := {
  pf_de : nat;
  pf_name : list ascii;
  pf_rawHex : list ascii;
  pf_decodedValue : list ascii;
  pf_length : nat;
  pf_format : list ascii;
  pf_type : list ascii;
  pf_category : list ascii;
  pf_startPos : nat;
  pf_endPos : nat;
  pf_description : option (list ascii);
}.

Record BitmapInfo := {
  bm_rawHex : list ascii;
  bm_binary : list ascii;
  bm_activeFields : list nat;
  bm_hasSecondary : bool;
  bm_startPos : nat;
  bm_endPos : nat;
}.

Record ParseError := {
  message : list ascii;
  position : option nat;
  field : option nat;
}.

Record HexSegment := {
  seg_hex : list ascii;
  seg_label : list ascii;
  seg_category : list ascii;
  seg_startPos : nat;
  seg_endPos : nat;
  seg_de : option nat;
}.

Record ParseResult := {
  success : bool;
  mti : option MTIInfo;
  primaryBitmap : option BitmapInfo;
  secondaryBitmap : option BitmapInfo;
  fields : list ParsedField;
  errors : list ParseError;
  hexSegments : list HexSegment;
}.

(** ** [decodeMTI] *)

(** [/^\d{4}$/] and [/^[0-9]{4}$/]. *)
Definition isFourDigits (s : list ascii) : bool :=
  (length s =? 4) && forallb isDigit s.

(** [table[key] || fallback]: a missing key and an empty label both give the
    fallback. *)
Definition lookupOr (table : gmap (list ascii) (list ascii))
    (key fallback : list ascii) : list ascii :=
  match table !! key with
  | Some (c :: l) => c :: l
  | _ => fallback
  end.

(** The property key a digit is converted to: [digits[i]] is a one-character
    string, or [undefined] past the end of a short MTI. *)
Definition digitKey (d : option ascii) : list ascii :=
  match d with
  | Some c => [c]
  | None => lit "undefined"
  end.

Definition digitInfo (table : gmap (list ascii) (list ascii))
    (d : option ascii) : CodeLabel :=
  {| cl_code := d; cl_label := lookupOr table (digitKey d) (lit "Unknown") |}.

Definition mtiString (mtiHex : list ascii) : list ascii :=
  let mtiStr :=
    if 8 <=? length mtiHex then
      let ascii := hexToAscii (substring mtiHex 0 8) in
      if isFourDigits ascii then ascii else mtiHex
    else mtiHex in
  if (length mtiStr =? 4) && isFourDigits mtiStr then mtiStr
  else if 4 <=? length mtiStr then substring mtiStr 0 4
  else mtiStr.

Definition decodeMTI (M : fieldSpecs) (mtiHex : list ascii) : MTIInfo :=
  let mtiStr := mtiString mtiHex in
  let digits := mtiStr in
  {| mti_raw := mtiStr;
     mti_version := digitInfo (MTI_VERSION M) (digits !! 0);
     mti_messageClass := digitInfo (MTI_CLASS M) (digits !! 1);
     mti_function := digitInfo (MTI_FUNCTION M) (digits !! 2);
     mti_origin := digitInfo (MTI_ORIGIN M) (digits !! 3);
     mti_description :=
       lookupOr (MTI_DESCRIPTIONS M) mtiStr (lit "Message Type " ++ mtiStr) |}.

(** ** [decodeBitmap] *)

(** The loop over [binary]: [i] is the index of the head of [binary]. *)
Fixpoint activeFrom (i : nat) (binary : list ascii) : list nat :=
  match binary with
  | [] => []
  | c :: binary' =>
      if bool_decide (c = "1"%char) then (i + 1) :: activeFrom (S i) binary'
      else activeFrom (S i) binary'
  end.

Definition decodeBitmap (hexStr : list ascii) : list nat * list ascii :=
  let binary := hexToBinary hexStr in
  (activeFrom 0 binary, binary).

(** ** [parseISO8583] *)

(** The error objects of [parseISO8583], one builder per [errors.push] (or
    literal error list) of the source. *)
Definition errInputTooShort : ParseError :=
  {| message := lit "Input too short. Minimum 4 characters for MTI.";
     position := None; field := None |}.

Definition errInvalidChars : ParseError :=
  {| message :=
       lit "Invalid characters detected. Only hex characters (0-9, A-F) are allowed.";
     position := None; field := None |}.

Definition errPrimaryTooShort (pos : nat) : ParseError :=
  {| message :=
       lit "Hex too short for primary bitmap (need 16 more hex chars / 8 bytes).";
     position := Some pos; field := None |}.

Definition errSecondaryTooShort (pos : nat) : ParseError :=
  {| message := lit "Bit 1 indicates secondary bitmap but hex is too short.";
     position := Some pos; field := None |}.

Definition errNoSpec (fieldNum : nat) : ParseError :=
  {| message := lit "No spec for DE " ++ showNat fieldNum ++ lit ". Skipping.";
     position := None; field := Some fieldNum |}.

Definition errRanOut (fieldNum pos : nat) : ParseError :=
  {| message := lit "Ran out of data at DE " ++ showNat fieldNum ++ lit ".";
     position := Some pos; field := Some fieldNum |}.

Definition errFixedShort (fieldNum hexLen remain pos : nat) : ParseError :=
  {| message :=
       lit "DE " ++ showNat fieldNum ++ lit ": Expected " ++ showNat hexLen
       ++ lit " hex chars but only " ++ showNat remain ++ lit " remain.";
     position := Some pos; field := Some fieldNum |}.

Definition errLLVARPrefix (fieldNum pos : nat) : ParseError :=
  {| message :=
       lit "DE " ++ showNat fieldNum
       ++ lit ": Not enough data for LLVAR length prefix.";
     position := Some pos; field := Some fieldNum |}.

Definition errLLVARInvalid (fieldNum : nat) (lenStr : list ascii)
    (maxLength pos : nat) : ParseError :=
  {| message :=
       lit "DE " ++ showNat fieldNum ++ lit ": Invalid LLVAR length " ++ lenStr
       ++ lit " (max " ++ showNat maxLength ++ lit ").";
     position := Some pos; field := Some fieldNum |}.

Definition errLLLVARPrefix (fieldNum pos : nat) : ParseError :=
  {| message :=
       lit "DE " ++ showNat fieldNum
       ++ lit ": Not enough data for LLLVAR length prefix (need 4 hex chars).";
     position := Some pos; field := Some fieldNum |}.

Definition errLLLVARInvalid (fieldNum : nat) (lenStr : list ascii)
    (pos : nat) : ParseError :=
  {| message :=
       lit "DE " ++ showNat fieldNum ++ lit ": Invalid LLLVAR length " ++ lenStr
       ++ lit ".";
     position := Some pos; field := Some fieldNum |}.

Definition errVarShort (fieldNum hexLen remain pos : nat) : ParseError :=
  {| message :=
       lit "DE " ++ showNat fieldNum ++ lit ": Expected " ++ showNat hexLen
       ++ lit " hex chars for data but only " ++ showNat remain
       ++ lit " remain.";
     position := Some pos; field := Some fieldNum |}.

Definition errUnparsed (count pos : nat) : ParseError :=
  {| message :=
       showNat count
       ++ lit " unparsed hex characters remaining after field parsing.";
     position := Some pos; field := None |}.

(** The mutable locals of the field loop. *)
Record LoopState := {
  st_pos : nat;
  st_fields : list ParsedField;
  st_errors : list ParseError;
  st_hexSegments : list HexSegment;
}.

(** How one iteration of the loop ends. *)
Inductive Flow :=
  | Continue (st : LoopState)
  | Break (st : LoopState).

Definition pushError (e : ParseError) (st : LoopState) : LoopState :=
  {| st_pos := st_pos st; st_fields := st_fields st;
     st_errors := st_errors st ++ [e];
     st_hexSegments := st_hexSegments st |}.

Definition setPos (p : nat) (st : LoopState) : LoopState :=
  {| st_pos := p; st_fields := st_fields st; st_errors := st_errors st;
     st_hexSegments := st_hexSegments st |}.

Definition mkField (fieldNum : nat) (spec : FieldSpec)
    (fieldHex fieldValue : list ascii) (fieldLength fieldStartPos pos : nat)
    : ParsedField :=
  {| pf_de := fieldNum; pf_name := spec_name spec; pf_rawHex := fieldHex;
     pf_decodedValue := fieldValue; pf_length := fieldLength;
     pf_format := spec_format spec; pf_type := spec_type spec;
     pf_category := spec_category spec;
     pf_startPos := fieldStartPos; pf_endPos := pos;
     pf_description := spec_description spec |}.

Definition mkFieldSegment (fieldNum : nat) (spec : FieldSpec)
    (fieldHex : list ascii) (fieldStartPos pos : nat) : HexSegment :=
  {| seg_hex := fieldHex;
     seg_label := lit "DE " ++ showNat fieldNum ++ lit ": " ++ spec_name spec;
     seg_category := spec_category spec;
     seg_startPos := fieldStartPos; seg_endPos := pos;
     seg_de := Some fieldNum |}.

(** The two pushes that end an iteration that was neither left by [break]
    nor by [continue]; [st_pos st] is the cursor after the field. *)
Definition emitField (fieldNum : nat) (spec : FieldSpec)
    (fieldHex fieldValue : list ascii) (fieldLength fieldStartPos : nat)
    (st : LoopState) : LoopState :=
  {| st_pos := st_pos st;
     st_fields :=
       st_fields st
       ++ [mkField fieldNum spec fieldHex fieldValue fieldLength fieldStartPos
             (st_pos st)];
     st_errors := st_errors st;
     st_hexSegments :=
       st_hexSegments st
       ++ [mkFieldSegment fieldNum spec fieldHex fieldStartPos (st_pos st)] |}.

(** Hex characters a FIXED field occupies. *)
Definition fixedHexLen (spec : FieldSpec) : nat :=
  if streq (spec_type spec) (lit "b") then spec_maxLength spec * 2
  else if streq (spec_type spec) (lit "n") || streq (spec_type spec) (lit "x+n")
  then
    if negb (spec_maxLength spec mod 2 =? 0) then spec_maxLength spec + 1
    else spec_maxLength spec
  else spec_maxLength spec * 2.

(** Decoded value of a FIXED field: [an], [ans], [z] and any other type go
    through [hexToAscii]. *)
Definition fixedValue (spec : FieldSpec) (fieldHex : list ascii) : list ascii :=
  if streq (spec_type spec) (lit "n") || streq (spec_type spec) (lit "x+n")
  then fieldHex
  else if streq (spec_type spec) (lit "b") then fieldHex
  else hexToAscii fieldHex.

(** Hex characters of the data of a variable-length field. *)
Definition varHexLen (spec : FieldSpec) (dataLen : nat) : nat :=
  if streq (spec_type spec) (lit "n") then
    if dataLen mod 2 =? 0 then dataLen else dataLen + 1
  else dataLen * 2.

(** Decoded value of a variable-length field. *)
Definition varValue (spec : FieldSpec) (data : list ascii) : list ascii :=
  if streq (spec_type spec) (lit "n") then data else hexToAscii data.

(** The FIXED branch.  [hexLen] is even, so [hexLen / 2] is the same number
    in [nat] as in JavaScript. *)
Definition parseFixed (hex : list ascii) (fieldNum : nat) (spec : FieldSpec)
    (st : LoopState) : Flow :=
  let pos := st_pos st in
  let fieldStartPos := pos in
  let hexLen := fixedHexLen spec in
  let '(st1, fieldHex) :=
    if length hex <? pos + hexLen then
      (setPos (length hex)
         (pushError (errFixedShort fieldNum hexLen (length hex - pos) pos) st),
       substringFrom hex pos)
    else (setPos (pos + hexLen) st, substring hex pos (pos + hexLen)) in
  let fieldLength := hexLen / 2 in
  let fieldValue := fixedValue spec fieldHex in
  Continue (emitField fieldNum spec fieldHex fieldValue fieldLength
              fieldStartPos st1).

(** The LLVAR and LLLVAR branches of the source are the same text up to the
    width [w] of the length prefix (2 or 4) and their two error messages.
    Of the test [isNaN(dataLen) || dataLen < 0 || dataLen > spec.maxLength]
    the middle part never holds: the prefix has no sign. *)
Definition parseVar (w : nat) (errPrefix : nat -> ParseError)
    (errInvalid : list ascii -> nat -> ParseError)
    (hex : list ascii) (fieldNum : nat) (spec : FieldSpec) (st : LoopState)
    : Flow :=
  let pos := st_pos st in
  let fieldStartPos := pos in
  if length hex <? pos + w then Break (pushError (errPrefix pos) st)
  else
    let lenStr := substring hex pos (pos + w) in
    let dataLen := parseInt10 lenStr in
    let pos := pos + w in
    match dataLen with
    | None => Continue (setPos pos (pushError (errInvalid lenStr (pos - w)) st))
    | Some dataLen =>
        if spec_maxLength spec <? dataLen then
          Continue (setPos pos (pushError (errInvalid lenStr (pos - w)) st))
        else
          let hexLen := varHexLen spec dataLen in
          let '(st1, fieldHex) :=
            if length hex <? pos + hexLen then
              (setPos (length hex)
                 (pushError
                    (errVarShort fieldNum hexLen (length hex - pos) pos) st),
               lenStr ++ substringFrom hex pos)
            else
              (setPos (pos + hexLen) st,
               lenStr ++ substring hex pos (pos + hexLen)) in
          let pos := st_pos st1 in
          let fieldLength := dataLen in
          let fieldValue := varValue spec (substring hex (pos - hexLen) pos) in
          Continue (emitField fieldNum spec fieldHex fieldValue fieldLength
                      fieldStartPos st1)
    end.

(** One iteration of [for (const fieldNum of allActiveFields)].  The [catch]
    clause of the source is not modelled: nothing inside its [try] block
    throws ([substring], [parseInt], the arithmetic and the member reads of
    a present specification all return). *)
Definition fieldStep (M : fieldSpecs) (hex : list ascii) (fieldNum : nat)
    (st : LoopState) : Flow :=
  match FIELD_SPECS M !! fieldNum with
  | None => Continue (pushError (errNoSpec fieldNum) st)
  | Some spec =>
      if length hex <=? st_pos st then
        Break (pushError (errRanOut fieldNum (st_pos st)) st)
      else if streq (spec_format spec) (lit "FIXED") then
        parseFixed hex fieldNum spec st
      else if streq (spec_format spec) (lit "LLVAR") then
        parseVar 2 (errLLVARPrefix fieldNum)
          (fun lenStr p =>
             errLLVARInvalid fieldNum lenStr (spec_maxLength spec) p)
          hex fieldNum spec st
      else if streq (spec_format spec) (lit "LLLVAR") then
        parseVar 4 (errLLLVARPrefix fieldNum) (errLLLVARInvalid fieldNum)
          hex fieldNum spec st
      else
        Continue (emitField fieldNum spec [] [] 0 (st_pos st) st)
  end.

Fixpoint fieldLoop (M : fieldSpecs) (hex : list ascii)
    (allActiveFields : list nat) (st : LoopState) : LoopState :=
  match allActiveFields with
  | [] => st
  | fieldNum :: rest =>
      match fieldStep M hex fieldNum st with
      | Continue st' => fieldLoop M hex rest st'
      | Break st' => st'
      end
  end.

(** [e => !e.message.includes('No spec') && !e.message.includes('unparsed')] *)
Definition countsAgainstSuccess (e : ParseError) : bool :=
  negb (includes (lit "No spec") (message e))
  && negb (includes (lit "unparsed") (message e)).

Definition successOf (errors : list ParseError) : bool :=
  length (List.filter countsAgainstSuccess errors) =? 0.

(** The trailing-data check after the loop. *)
Definition trailingCheck (hex : list ascii) (st : LoopState) : LoopState :=
  let pos := st_pos st in
  if pos <? length hex then
    let remaining := substringFrom hex pos in
    {| st_pos := pos; st_fields := st_fields st;
       st_errors := st_errors st ++ [errUnparsed (length remaining) pos];
       st_hexSegments :=
         st_hexSegments st
         ++ [{| seg_hex := remaining; seg_label := lit "Unparsed Data";
                seg_category := lit "error";
                seg_startPos := pos; seg_endPos := length hex;
                seg_de := None |}] |}
  else st.

Definition failureResult (e : ParseError) : ParseResult :=
  {| success := false; mti := None; primaryBitmap := None;
     secondaryBitmap := None; fields := []; errors := [e];
     hexSegments := [] |}.

Definition bitmapSegment (label bitmapHex : list ascii) (pos : nat)
    : HexSegment :=
  {| seg_hex := bitmapHex; seg_label := label; seg_category := lit "bitmap";
     seg_startPos := pos; seg_endPos := pos + 16; seg_de := None |}.

(** [inputHex.replace(/[\s\n\r]/g, '').toUpperCase()] *)
Definition normalize (inputHex : list ascii) : list ascii :=
  toUpperCase (List.filter (fun c => negb (isSpace c)) inputHex).

(** [/^[0-9A-F]+$/i.test(hex)] *)
Definition testHex (hex : list ascii) : bool :=
  match hex with
  | [] => false
  | _ => forallb isHexChar hex
  end.

(** The trailing-data check and the final [return]. *)
Definition finishParse (hex : list ascii) (mtiInfo : MTIInfo)
    (primary : BitmapInfo) (secondary : option BitmapInfo) (st : LoopState)
    : ParseResult :=
  let st := trailingCheck hex st in
  {| success := successOf (st_errors st);
     mti := Some mtiInfo;
     primaryBitmap := Some primary;
     secondaryBitmap := secondary;
     fields := st_fields st;
     errors := st_errors st;
     hexSegments := st_hexSegments st |}.

(** The [BitmapInfo] of the primary bitmap read at [pos]. *)
Definition primaryBitmapInfo (hex : list ascii) (pos : nat) : BitmapInfo :=
  let primaryBitmapHex := substring hex pos (pos + 16) in
  let primaryDecoded := decodeBitmap primaryBitmapHex in
  {| bm_rawHex := primaryBitmapHex;
     bm_binary := primaryDecoded.2;
     bm_activeFields :=
       List.filter (fun f => (2 <=? f) && (f <=? 64)) primaryDecoded.1;
     bm_hasSecondary := bool_decide (primaryDecoded.2 !! 0 = Some "1"%char);
     bm_startPos := pos; bm_endPos := pos + 16 |}.

(** The [BitmapInfo] of the secondary bitmap read at [pos]. *)
Definition secondaryBitmapInfo (hex : list ascii) (pos : nat) : BitmapInfo :=
  let secondaryBitmapHex := substring hex pos (pos + 16) in
  let secondaryDecoded := decodeBitmap secondaryBitmapHex in
  {| bm_rawHex := secondaryBitmapHex;
     bm_binary := secondaryDecoded.2;
     bm_activeFields := map (fun f => f + 64) secondaryDecoded.1;
     bm_hasSecondary := false;
     bm_startPos := pos; bm_endPos := pos + 16 |}.

(** Steps 2 to 4 and the final [return], for a stream that holds a primary
    bitmap; [pos] is 4 on entry.  The three branches are the three ways the
    source leaves step 3: secondary bitmap demanded but missing, secondary
    bitmap read, no secondary bitmap. *)
Definition parseBody (M : fieldSpecs) (hex : list ascii) (mtiInfo : MTIInfo)
    (mtiSegment : HexSegment) (pos : nat) : ParseResult :=
  let primary := primaryBitmapInfo hex pos in
  let hexSegments :=
    [mtiSegment;
     bitmapSegment (lit "Primary Bitmap") (bm_rawHex primary) pos] in
  let pos := pos + 16 in
  let allActiveFields := bm_activeFields primary in
  if bm_hasSecondary primary then
    if length hex <? pos + 16 then
      finishParse hex mtiInfo primary None
        (fieldLoop M hex allActiveFields
           {| st_pos := pos; st_fields := [];
              st_errors := [errSecondaryTooShort pos];
              st_hexSegments := hexSegments |})
    else
      let secondary := secondaryBitmapInfo hex pos in
      finishParse hex mtiInfo primary (Some secondary)
        (fieldLoop M hex (allActiveFields ++ bm_activeFields secondary)
           {| st_pos := pos + 16; st_fields := []; st_errors := [];
              st_hexSegments :=
                hexSegments
                ++ [bitmapSegment (lit "Secondary Bitmap")
                      (bm_rawHex secondary) pos] |})
  else
    finishParse hex mtiInfo primary None
      (fieldLoop M hex allActiveFields
         {| st_pos := pos; st_fields := []; st_errors := [];
            st_hexSegments := hexSegments |}).

Definition parseISO8583 (M : fieldSpecs) (inputHex : list ascii)
    : ParseResult :=
  let hex := normalize inputHex in
  if bool_decide (hex = []) || (length hex <? 4) then
    failureResult errInputTooShort
  else if negb (testHex hex) then failureResult errInvalidChars
  else
    let pos := 0 in
    let mtiHex := substring hex pos (pos + 4) in
    let mtiInfo := decodeMTI M mtiHex in
    let mtiSegment :=
      {| seg_hex := mtiHex; seg_label := lit "MTI: " ++ mti_raw mtiInfo;
         seg_category := lit "mti";
         seg_startPos := pos; seg_endPos := pos + 4; seg_de := None |} in
    let pos := pos + 4 in
    if length hex <? pos + 16 then
      {| success := true; mti := Some mtiInfo; primaryBitmap := None;
         secondaryBitmap := None; fields := [];
         errors := [errPrimaryTooShort pos];
         hexSegments := [mtiSegment] |}
    else parseBody M hex mtiInfo mtiSegment pos.

(** ** The message builders of the preset module

    The helpers the presets are assembled with: [buildBitmap],
    [buildDualBitmap], [asciiToHex] and [numHex]. *)

Definition hexDigitUpper (v : nat) : ascii :=
  nth v (lit "0123456789ABCDEF") "0"%char.

(** [byte.toString(16).padStart(2, '0').toUpperCase()] for a byte value. *)
Definition byteHex (byte : nat) : list ascii :=
  [hexDigitUpper (byte / 16); hexDigitUpper (byte mod 16)].

(** The inner loop [byte = (byte << 1) | bits[i * 8 + b]] for [b] in 0..7. *)
Definition byteAt (bits : list nat) (i : nat) : nat :=
  fold_left (fun byte b => Nat.lor (Nat.shiftl byte 1) (nth (i * 8 + b) bits 0))
    (seq 0 8) 0.

(** The outer loop over the eight bytes of a 64-entry bit array. *)
Definition bitsToHex (bits : list nat) : list ascii :=
  concat (map (fun i => byteHex (byteAt bits i)) (seq 0 8)).

(** [new Uint8Array(64)] *)
Definition zeroBits : list nat := replicate 64 0.

Definition buildBitmap (fields : list nat) : list ascii :=
  let bits :=
    fold_left
      (fun bits f =>
         if (1 <=? f) && (f <=? 64) then <[f - 1 := 1]> bits else bits)
      fields zeroBits in
  bitsToHex bits.

(** In [secBits[f - 65] = 1] every [f] is above 64; a store past the end of
    the typed array is dropped, as [<[ _ := _ ]>] does. *)
Definition buildDualBitmap (fields : list nat) : list ascii :=
  let primaryFields := List.filter (fun f => f <=? 64) fields in
  let secondaryFields := List.filter (fun f => 64 <? f) fields in
  let primaryFields :=
    if (0 <? length secondaryFields) && negb (bool_decide (1 ∈ primaryFields))
    then primaryFields ++ [1] else primaryFields in
  let primary := buildBitmap primaryFields in
  if length secondaryFields =? 0 then primary
  else
    let secBits :=
      fold_left (fun bits f => <[f - 65 := 1]> bits) secondaryFields zeroBits in
    primary ++ bitsToHex secBits.

(** [c.charCodeAt(0).toString(16).padStart(2, '0')], upper-cased. *)
Definition asciiToHex (str : list ascii) : list ascii :=
  concat (map (fun c => byteHex (nat_of_ascii c)) str).

(** [val.padStart(n, '0')] *)
Definition padStart0 (n : nat) (val : list ascii) : list ascii :=
  replicate (n - length val) "0"%char ++ val.

Definition numHex (val : list ascii) (maxLen : nat) : list ascii :=
  let padded := padStart0 maxLen val in
  if negb (maxLen mod 2 =? 0) then "0"%char :: padded else padded.

(** ** A sample of the field table *)

Definition mkSpec (name format type : string) (maxLength : nat)
    (category : string) : FieldSpec :=
  {| spec_name := lit name; spec_format := lit format; spec_type := lit type;
     spec_maxLength := maxLength; spec_category := lit category;
     spec_description := None |}.

(** Modelled from the spec: [fieldSpecs.ts] is missing from the sources.
    These are the entries the specification's scenarios and the presets'
    comments pin down (format, type and maximum length of DE 2, 3, 4, 7, 11,
    41 and 70); names and categories are display data the decoder only
    copies.  The MTI tables hold one entry each. *)
Definition sampleSpecs : fieldSpecs :=
  {| FIELD_SPECS :=
       <[2 := mkSpec "Primary Account Number" "LLVAR" "n" 19 "card"]>
       (<[3 := mkSpec "Processing Code" "FIXED" "n" 6 "processing"]>
       (<[4 := mkSpec "Amount, Transaction" "FIXED" "n" 12 "amount"]>
       (<[7 := mkSpec "Transmission Date and Time" "FIXED" "n" 10 "datetime"]>
       (<[11 := mkSpec "Systems Trace Audit Number" "FIXED" "n" 6 "reference"]>
       (<[41 := mkSpec "Card Acceptor Terminal ID" "FIXED" "ans" 8 "terminal"]>
       (<[70 := mkSpec "Network Management Information Code" "FIXED" "n" 3
                  "network"]> ∅))))));
     MTI_VERSION := {[ lit "0" := lit "ISO 8583:1987" ]};
     MTI_CLASS := {[ lit "8" := lit "Network Management" ]};
     MTI_FUNCTION := {[ lit "0" := lit "Request" ]};
     MTI_ORIGIN := {[ lit "0" := lit "Acquirer" ]};
     MTI_DESCRIPTIONS := {[ lit "0800" := lit "Network Management Request" ]} |}.

(** Modelled from the spec: [fieldSpecs.ts] is missing from the sources.
    A table in which a variable-length field is binary, a combination the
    data model of the specification allows ([format] LLVAR or LLLVAR with
    [dataType] binary).  The entry is DE 55, which the application's
    [enrichValue] treats as EMV/ICC data; its format, type and maximum
    length are those of ISO 8583, not read from the sources. *)
Definition specsWithVarBinary : fieldSpecs :=
  {| FIELD_SPECS :=
       <[55 := mkSpec "ICC Data" "LLLVAR" "b" 255 "emv"]>
         (FIELD_SPECS sampleSpecs);
     MTI_VERSION := MTI_VERSION sampleSpecs;
     MTI_CLASS := MTI_CLASS sampleSpecs;
     MTI_FUNCTION := MTI_FUNCTION sampleSpecs;
     MTI_ORIGIN := MTI_ORIGIN sampleSpecs;
     MTI_DESCRIPTIONS := MTI_DESCRIPTIONS sampleSpecs |}.


(** ** Reference definitions the properties are stated with *)

(** The first eight characters of a fragment read as four bytes that are
    ASCII decimal digits: each byte is written 3d with d a decimal digit. *)
Definition textDigits (fragment : list ascii) : option (list ascii) :=
  match take 8 fragment with
  | [h0; d0; h1; d1; h2; d2; h3; d3] =>
      if forallb (fun h => bool_decide (h = "3"%char)) [h0; h1; h2; h3]
         && forallb isDigit [d0; d1; d2; d3]
      then Some [d0; d1; d2; d3]
      else None
  | _ => None
  end.

(** The logical MTI of a fragment: the text digits when the fragment starts
    with a text-encoded MTI, and otherwise its first four characters (all of
    it when it is shorter), which are the packed digits themselves when the
    fragment starts with four decimal digits. *)
Definition logicalMTI (fragment : list ascii) : list ascii :=
  match textDigits fragment with
  | Some ds => ds
  | None => take 4 fragment
  end.

(** The numeric types of the decoder's FIXED branch, and its binary type. *)
Definition isNumericType (type : list ascii) : bool :=
  streq type (lit "n") || streq type (lit "x+n").

Definition isBinaryType (type : list ascii) : bool := streq type (lit "b").

(** [n] rounded up to the next even number. *)
Definition roundUpEven (n : nat) : nat := n + n mod 2.

(** Width in hex characters of a FIXED field, as the specification words
    it: one nibble per digit padded to whole bytes for a numeric field, two
    characters per byte or character otherwise. *)
Definition fixedWidth (spec : FieldSpec) : nat :=
  if isNumericType (spec_type spec) then roundUpEven (spec_maxLength spec)
  else spec_maxLength spec * 2.

(** The bytes a string of hex-digit pairs denotes. *)
Fixpoint hexBytes (hex : list ascii) : list nat :=
  match hex with
  | a :: b :: rest =>
      (16 * default 0 (hexVal a) + default 0 (hexVal b)) :: hexBytes rest
  | _ => []
  end.

(** A byte as a printable character, the placeholder glyph otherwise. *)
Definition printableChar (byte : nat) : ascii :=
  if (32 <=? byte) && (byte <=? 126) then ascii_of_nat byte else "."%char.

(** Decoded value of a FIXED field, as the specification words it. *)
Definition fixedDecoded (spec : FieldSpec) (rawHex : list ascii)
    : list ascii :=
  if isNumericType (spec_type spec) || isBinaryType (spec_type spec)
  then rawHex
  else map printableChar (hexBytes rawHex).

(** A segment is consistent with the stream when its range lies inside the
    stream and its text is the substring of that range. *)
Definition segmentConsistent (hex : list ascii) (seg : HexSegment) : Prop :=
  seg_startPos seg ≤ seg_endPos seg
  ∧ seg_endPos seg ≤ length hex
  ∧ seg_hex seg = substring hex (seg_startPos seg) (seg_endPos seg).

(** Segments that cover the range from [from] to [to] one after the other,
    each starting where the one before ends. *)
Fixpoint contiguous (from : nat) (segs : list HexSegment) (to : nat) : Prop :=
  match segs with
  | [] => from = to
  | seg :: segs' =>
      seg_startPos seg = from ∧ contiguous (seg_endPos seg) segs' to
  end.

(** The errors that report a rejected LLVAR or LLLVAR length prefix. *)
Definition isInvalidLength (e : ParseError) : bool :=
  includes (lit ": Invalid LL") (message e).

(** A length prefix is rejected when it does not start with a decimal digit
    (its value is NaN) or when its value exceeds the maximum length. *)
Definition rejectedLength (maxLength : nat) (lenStr : list ascii) : bool :=
  match parseInt10 lenStr with
  | None => true
  | Some dataLen => maxLength <? dataLen
  end.

Definition appendErrors (es : list ParseError) (st : LoopState) : LoopState :=
  {| st_pos := st_pos st; st_fields := st_fields st;
     st_errors := st_errors st ++ es;
     st_hexSegments := st_hexSegments st |}.

(** The errors the loop logs for the remaining active fields once the cursor
    is at the end of the stream at position [pos]: a missing-specification
    error for each field without one, up to the first field that has one,
    which is reported as out of data and ends the loop. *)
Fixpoint drainErrors (M : fieldSpecs) (pos : nat) (rest : list nat)
    : list ParseError :=
  match rest with
  | [] => []
  | fieldNum :: rest' =>
      match FIELD_SPECS M !! fieldNum with
      | None => errNoSpec fieldNum :: drainErrors M pos rest'
      | Some _ => [errRanOut fieldNum pos]
      end
  end.

(** Bit [i] of the bit vector a string of hex digits denotes, positions
    counted from 1 at the most significant bit of the first digit. *)
Definition bitSet (bitmapHex : list ascii) (i : nat) : bool :=
  match bitmapHex !! ((i - 1) / 4) ≫= hexVal with
  | Some v => Nat.testbit v (3 - (i - 1) mod 4)
  | None => false
  end.

(** The invariant of the field loop: the cursor is inside the stream, every
    segment is consistent, and the segments cover the stream up to the
    cursor unless a length prefix was rejected. *)
Definition loopInvariant (hex : list ascii) (st : LoopState) : Prop :=
  st_pos st ≤ length hex
  ∧ Forall (segmentConsistent hex) (st_hexSegments st)
  ∧ (Exists (fun e => isInvalidLength e = true) (st_errors st)
     ∨ contiguous 0 (st_hexSegments st) (st_pos st)).

Definition flowState (f : Flow) : LoopState :=
  match f with
  | Continue st => st
  | Break st => st
  end.

(** ** Building a well-formed message

    A message is assembled the way the presets do it: the MTI, the bitmaps
    of [buildDualBitmap] for the chosen field numbers, then the fields in
    order, each one its payload preceded, for LLVAR and LLLVAR, by the
    decimal length padded to the width of the prefix. *)

(** What is written for a field: hex digits as they go on the wire, with
    the logical length they stand for (digits of a numeric field, bytes
    otherwise), or a text written through [asciiToHex]. *)
Inductive Payload :=
  | HexData (dataLen : nat) (data : list ascii)
  | TextData (text : list ascii).

Definition payloadLength (p : Payload) : nat :=
  match p with
  | HexData dataLen _ => dataLen
  | TextData text => length text
  end.

Definition payloadHex (p : Payload) : list ascii :=
  match p with
  | HexData _ data => data
  | TextData text => asciiToHex text
  end.

(** [len.toString().padStart(w, '0')] *)
Definition lengthPrefix (w n : nat) : list ascii := padStart0 w (showNat n).

Definition encodeField (spec : FieldSpec) (p : Payload) : list ascii :=
  if streq (spec_format spec) (lit "LLVAR") then
    lengthPrefix 2 (payloadLength p) ++ payloadHex p
  else if streq (spec_format spec) (lit "LLLVAR") then
    lengthPrefix 4 (payloadLength p) ++ payloadHex p
  else payloadHex p.

Definition fieldWire (M : fieldSpecs) (fp : nat * Payload) : list ascii :=
  match FIELD_SPECS M !! fp.1 with
  | Some spec => encodeField spec fp.2
  | None => []
  end.

Definition buildMessage (M : fieldSpecs) (mtiHex : list ascii)
    (fs : list (nat * Payload)) : list ascii :=
  mtiHex ++ buildDualBitmap (map fst fs) ++ concat (map (fieldWire M) fs).

(** [[0-9A-F]], upper case only. *)
Definition isUpperHex (c : ascii) : bool := isDigit c || inRange 65 70 c.

Definition isPrintable (c : ascii) : bool := inRange 32 126 c.

(** Whether the decoder renders the bytes of a field as text: in a FIXED
    field every type but the numeric ones and binary, in a variable-length
    field every type but [n]. *)
Definition rendersText (spec : FieldSpec) : bool :=
  if streq (spec_format spec) (lit "FIXED") then
    negb (isNumericType (spec_type spec) || isBinaryType (spec_type spec))
  else negb (streq (spec_type spec) (lit "n")).

(** Width in hex characters of the data of a variable-length field of
    logical length [n]. *)
Definition varWidth (spec : FieldSpec) (n : nat) : nat :=
  if streq (spec_type spec) (lit "n") then roundUpEven n else n * 2.

Definition validData (spec : FieldSpec) (width : nat) (p : Payload) : bool :=
  match p with
  | HexData _ data => forallb isUpperHex data && (length data =? width)
  | TextData text => rendersText spec && forallb isPrintable text
  end.

(** A payload that respects the format and the maximum length of its
    field.  The maximum length of a FIXED field is positive and its payload
    has exactly that length; the length of a variable-length payload is at
    most the maximum and fits the decimal prefix (two digits for LLVAR,
    three for LLLVAR). *)
Definition validPayload (spec : FieldSpec) (p : Payload) : bool :=
  if streq (spec_format spec) (lit "FIXED") then
    (0 <? spec_maxLength spec)
    && (payloadLength p =? spec_maxLength spec)
    && validData spec (fixedWidth spec) p
  else if streq (spec_format spec) (lit "LLVAR") then
    (payloadLength p <=? spec_maxLength spec) && (payloadLength p <=? 99)
    && validData spec (varWidth spec (payloadLength p)) p
  else if streq (spec_format spec) (lit "LLLVAR") then
    (payloadLength p <=? spec_maxLength spec) && (payloadLength p <=? 999)
    && validData spec (varWidth spec (payloadLength p)) p
  else false.

Fixpoint ascending (l : list nat) : bool :=
  match l with
  | a :: l' =>
      match l' with
      | b :: _ => (a <? b) && ascending l'
      | [] => true
      end
  | [] => true
  end.

(** A well-formed message: a four-character MTI of hex digits and field
    numbers in 2..128, in ascending order without repetition, each with a
    specification and a valid payload. *)
Definition wellFormed (M : fieldSpecs) (mtiHex : list ascii)
    (fs : list (nat * Payload)) : bool :=
  (length mtiHex =? 4) && forallb isUpperHex mtiHex
  && ascending (map fst fs)
  && forallb (fun f => (2 <=? f) && (f <=? 128)) (map fst fs)
  && forallb
       (fun fp =>
          match FIELD_SPECS M !! fp.1 with
          | Some spec => validPayload spec fp.2
          | None => false
          end) fs.

(** The value the decoder gives back for a payload: the text that was
    written, the hex digits themselves when the field is not rendered as
    text, and otherwise the printable rendering of the bytes. *)
Definition expectedValue (spec : FieldSpec) (p : Payload) : list ascii :=
  match p with
  | TextData text => text
  | HexData _ data =>
      if rendersText spec then map printableChar (hexBytes data) else data
  end.

(** A decoded field matches what was written for it. *)
Definition decodesTo (M : fieldSpecs) (parsed : ParsedField)
    (fp : nat * Payload) : Prop :=
  pf_de parsed = fp.1
  ∧ ∃ spec,
      FIELD_SPECS M !! fp.1 = Some spec
      ∧ pf_rawHex parsed = encodeField spec fp.2
      ∧ pf_decodedValue parsed = expectedValue spec fp.2.

(** The bit array after the stores of a bitmap builder, as booleans: entry
    [j] is set when [j + offset] is one of the fields. *)
Definition memberBits (offset : nat) (fields : list nat) : list bool :=
  map (fun j => bool_decide (j + offset ∈ fields)) (seq 0 64).

(** ** Sample messages *)

(** A network-management request with DE 7, 11 and 70, as the sign-on
    preset builds it. *)
Definition signOnHex : list ascii :=
  lit "0800" ++ buildDualBitmap [7; 11; 70] ++ lit "0210060000"
  ++ lit "000001" ++ numHex (lit "001") 3.

(** The state in which the loop is entered after a primary bitmap alone. *)
Definition afterPrimary : LoopState :=
  {| st_pos := 20; st_fields := []; st_errors := []; st_hexSegments := [] |}.

(** A message with a numeric, a text and a secondary-bitmap field. *)
Definition sampleFields : list (nat * Payload) :=
  [(2, HexData 15 (lit "0411111111111111"));
   (7, HexData 10 (lit "0210060000"));
   (41, TextData (lit "TERM0001"));
   (70, HexData 3 (lit "0001"))].

(** ** Further reference definitions *)

(** A character as [hexToAscii] shows it: itself when printable, the
    placeholder dot otherwise. *)
Definition printableOrDot (c : ascii) : ascii :=
  if isPrintable c then c else "."%char.

(** The fields of a list that a 64-bit bitmap can hold, in ascending order
    and without repetition. *)
Definition bitmapFields (fields : list nat) : list nat :=
  List.filter (fun f => bool_decide (f ∈ fields)) (seq 1 64).

(** A parsed field carries the data of the specification of its number. *)
Definition fieldOfSpec (M : fieldSpecs) (parsed : ParsedField) : Prop :=
  ∃ spec,
    FIELD_SPECS M !! pf_de parsed = Some spec
    ∧ pf_name parsed = spec_name spec
    ∧ pf_format parsed = spec_format spec
    ∧ pf_type parsed = spec_type spec
    ∧ pf_category parsed = spec_category spec
    ∧ pf_description parsed = spec_description spec.

(** The segment the decoder pushes together with a parsed field. *)
Definition fieldSegment (parsed : ParsedField) : HexSegment :=
  {| seg_hex := pf_rawHex parsed;
     seg_label :=
       lit "DE " ++ showNat (pf_de parsed) ++ lit ": " ++ pf_name parsed;
     seg_category := pf_category parsed;
     seg_startPos := pf_startPos parsed; seg_endPos := pf_endPos parsed;
     seg_de := Some (pf_de parsed) |}.

Definition hasDe (seg : HexSegment) : bool :=
  match seg_de seg with
  | Some _ => true
  | None => false
  end.

(** The invariant of the field loop about fields: the numbers of the fields
    parsed so far followed by the active fields still to come are ascending
    and within 2..128, every parsed field carries its specification, and the
    segments that name a field are the segments of the parsed fields. *)
Definition fieldsInvariant (M : fieldSpecs) (remaining : list nat)
    (st : LoopState) : Prop :=
  ascending (map pf_de (st_fields st) ++ remaining) = true
  ∧ Forall (fun f => 2 ≤ f ≤ 128) (map pf_de (st_fields st) ++ remaining)
  ∧ Forall (fieldOfSpec M) (st_fields st)
  ∧ List.filter hasDe (st_hexSegments st) = map fieldSegment (st_fields st).

(** Decoded value of a variable-length field: the data itself for type [n],
    the printable rendering of its bytes for every other type. *)
Definition varDecoded (spec : FieldSpec) (data : list ascii) : list ascii :=
  if streq (spec_type spec) (lit "n") then data
  else map printableChar (hexBytes data).

(** The segment the trailing-data check pushes. *)
Definition unparsedSegment (remaining : list ascii) (pos : nat) : HexSegment :=
  {| seg_hex := remaining; seg_label := lit "Unparsed Data";
     seg_category := lit "error";
     seg_startPos := pos; seg_endPos := pos + length remaining;
     seg_de := None |}.

(** ** The Luhn check of the application

    [validateLuhn] of the application code.  [cardNumber.replace(/\D/g, '')]
    keeps the characters [0-9]; the loop runs over them from the last to the
    first, so it is a recursion over the reversed digits that threads
    [isEven] and [sum].  [parseInt(digits[i], 10)] of a digit is its value. *)
Definition luhnDigit (isEven : bool) (c : ascii) : nat :=
  let d := nat_of_ascii c - 48 in
  if isEven then
    let d := d * 2 in
    if 9 <? d then d - 9 else d
  else d.

Fixpoint luhnLoop (digitsDown : list ascii) (isEven : bool) (sum : nat) : nat :=
  match digitsDown with
  | c :: rest => luhnLoop rest (negb isEven) (sum + luhnDigit isEven c)
  | [] => sum
  end.

Definition validateLuhn (cardNumber : list ascii) : bool :=
  let digits := List.filter isDigit cardNumber in
  if (length digits <? 13) || (19 <? length digits) then false
  else luhnLoop (rev digits) false 0 mod 10 =? 0.

(** The two digits whose exchange the check cannot see. *)
Definition zeroAndNine (a b : ascii) : bool :=
  bool_decide (a = "0"%char ∧ b = "9"%char)
  || bool_decide (a = "9"%char ∧ b = "0"%char).

(** ** Segments and rejected length prefixes

    A stretch of the stream: a segment of the result, or a length prefix
    the loop rejected, which it steps over without pushing a segment; the
    error it logs instead is kept with the range of the prefix. *)
Inductive Piece :=
  | Covered (seg : HexSegment)
  | Rejected (e : ParseError) (start width : nat).

Definition pieceStart (p : Piece) : nat :=
  match p with
  | Covered seg => seg_startPos seg
  | Rejected _ start _ => start
  end.

Definition pieceEnd (p : Piece) : nat :=
  match p with
  | Covered seg => seg_endPos seg
  | Rejected _ start width => start + width
  end.

Definition pieceHex (hex : list ascii) (p : Piece) : list ascii :=
  match p with
  | Covered seg => seg_hex seg
  | Rejected _ start width => substring hex start (start + width)
  end.

(** Pieces that cover the range from [from] to [to] one after the other,
    each starting where the one before ends. *)
Fixpoint tiles (from : nat) (pieces : list Piece) (to : nat) : Prop :=
  match pieces with
  | [] => from = to
  | p :: pieces' =>
      pieceStart p = from ∧ pieceStart p ≤ pieceEnd p
      ∧ tiles (pieceEnd p) pieces' to
  end.

Fixpoint coveredSegments (pieces : list Piece) : list HexSegment :=
  match pieces with
  | Covered seg :: pieces' => seg :: coveredSegments pieces'
  | Rejected _ _ _ :: pieces' => coveredSegments pieces'
  | [] => []
  end.

Fixpoint rejectedErrors (pieces : list Piece) : list ParseError :=
  match pieces with
  | Covered _ :: pieces' => rejectedErrors pieces'
  | Rejected e _ _ :: pieces' => e :: rejectedErrors pieces'
  | [] => []
  end.

(** What a rejected piece stands for: the 2 characters of an LLVAR field or
    the 4 characters of an LLLVAR field, read in full at the position the
    error reports, which [parseInt] turns into NaN or into a length above
    the maximum of the field. *)
Definition rejectedPrefix (M : fieldSpecs) (hex : list ascii) (p : Piece)
    : Prop :=
  match p with
  | Covered _ => True
  | Rejected e start width =>
      position e = Some start
      ∧ isInvalidLength e = true
      ∧ start + width ≤ length hex
      ∧ ∃ fieldNum spec,
          field e = Some fieldNum
          ∧ FIELD_SPECS M !! fieldNum = Some spec
          ∧ (spec_format spec = lit "LLVAR" ∧ width = 2
             ∨ spec_format spec = lit "LLLVAR" ∧ width = 4)
          ∧ rejectedLength (spec_maxLength spec)
              (substring hex start (start + width)) = true
  end.

(** Segments in the order of the stream: each starts at or after the end of
    the one before, none reaches back before [from] or beyond [to]. *)
Fixpoint inOrder (from : nat) (segs : list HexSegment) (to : nat) : Prop :=
  match segs with
  | [] => from ≤ to
  | seg :: segs' =>
      from ≤ seg_startPos seg ∧ seg_startPos seg ≤ seg_endPos seg
      ∧ inOrder (seg_endPos seg) segs' to
  end.

Definition isTrailingSegment (seg : HexSegment) : bool :=
  streq (seg_label seg) (lit "Unparsed Data").

(** The invariant of the field loop about coverage: the segments pushed so
    far and the length prefixes rejected so far, in the order in which the
    loop met them, cover the stream from its start to the cursor; the
    rejected prefixes are those of the invalid-length errors logged so far;
    no segment is the trailing one yet. *)
Definition tilingInvariant (M : fieldSpecs) (hex : list ascii)
    (st : LoopState) : Prop :=
  ∃ pieces,
    tiles 0 pieces (st_pos st)
    ∧ coveredSegments pieces = st_hexSegments st
    ∧ rejectedErrors pieces = List.filter isInvalidLength (st_errors st)
    ∧ Forall (rejectedPrefix M hex) pieces
    ∧ Forall (fun seg => isTrailingSegment seg = false) (st_hexSegments st).

(** * Properties *)

(** ** Strings and substrings *)

Lemma substring_le (s : list ascii) (a b : nat) :
  a ≤ b → substring s a b = take (b - a) (drop a s).
Proof.
  intros Hab. unfold substring.
  by rewrite Nat.min_l, Nat.max_r by lia.
Qed.

Lemma length_substring (s : list ascii) (a b : nat) :
  a ≤ b → b ≤ length s → length (substring s a b) = b - a.
Proof.
  intros Hab Hb. rewrite substring_le by done.
  rewrite length_take, length_drop. lia.
Qed.

Lemma substring_app (s : list ascii) (a b c : nat) :
  a ≤ b → b ≤ c → substring s a b ++ substring s b c = substring s a c.
Proof.
  intros Hab Hbc. rewrite !substring_le by lia.
  replace (c - a) with ((b - a) + (c - b)) by lia.
  rewrite <- take_take_drop, drop_drop.
  do 3 f_equal. lia.
Qed.

Lemma substring_to_end (s : list ascii) (a : nat) :
  substring s a (length s) = substringFrom s a.
Proof.
  unfold substringFrom.
  destruct (decide (a ≤ length s)) as [Ha | Ha].
  - rewrite substring_le by done. apply take_ge. rewrite length_drop. lia.
  - unfold substring. rewrite Nat.min_r, Nat.max_l by lia.
    rewrite (drop_ge s a) by lia. rewrite drop_all. by rewrite take_nil.
Qed.

Lemma substring_prefix (s : list ascii) (b : nat) :
  substring s 0 b = take b s.
Proof. rewrite substring_le by lia. by rewrite Nat.sub_0_r. Qed.

Lemma substring_app_from (s : list ascii) (a b : nat) :
  a ≤ b → substring s a b ++ substringFrom s b = substringFrom s a.
Proof.
  intros Hab. unfold substringFrom. rewrite substring_le by done.
  rewrite <- (take_drop (b - a) (drop a s)) at 2.
  rewrite drop_drop. do 3 f_equal. lia.
Qed.

Lemma substring_empty (s : list ascii) (a : nat) : substring s a a = [].
Proof. rewrite substring_le by lia. by rewrite Nat.sub_diag. Qed.

(** ** The fatal preconditions and the early return *)

Lemma testHex_forallb (hex : list ascii) :
  testHex hex = true → forallb isHexChar hex = true.
Proof. by destruct hex. Qed.

Lemma parseISO8583_valid (M : fieldSpecs) (inputHex : list ascii) :
  let hex := normalize inputHex in
  testHex hex = true → 4 ≤ length hex →
  parseISO8583 M inputHex =
    let mtiHex := substring hex 0 4 in
    let mtiInfo := decodeMTI M mtiHex in
    let mtiSegment :=
      {| seg_hex := mtiHex; seg_label := lit "MTI: " ++ mti_raw mtiInfo;
         seg_category := lit "mti";
         seg_startPos := 0; seg_endPos := 4; seg_de := None |} in
    if length hex <? 20 then
      {| success := true; mti := Some mtiInfo; primaryBitmap := None;
         secondaryBitmap := None; fields := [];
         errors := [errPrimaryTooShort 4];
         hexSegments := [mtiSegment] |}
    else parseBody M hex mtiInfo mtiSegment 4.
Proof.
  intros hex Hvalid Hlen. unfold parseISO8583. fold hex.
  rewrite Hvalid. cbn [negb].
  destruct hex as [|c hex'] eqn:Hhex; [simpl in Hlen; lia|].
  rewrite bool_decide_eq_false_2 by done.
  rewrite (proj2 (Nat.ltb_ge _ _)) by done. reflexivity.
Qed.

(** C8. An input whose normalized form is shorter than four characters
    (the empty string included) or holds a character that is not a hex digit
    yields the failure-only result: [success] is false, there is no MTI, no
    bitmap, no field, no segment, and there is exactly one error. *)
Theorem fatal_precondition_failure (M : fieldSpecs) (inputHex : list ascii) :
  length (normalize inputHex) < 4
  ∨ forallb isHexChar (normalize inputHex) = false →
  let r := parseISO8583 M inputHex in
  success r = false ∧ mti r = None ∧ primaryBitmap r = None
  ∧ secondaryBitmap r = None ∧ fields r = [] ∧ hexSegments r = []
  ∧ length (errors r) = 1.
Proof.
  intros H. unfold parseISO8583.
  destruct (bool_decide (normalize inputHex = []) || (length (normalize inputHex) <? 4))
    eqn:Hshort; [by repeat split|].
  destruct (testHex (normalize inputHex)) eqn:Hvalid; [|by repeat split].
  exfalso. apply orb_false_iff in Hshort as [_ Hlen%Nat.ltb_ge].
  destruct H as [H | H]; [lia|].
  apply testHex_forallb in Hvalid. congruence.
Qed.

Lemma fatal_precondition_failure_witness :
  let r := parseISO8583 sampleSpecs (lit "01 0G") in
  success r = false ∧ mti r = None ∧ primaryBitmap r = None
  ∧ secondaryBitmap r = None ∧ fields r = [] ∧ hexSegments r = []
  ∧ length (errors r) = 1.
Proof.
  apply (fatal_precondition_failure sampleSpecs (lit "01 0G")).
  right. reflexivity.
Defined.

(** The error of the early return is not one of the two kinds the final
    [success] computation leaves out. *)
Lemma errPrimaryTooShort_counts (pos : nat) :
  countsAgainstSuccess (errPrimaryTooShort pos) = true.
Proof. reflexivity. Qed.

(** C1, as the code has it.  When the normalized input is valid hex of
    length at least 4 and fewer than 16 characters follow the MTI, the
    result has the MTI, no bitmap, no field, the MTI segment only, and
    exactly one error, the one for the missing primary bitmap; that error is
    not of the two kinds the final success computation excludes, but this
    return does not run that computation: it sets [success] to true. *)
Theorem primary_bitmap_shortfall (M : fieldSpecs) (inputHex : list ascii) :
  let hex := normalize inputHex in
  testHex hex = true → 4 ≤ length hex → length hex - 4 < 16 →
  let r := parseISO8583 M inputHex in
  mti r = Some (decodeMTI M (substring hex 0 4))
  ∧ primaryBitmap r = None ∧ secondaryBitmap r = None ∧ fields r = []
  ∧ errors r = [errPrimaryTooShort 4]
  ∧ countsAgainstSuccess (errPrimaryTooShort 4) = true
  ∧ successOf (errors r) = false
  ∧ success r = true.
Proof.
  intros hex Hvalid Hlen Hshort r. subst r.
  rewrite parseISO8583_valid by done. fold hex. cbv zeta.
  rewrite (proj2 (Nat.ltb_lt _ _)) by lia. by repeat split.
Qed.

Lemma primary_bitmap_shortfall_witness :
  let r := parseISO8583 sampleSpecs (lit "0800 1234") in
  mti r = Some (decodeMTI sampleSpecs (lit "0800"))
  ∧ primaryBitmap r = None ∧ secondaryBitmap r = None ∧ fields r = []
  ∧ errors r = [errPrimaryTooShort 4]
  ∧ countsAgainstSuccess (errPrimaryTooShort 4) = true
  ∧ successOf (errors r) = false
  ∧ success r = true.
Proof.
  apply (primary_bitmap_shortfall sampleSpecs (lit "0800 1234"));
    [reflexivity | vm_compute; lia | vm_compute; lia].
Defined.

(** C1 as stated fails: on the four characters 0800 every premise holds and
    there is exactly one error, yet [success] is true. *)
Lemma mti_only_input_succeeds :
  let hex := normalize (lit "0800") in
  let r := parseISO8583 sampleSpecs (lit "0800") in
  testHex hex = true ∧ 4 ≤ length hex ∧ length hex - 4 < 16
  ∧ length (errors r) = 1 ∧ success r ≠ false.
Proof. vm_compute. repeat split; (lia || discriminate). Qed.

(** ** [decodeMTI] *)

Ltac each_ascii c :=
  destruct c as [[] [] [] [] [] [] [] []].

Lemma hexVal_bound (c : ascii) (v : nat) : hexVal c = Some v → v < 16.
Proof. each_ascii c; vm_compute; intros [= <-]; lia. Qed.

Lemma hexVal_three (c : ascii) : hexVal c = Some 3 → c = "3"%char.
Proof. each_ascii c; vm_compute; intros [=]; reflexivity. Qed.

Lemma hexVal_decimal (c : ascii) (v : nat) :
  hexVal c = Some v → v ≤ 9 → isDigit c = true ∧ ascii_of_nat (48 + v) = c.
Proof.
  each_ascii c; vm_compute; intros [= <-] Hle; try (split; reflexivity);
    exfalso; vm_compute in Hle; lia.
Qed.

Lemma isDigit_hexVal (c : ascii) :
  isDigit c = true → hexVal c = Some (nat_of_ascii c - 48) ∧ nat_of_ascii c - 48 ≤ 9
  ∧ 48 ≤ nat_of_ascii c.
Proof.
  unfold hexVal. intros H. rewrite H. unfold isDigit, inRange in H.
  apply andb_true_iff in H as [H1%Nat.leb_le H2%Nat.leb_le]. repeat split; lia.
Qed.

(** A byte written as two characters decodes to a decimal digit exactly when
    it is written 3d. *)
Lemma pair_decodes_to_digit (a b : ascii) :
  isDigit (asciiOfCode (parseInt16 [a; b])) = true ↔
  a = "3"%char ∧ isDigit b = true.
Proof.
  split.
  - unfold parseInt16. destruct (hexVal a) as [x|] eqn:Ha; [|by vm_compute].
    pose proof (hexVal_bound _ _ Ha) as Hx.
    destruct (hexVal b) as [y|] eqn:Hb.
    + pose proof (hexVal_bound _ _ Hb) as Hy. unfold asciiOfCode.
      destruct ((32 <=? 16 * x + y) && (16 * x + y <=? 126)) eqn:Hr;
        [|by vm_compute].
      unfold isDigit, inRange. rewrite nat_ascii_embedding by lia.
      intros [H1%Nat.leb_le H2%Nat.leb_le]%andb_true_iff.
      assert (x = 3) as -> by lia. split; [by apply hexVal_three|].
      apply (hexVal_decimal b y); [done | lia].
    + unfold asciiOfCode.
      destruct ((32 <=? x) && (x <=? 126)) eqn:Hr; [|by vm_compute].
      apply andb_true_iff in Hr as [H1%Nat.leb_le _]. lia.
  - intros [-> Hb]. destruct (isDigit_hexVal b Hb) as (Hv & Hle & Hge).
    unfold parseInt16. cbn [hexVal]. change (hexVal "3") with (Some 3).
    rewrite Hv. unfold asciiOfCode.
    rewrite andb_true_intro by (split; apply Nat.leb_le; lia).
    unfold isDigit, inRange. rewrite nat_ascii_embedding by lia.
    apply andb_true_intro; split; apply Nat.leb_le; lia.
Qed.

Lemma pair_digit_value (b : ascii) :
  isDigit b = true → asciiOfCode (parseInt16 ["3"%char; b]) = b.
Proof.
  intros Hb. destruct (isDigit_hexVal b Hb) as (Hv & Hle & Hge).
  unfold parseInt16. change (hexVal "3") with (Some 3). rewrite Hv.
  unfold asciiOfCode.
  rewrite andb_true_intro by (split; apply Nat.leb_le; lia).
  replace (16 * 3 + (nat_of_ascii b - 48)) with (nat_of_ascii b) by lia.
  apply ascii_nat_embedding.
Qed.

Lemma pair_digit_test (a b : ascii) :
  isDigit (asciiOfCode (parseInt16 [a; b]))
  = bool_decide (a = "3"%char) && isDigit b.
Proof.
  apply eq_true_iff_eq.
  by rewrite pair_decodes_to_digit, andb_true_iff, bool_decide_eq_true.
Qed.

(** Case analysis on one byte of a text-encoded MTI: either it is written
    3d, or the test at hand fails. *)
Ltac text_byte h d :=
  destruct (bool_decide (h = "3"%char)) eqn:?;
    [|by cbn [andb]; rewrite ?andb_false_r];
  destruct (isDigit d) eqn:?;
    [|by cbn [andb]; rewrite ?andb_false_r].

(** The text-encoded test of [decodeMTI] is the one of [textDigits]. *)
Lemma text_test_textDigits (mtiHex : list ascii) :
  8 ≤ length mtiHex →
  if isFourDigits (hexToAscii (substring mtiHex 0 8))
  then textDigits mtiHex = Some (hexToAscii (substring mtiHex 0 8))
  else textDigits mtiHex = None.
Proof.
  intros Hlen. rewrite substring_prefix. unfold textDigits.
  assert (length (take 8 mtiHex) = 8) as H8 by (rewrite length_take; lia).
  destruct (take 8 mtiHex)
    as [|h0 [|d0 [|h1 [|d1 [|h2 [|d2 [|h3 [|d3 [|? ?]]]]]]]]];
    try discriminate.
  unfold isFourDigits. cbn [hexToAscii length Nat.eqb forallb].
  rewrite !pair_digit_test.
  text_byte h0 d0. text_byte h1 d1. text_byte h2 d2. text_byte h3 d3.
  repeat match goal with
         | H : bool_decide (_ = "3"%char) = true |- _ =>
             apply bool_decide_eq_true in H; subst
         end.
  cbn [andb]. by rewrite !pair_digit_value.
Qed.

Lemma textDigits_short (mtiHex : list ascii) :
  length mtiHex < 8 → textDigits mtiHex = None.
Proof.
  intros H. unfold textDigits. rewrite take_ge by lia.
  do 8 (destruct mtiHex as [|? mtiHex]; [done|]). simpl in H. lia.
Qed.

Lemma textDigits_four (mtiHex ds : list ascii) :
  textDigits mtiHex = Some ds → isFourDigits ds = true.
Proof.
  unfold textDigits.
  destruct (take 8 mtiHex) as [|h0 [|d0 [|h1 [|d1 [|h2 [|d2 [|h3 [|d3 [|? ?]]]]]]]]];
    try discriminate.
  destruct (forallb _ [h0; h1; h2; h3] && forallb isDigit [d0; d1; d2; d3])
    eqn:E; [|discriminate].
  intros [= <-]. apply andb_true_iff in E as [_ E]. unfold isFourDigits.
  by rewrite E.
Qed.

Lemma mtiString_logicalMTI (mtiHex : list ascii) :
  mtiString mtiHex = logicalMTI mtiHex.
Proof.
  unfold mtiString, logicalMTI.
  destruct (8 <=? length mtiHex) eqn:H8.
  - apply Nat.leb_le in H8. pose proof (text_test_textDigits mtiHex H8) as Ht.
    destruct (isFourDigits (hexToAscii (substring mtiHex 0 8))) eqn:E.
    + rewrite Ht. rewrite E.
      unfold isFourDigits in E. apply andb_true_iff in E as [-> _]. done.
    + rewrite Ht. rewrite substring_prefix.
      destruct ((length mtiHex =? 4) && isFourDigits mtiHex) eqn:E4.
      * apply andb_true_iff in E4 as [E4%Nat.eqb_eq _]. lia.
      * by rewrite (proj2 (Nat.leb_le _ _)) by lia.
  - apply Nat.leb_gt in H8. rewrite textDigits_short by done.
    rewrite substring_prefix.
    destruct ((length mtiHex =? 4) && isFourDigits mtiHex) eqn:E4.
    + apply andb_true_iff in E4 as [E4%Nat.eqb_eq _]. by rewrite take_ge by lia.
    + destruct (4 <=? length mtiHex) eqn:H4; [done|].
      apply Nat.leb_gt in H4. by rewrite take_ge by lia.
Qed.

Lemma logicalMTI_length (fragment : list ascii) :
  length (logicalMTI fragment) = Nat.min 4 (length fragment).
Proof.
  unfold logicalMTI. destruct (textDigits fragment) as [ds|] eqn:E.
  - pose proof (textDigits_four _ _ E) as H4. unfold isFourDigits in H4.
    apply andb_true_iff in H4 as [H4%Nat.eqb_eq _].
    destruct (decide (length fragment < 8)) as [Hs|Hs];
      [by rewrite textDigits_short in E|lia].
  - by rewrite length_take.
Qed.

Lemma lookupOr_miss (table : gmap (list ascii) (list ascii))
    (key fallback : list ascii) :
  table !! key = None → lookupOr table key fallback = fallback.
Proof. unfold lookupOr. by intros ->. Qed.

Lemma lookupOr_hit (table : gmap (list ascii) (list ascii))
    (key fallback label : list ascii) :
  table !! key = Some label → label ≠ [] → lookupOr table key fallback = label.
Proof. unfold lookupOr. intros -> ?. by destruct label. Qed.

(** C9. [decodeMTI] is a total function of its argument.  Its [raw] is the
    logical MTI: the four text digits when the fragment has at least eight
    characters whose first eight decode to four ASCII decimal digits, and
    otherwise the first four available characters, the packed digits
    themselves when those are four decimal digits.  Each of the four digit
    positions is looked up in its own table, with the label Unknown on a
    miss, and the description is Message Type followed by [raw] when the
    full-MTI table has no entry. *)
Theorem decodeMTI_best_effort (M : fieldSpecs) (fragment : list ascii) :
  let r := decodeMTI M fragment in
  let raw := logicalMTI fragment in
  mti_raw r = raw
  ∧ length raw = Nat.min 4 (length fragment)
  ∧ (∀ ds, textDigits fragment = Some ds → raw = ds)
  ∧ (isFourDigits (take 4 fragment) = true → textDigits fragment = None →
     raw = take 4 fragment)
  ∧ (textDigits fragment = None → raw = take 4 fragment)
  ∧ mti_version r = digitInfo (MTI_VERSION M) (raw !! 0)
  ∧ mti_messageClass r = digitInfo (MTI_CLASS M) (raw !! 1)
  ∧ mti_function r = digitInfo (MTI_FUNCTION M) (raw !! 2)
  ∧ mti_origin r = digitInfo (MTI_ORIGIN M) (raw !! 3)
  ∧ (∀ table d, cl_code (digitInfo table d) = d
       ∧ (table !! digitKey d = None →
          cl_label (digitInfo table d) = lit "Unknown")
       ∧ (∀ label, table !! digitKey d = Some label → label ≠ [] →
          cl_label (digitInfo table d) = label))
  ∧ (MTI_DESCRIPTIONS M !! raw = None →
     mti_description r = lit "Message Type " ++ raw)
  ∧ (∀ label, MTI_DESCRIPTIONS M !! raw = Some label → label ≠ [] →
     mti_description r = label).
Proof.
  intros r raw. subst r raw. unfold decodeMTI. cbn [mti_raw mti_version
    mti_messageClass mti_function mti_origin mti_description].
  rewrite mtiString_logicalMTI.
  split; [done|]. split; [apply logicalMTI_length|].
  split; [by unfold logicalMTI; intros ds ->|].
  split; [by unfold logicalMTI; intros _ ->|].
  split; [by unfold logicalMTI; intros ->|].
  do 4 (split; [done|]).
  split.
  { intros table d. cbn [digitInfo cl_code cl_label]. split; [done|]. split.
    - apply lookupOr_miss.
    - intros label. apply lookupOr_hit. }
  split; [apply lookupOr_miss | intros label; apply lookupOr_hit].
Qed.

(** ** One iteration of the field loop *)

Lemma streq_true (a b : list ascii) : a = b → streq a b = true.
Proof. intros ->. unfold streq. by apply bool_decide_eq_true_2. Qed.

Lemma streq_eq (a b : list ascii) : streq a b = true → a = b.
Proof. unfold streq. apply bool_decide_eq_true_1. Qed.

Lemma fieldStep_no_spec (M : fieldSpecs) (hex : list ascii) (fieldNum : nat)
    (st : LoopState) :
  FIELD_SPECS M !! fieldNum = None →
  fieldStep M hex fieldNum st = Continue (pushError (errNoSpec fieldNum) st).
Proof. unfold fieldStep. by intros ->. Qed.

Lemma fieldStep_ran_out (M : fieldSpecs) (hex : list ascii) (fieldNum : nat)
    (spec : FieldSpec) (st : LoopState) :
  FIELD_SPECS M !! fieldNum = Some spec → length hex ≤ st_pos st →
  fieldStep M hex fieldNum st =
    Break (pushError (errRanOut fieldNum (st_pos st)) st).
Proof.
  unfold fieldStep. intros -> Hle. by rewrite (proj2 (Nat.leb_le _ _)).
Qed.

Lemma fieldStep_fixed (M : fieldSpecs) (hex : list ascii) (fieldNum : nat)
    (spec : FieldSpec) (st : LoopState) :
  FIELD_SPECS M !! fieldNum = Some spec → st_pos st < length hex →
  spec_format spec = lit "FIXED" →
  fieldStep M hex fieldNum st = parseFixed hex fieldNum spec st.
Proof.
  unfold fieldStep. intros -> Hlt Hf.
  rewrite (proj2 (Nat.leb_gt _ _)) by done. by rewrite (streq_true _ _ Hf).
Qed.

Lemma fieldStep_llvar (M : fieldSpecs) (hex : list ascii) (fieldNum : nat)
    (spec : FieldSpec) (st : LoopState) :
  FIELD_SPECS M !! fieldNum = Some spec → st_pos st < length hex →
  spec_format spec = lit "LLVAR" →
  fieldStep M hex fieldNum st =
    parseVar 2 (errLLVARPrefix fieldNum)
      (fun lenStr p => errLLVARInvalid fieldNum lenStr (spec_maxLength spec) p)
      hex fieldNum spec st.
Proof.
  unfold fieldStep. intros -> Hlt Hf.
  rewrite (proj2 (Nat.leb_gt _ _)) by done. by rewrite Hf.
Qed.

Lemma fieldStep_lllvar (M : fieldSpecs) (hex : list ascii) (fieldNum : nat)
    (spec : FieldSpec) (st : LoopState) :
  FIELD_SPECS M !! fieldNum = Some spec → st_pos st < length hex →
  spec_format spec = lit "LLLVAR" →
  fieldStep M hex fieldNum st =
    parseVar 4 (errLLLVARPrefix fieldNum) (errLLLVARInvalid fieldNum)
      hex fieldNum spec st.
Proof.
  unfold fieldStep. intros -> Hlt Hf.
  rewrite (proj2 (Nat.leb_gt _ _)) by done. by rewrite Hf.
Qed.

(** ** FIXED fields *)

Lemma fixedHexLen_fixedWidth (spec : FieldSpec) :
  fixedHexLen spec = fixedWidth spec.
Proof.
  unfold fixedHexLen, fixedWidth, isNumericType, roundUpEven.
  destruct (streq (spec_type spec) (lit "b")) eqn:Hb.
  - apply streq_eq in Hb. rewrite Hb. reflexivity.
  - destruct (streq (spec_type spec) (lit "n")
              || streq (spec_type spec) (lit "x+n")); [|done].
    pose proof (Nat.mod_upper_bound (spec_maxLength spec) 2).
    destruct (spec_maxLength spec mod 2 =? 0) eqn:Hp; cbn [negb].
    + apply Nat.eqb_eq in Hp. lia.
    + apply Nat.eqb_neq in Hp. lia.
Qed.

Lemma fixedWidth_even (spec : FieldSpec) : fixedWidth spec mod 2 = 0.
Proof.
  unfold fixedWidth, roundUpEven.
  destruct (isNumericType (spec_type spec)).
  - pose proof (Nat.mod_upper_bound (spec_maxLength spec) 2).
    pose proof (Nat.div_mod_eq (spec_maxLength spec) 2).
    replace (spec_maxLength spec + spec_maxLength spec mod 2)
      with ((spec_maxLength spec / 2 + spec_maxLength spec mod 2) * 2) by lia.
    apply Nat.Div0.mod_mul.
  - apply Nat.Div0.mod_mul.
Qed.

(** On pairs of hex digits [hexToAscii] is the printable rendering of the
    bytes. *)
Lemma hexToAscii_printable (hex : list ascii) :
  forallb isHexChar hex = true → length hex mod 2 = 0 →
  hexToAscii hex = map printableChar (hexBytes hex).
Proof.
  revert hex. fix IH 1. intros [|a [|b rest]] Hv Hl.
  - done.
  - done.
  - cbn [forallb] in Hv.
    apply andb_true_iff in Hv as [Ha [Hb Hrest]%andb_true_iff].
    cbn [hexToAscii hexBytes map]. f_equal.
    + unfold parseInt16, isHexChar, hexVal in *.
      destruct (isDigit a); [|destruct (inRange 65 70 a); [|destruct (inRange 97 102 a); [|done]]];
      (destruct (isDigit b); [|destruct (inRange 65 70 b); [|destruct (inRange 97 102 b); [|done]]]);
      reflexivity.
    + apply IH; [done|]. cbn [length] in Hl.
      replace (S (S (length rest))) with (length rest + 1 * 2) in Hl by lia.
      by rewrite Nat.Div0.mod_add in Hl.
Qed.

Lemma forallb_take {A} (f : A → bool) (n : nat) (l : list A) :
  forallb f l = true → forallb f (take n l) = true.
Proof.
  revert n. induction l as [|x l IH]; intros [|n]; cbn; try done.
  intros [-> H]%andb_true_iff. by apply IH.
Qed.

Lemma forallb_drop {A} (f : A → bool) (n : nat) (l : list A) :
  forallb f l = true → forallb f (drop n l) = true.
Proof.
  revert n. induction l as [|x l IH]; intros [|n]; cbn; try done.
  intros [_ H]%andb_true_iff. by apply IH.
Qed.

Lemma forallb_substring (f : ascii → bool) (s : list ascii) (a b : nat) :
  forallb f s = true → forallb f (substring s a b) = true.
Proof. intros H. unfold substring. by apply forallb_take, forallb_drop. Qed.

Lemma fixedValue_fixedDecoded (spec : FieldSpec) (rawHex : list ascii) :
  forallb isHexChar rawHex = true → length rawHex mod 2 = 0 →
  fixedValue spec rawHex = fixedDecoded spec rawHex.
Proof.
  intros Hv Hl. unfold fixedValue, fixedDecoded, isNumericType, isBinaryType.
  destruct (streq (spec_type spec) (lit "n")
            || streq (spec_type spec) (lit "x+n")); [done|].
  destruct (streq (spec_type spec) (lit "b")); [done|].
  by apply hexToAscii_printable.
Qed.

(** C7. An active FIXED field with a specification and enough input left
    consumes [maxLength * 2] hex characters when its type is binary or text
    and [maxLength] rounded up to the next even number when it is numeric;
    the field it emits holds the consumed characters as [rawHex], and its
    decoded value is that raw hex for the numeric and binary types and the
    printable rendering of its bytes for the text types.  The loop goes on
    with the next active field. *)
Theorem fixed_field_decoding (M : fieldSpecs) (hex : list ascii)
    (fieldNum : nat) (spec : FieldSpec) (rest : list nat) (st : LoopState) :
  forallb isHexChar hex = true →
  FIELD_SPECS M !! fieldNum = Some spec →
  spec_format spec = lit "FIXED" →
  st_pos st < length hex →
  st_pos st + fixedWidth spec ≤ length hex →
  ∃ parsed st',
    fieldStep M hex fieldNum st = Continue st'
    ∧ fieldLoop M hex (fieldNum :: rest) st = fieldLoop M hex rest st'
    ∧ st_pos st' = st_pos st + fixedWidth spec
    ∧ st_fields st' = st_fields st ++ [parsed]
    ∧ st_errors st' = st_errors st
    ∧ pf_de parsed = fieldNum
    ∧ pf_startPos parsed = st_pos st
    ∧ pf_endPos parsed = st_pos st + fixedWidth spec
    ∧ pf_rawHex parsed = substring hex (st_pos st) (st_pos st + fixedWidth spec)
    ∧ length (pf_rawHex parsed) = fixedWidth spec
    ∧ pf_decodedValue parsed = fixedDecoded spec (pf_rawHex parsed).
Proof.
  intros Hvalid Hspec Hfmt Hlt Hfit.
  pose proof (fieldStep_fixed M hex fieldNum spec st Hspec Hlt Hfmt) as Hstep.
  unfold parseFixed in Hstep. rewrite fixedHexLen_fixedWidth in Hstep.
  rewrite (proj2 (Nat.ltb_ge _ _)) in Hstep by done.
  eexists (mkField _ _ _ _ _ _ _), _. split; [exact Hstep|].
  split; [by cbn [fieldLoop]; rewrite Hstep|].
  cbn [emitField setPos mkField st_pos st_fields st_errors pf_de pf_startPos
       pf_endPos pf_rawHex pf_decodedValue].
  repeat split.
  - rewrite length_substring; lia.
  - apply fixedValue_fixedDecoded.
    + by apply forallb_substring.
    + rewrite length_substring by lia.
      replace (st_pos st + fixedWidth spec - st_pos st) with (fixedWidth spec)
        by lia.
      apply fixedWidth_even.
Qed.

(** ** Segments: consistency and tiling *)

Lemma includes_app_r (needle a b : list ascii) :
  includes needle b = true → includes needle (a ++ b) = true.
Proof.
  intros H. induction a as [|c a IH]; [done|].
  cbn [app includes]. rewrite IH. apply orb_true_r.
Qed.

Lemma errLLVARInvalid_isInvalidLength (fieldNum : nat) (lenStr : list ascii)
    (maxLength pos : nat) :
  isInvalidLength (errLLVARInvalid fieldNum lenStr maxLength pos) = true.
Proof.
  unfold isInvalidLength, errLLVARInvalid. cbn [message].
  rewrite (app_assoc (lit "DE ")). apply includes_app_r. reflexivity.
Qed.

Lemma errLLLVARInvalid_isInvalidLength (fieldNum : nat) (lenStr : list ascii)
    (pos : nat) :
  isInvalidLength (errLLLVARInvalid fieldNum lenStr pos) = true.
Proof.
  unfold isInvalidLength, errLLLVARInvalid. cbn [message].
  rewrite (app_assoc (lit "DE ")). apply includes_app_r. reflexivity.
Qed.

Lemma contiguous_app (a b c : nat) (l l' : list HexSegment) :
  contiguous a l b → contiguous b l' c → contiguous a (l ++ l') c.
Proof.
  revert a. induction l as [|seg l IH]; intros a; cbn.
  - by intros ->.
  - intros [-> H] H'. split; [done|]. by apply IH.
Qed.

Lemma contiguous_concat (hex : list ascii) (a b : nat) (l : list HexSegment) :
  Forall (segmentConsistent hex) l → contiguous a l b →
  a ≤ b ∧ concat (map seg_hex l) = substring hex a b.
Proof.
  intros Hl. revert a. induction Hl as [|seg l (Hle & Hend & Hseg) _ IH];
    intros a; cbn.
  - intros ->. split; [done|]. by rewrite substring_empty.
  - intros [<- Hc]. destruct (IH _ Hc) as [Hle' ->]. split; [lia|].
    rewrite Hseg. by apply substring_app.
Qed.

Lemma loopInvariant_pushError (hex : list ascii) (e : ParseError)
    (st : LoopState) :
  loopInvariant hex st → loopInvariant hex (pushError e st).
Proof.
  intros (Hpos & Hsegs & Ht). repeat split; [done..|].
  destruct Ht as [Ht | Ht]; [left | by right].
  cbn. apply Exists_app. by left.
Qed.

(** Pushing the field and its segment for the range from the old cursor to
    the cursor of [st1], where [st1] is the old state with the cursor moved
    and possibly one more error. *)
Lemma loopInvariant_emitField (hex : list ascii) (fieldNum : nat)
    (spec : FieldSpec) (fieldHex fieldValue : list ascii) (fieldLength : nat)
    (st st1 : LoopState) :
  loopInvariant hex st →
  st_hexSegments st1 = st_hexSegments st →
  (∃ es, st_errors st1 = st_errors st ++ es) →
  st_pos st ≤ st_pos st1 → st_pos st1 ≤ length hex →
  fieldHex = substring hex (st_pos st) (st_pos st1) →
  loopInvariant hex
    (emitField fieldNum spec fieldHex fieldValue fieldLength (st_pos st) st1).
Proof.
  intros (Hpos & Hsegs & Ht) Hs [es He] Hle Hend ->.
  unfold loopInvariant. cbn [emitField st_pos st_hexSegments st_errors].
  rewrite Hs, He. split; [done|]. split.
  - apply Forall_app. split; [done|]. by repeat constructor.
  - destruct Ht as [Ht | Ht]; [left; apply Exists_app; by left | right].
    eapply contiguous_app; [exact Ht|]. by cbn.
Qed.

Lemma loopInvariant_parseFixed (hex : list ascii) (fieldNum : nat)
    (spec : FieldSpec) (st : LoopState) :
  loopInvariant hex st →
  loopInvariant hex (flowState (parseFixed hex fieldNum spec st)).
Proof.
  intros Hinv. pose proof Hinv as (Hpos & _). unfold parseFixed.
  destruct (length hex <? st_pos st + fixedHexLen spec) eqn:Hshort;
    cbn [flowState].
  - apply loopInvariant_emitField; cbn; try done.
    + by exists [errFixedShort fieldNum (fixedHexLen spec)
                  (length hex - st_pos st) (st_pos st)].
    + by rewrite substring_to_end.
  - apply Nat.ltb_ge in Hshort.
    apply loopInvariant_emitField; cbn; try done; try lia.
    exists []. by rewrite app_nil_r.
Qed.

Lemma loopInvariant_parseVar (w : nat) (errPrefix : nat → ParseError)
    (errInvalid : list ascii → nat → ParseError)
    (hex : list ascii) (fieldNum : nat) (spec : FieldSpec) (st : LoopState) :
  (∀ lenStr p, isInvalidLength (errInvalid lenStr p) = true) →
  loopInvariant hex st →
  loopInvariant hex
    (flowState (parseVar w errPrefix errInvalid hex fieldNum spec st)).
Proof.
  intros Hinvalid Hinv. pose proof Hinv as (Hpos & Hsegs & Ht).
  unfold parseVar.
  destruct (length hex <? st_pos st + w) eqn:Hprefix; cbn [flowState].
  { by apply loopInvariant_pushError. }
  apply Nat.ltb_ge in Hprefix.
  assert (loopInvariant hex
            (setPos (st_pos st + w)
               (pushError
                  (errInvalid (substring hex (st_pos st) (st_pos st + w))
                     (st_pos st + w - w)) st))) as Hskip.
  { repeat split; [done..|]. left. cbn. apply Exists_app. right.
    constructor. apply Hinvalid. }
  destruct (parseInt10 (substring hex (st_pos st) (st_pos st + w)))
    as [dataLen|]; [|done].
  destruct (spec_maxLength spec <? dataLen); [done|].
  destruct (length hex <? st_pos st + w + varHexLen spec dataLen) eqn:Hshort;
    cbn [flowState].
  - apply loopInvariant_emitField; cbn; try done.
    + by exists [errVarShort fieldNum (varHexLen spec dataLen)
                  (length hex - (st_pos st + w)) (st_pos st + w)].
    + rewrite substring_to_end. apply substring_app_from. lia.
  - apply Nat.ltb_ge in Hshort.
    apply loopInvariant_emitField; cbn; try done; try lia.
    + exists []. by rewrite app_nil_r.
    + apply substring_app; lia.
Qed.

Lemma loopInvariant_fieldStep (M : fieldSpecs) (hex : list ascii)
    (fieldNum : nat) (st : LoopState) :
  loopInvariant hex st →
  loopInvariant hex (flowState (fieldStep M hex fieldNum st)).
Proof.
  intros Hinv. unfold fieldStep.
  destruct (FIELD_SPECS M !! fieldNum) as [spec|];
    [|by apply loopInvariant_pushError].
  destruct (length hex <=? st_pos st); [by apply loopInvariant_pushError|].
  destruct (streq (spec_format spec) (lit "FIXED"));
    [by apply loopInvariant_parseFixed|].
  destruct (streq (spec_format spec) (lit "LLVAR")).
  { apply loopInvariant_parseVar; [|done].
    intros. apply errLLVARInvalid_isInvalidLength. }
  destruct (streq (spec_format spec) (lit "LLLVAR")).
  { apply loopInvariant_parseVar; [|done].
    intros. apply errLLLVARInvalid_isInvalidLength. }
  cbn [flowState]. apply loopInvariant_emitField; try done.
  - exists []. by rewrite app_nil_r.
  - apply Hinv.
  - by rewrite substring_empty.
Qed.

Lemma loopInvariant_fieldLoop (M : fieldSpecs) (hex : list ascii)
    (allActiveFields : list nat) (st : LoopState) :
  loopInvariant hex st →
  loopInvariant hex (fieldLoop M hex allActiveFields st).
Proof.
  revert st. induction allActiveFields as [|fieldNum rest IH]; intros st Hinv;
    [done|].
  cbn [fieldLoop].
  pose proof (loopInvariant_fieldStep M hex fieldNum st Hinv) as Hstep.
  destruct (fieldStep M hex fieldNum st); cbn [flowState] in Hstep;
    [by apply IH | done].
Qed.

(** After the trailing-data check the segments reach the end of the
    stream. *)
Lemma loopInvariant_trailingCheck (hex : list ascii) (st : LoopState) :
  loopInvariant hex st →
  Forall (segmentConsistent hex) (st_hexSegments (trailingCheck hex st))
  ∧ (Exists (fun e => isInvalidLength e = true)
       (st_errors (trailingCheck hex st))
     ∨ contiguous 0 (st_hexSegments (trailingCheck hex st)) (length hex)).
Proof.
  intros (Hpos & Hsegs & Ht). unfold trailingCheck.
  destruct (st_pos st <? length hex) eqn:Hrem;
    cbn [st_hexSegments st_errors].
  - apply Nat.ltb_lt in Hrem. split.
    + apply Forall_app. split; [done|]. constructor; [|constructor].
      split; [cbn; lia|]. split; [cbn; lia|].
      cbn [seg_hex seg_startPos seg_endPos]. symmetry.
      apply substring_to_end.
    + destruct Ht as [Ht | Ht]; [left; apply Exists_app; by left | right].
      eapply contiguous_app; [exact Ht|]. by cbn.
  - apply Nat.ltb_ge in Hrem. split; [done|].
    destruct Ht as [Ht | Ht]; [by left | right].
    by replace (length hex) with (st_pos st) by lia.
Qed.

Lemma loopInvariant_initial (hex : list ascii) (pos : nat)
    (segs : list HexSegment) (errs : list ParseError) :
  Forall (segmentConsistent hex) segs → contiguous 0 segs pos →
  pos ≤ length hex →
  loopInvariant hex
    {| st_pos := pos; st_fields := []; st_errors := errs;
       st_hexSegments := segs |}.
Proof. intros Hs Hc Hp. split; [done|]. split; [done|]. by right. Qed.

(** The state in which [parseBody] enters the field loop, with the bitmaps
    and the active fields it decoded. *)
Lemma parseBody_unfold (M : fieldSpecs) (hex : list ascii) (mtiInfo : MTIInfo)
    (mtiSegment : HexSegment) :
  ∃ primary secondary allActiveFields st0,
    parseBody M hex mtiInfo mtiSegment 4 =
      finishParse hex mtiInfo primary secondary
        (fieldLoop M hex allActiveFields st0)
    ∧ st_fields st0 = []
    ∧ (20 ≤ length hex → segmentConsistent hex mtiSegment →
       seg_startPos mtiSegment = 0 → seg_endPos mtiSegment = 4 →
       loopInvariant hex st0).
Proof.
  unfold parseBody.
  set (primary := primaryBitmapInfo hex 4).
  set (primarySeg := bitmapSegment (lit "Primary Bitmap") (bm_rawHex primary) 4).
  assert (20 ≤ length hex → segmentConsistent hex primarySeg) as Hprimary.
  { intros Hlen. split; [cbn; lia|]. split; [cbn; lia|]. done. }
  destruct (bm_hasSecondary primary).
  - destruct (length hex <? 4 + 16 + 16) eqn:Hsec.
    + eexists _, _, _, _. split; [reflexivity|]. split; [done|].
      intros Hlen Hmti H0 H4. apply loopInvariant_initial; [| |lia].
      * apply Forall_cons; split; [done|].
        apply Forall_cons; split; [by apply Hprimary|]. constructor.
      * cbn. by rewrite H0, H4.
    + apply Nat.ltb_ge in Hsec.
      eexists _, _, _, _. split; [reflexivity|]. split; [done|].
      intros Hlen Hmti H0 H4. apply loopInvariant_initial; [| |lia].
      * apply Forall_cons; split; [done|].
        apply Forall_cons; split; [by apply Hprimary|].
        apply Forall_cons; split; [|constructor].
        split; [cbn; lia|]. split; [cbn; lia|]. done.
      * cbn. by rewrite H0, H4.
  - eexists _, _, _, _. split; [reflexivity|]. split; [done|].
    intros Hlen Hmti H0 H4. apply loopInvariant_initial; [| |lia].
    + apply Forall_cons; split; [done|].
      apply Forall_cons; split; [by apply Hprimary|]. constructor.
    + cbn. by rewrite H0, H4.
Qed.

(** C10. For an input that passes the two fatal checks, every segment of
    the result lies inside the normalized stream
    ([0 ≤ startPos ≤ endPos ≤ length]) and its [hex] is the substring of the
    stream between [startPos] and [endPos]; this covers the segment of a
    truncated field and the trailing segment. *)
Theorem every_segment_consistent (M : fieldSpecs) (inputHex : list ascii) :
  let hex := normalize inputHex in
  testHex hex = true → 4 ≤ length hex →
  Forall
    (fun seg =>
       0 ≤ seg_startPos seg ∧ seg_startPos seg ≤ seg_endPos seg
       ∧ seg_endPos seg ≤ length hex
       ∧ seg_hex seg = substring hex (seg_startPos seg) (seg_endPos seg))
    (hexSegments (parseISO8583 M inputHex)).
Proof.
  intros hex Hvalid Hlen.
  apply (Forall_impl (segmentConsistent hex));
    [|intros seg (? & ? & ?); repeat split; (done || lia)].
  rewrite parseISO8583_valid by done. fold hex. cbv zeta.
  set (mtiSegment := Build_HexSegment _ _ _ _ _ _).
  assert (segmentConsistent hex mtiSegment) as Hmti by (repeat split; cbn; lia).
  destruct (length hex <? 20) eqn:H20; [by repeat constructor|].
  apply Nat.ltb_ge in H20.
  destruct (parseBody_unfold M hex (decodeMTI M (substring hex 0 4)) mtiSegment)
    as (primary & secondary & active & st0 & -> & _ & Hinv).
  unfold finishParse. cbn [hexSegments].
  apply loopInvariant_trailingCheck, loopInvariant_fieldLoop. by apply Hinv.
Qed.

(** Without a rejected length prefix (no invalid-length error in the
    result) the segments follow one another without gap or overlap from
    position 0 to the end of the stream, and concatenating their [hex] in
    order gives back the whole normalized input. *)
Lemma segments_tile_unbroken (M : fieldSpecs) (inputHex : list ascii) :
  let hex := normalize inputHex in
  let r := parseISO8583 M inputHex in
  testHex hex = true → 20 ≤ length hex →
  forallb (fun e => negb (isInvalidLength e)) (errors r) = true →
  contiguous 0 (hexSegments r) (length hex)
  ∧ concat (map seg_hex (hexSegments r)) = hex.
Proof.
  intros hex r Hvalid Hlen Hnone. subst r.
  assert (4 ≤ length hex) as Hlen4 by lia. revert Hnone.
  rewrite parseISO8583_valid by done. fold hex. cbv zeta.
  set (mtiSegment := Build_HexSegment _ _ _ _ _ _).
  assert (segmentConsistent hex mtiSegment) as Hmti by (repeat split; cbn; lia).
  rewrite (proj2 (Nat.ltb_ge _ _)) by done.
  destruct (parseBody_unfold M hex (decodeMTI M (substring hex 0 4)) mtiSegment)
    as (primary & secondary & active & st0 & -> & _ & Hinv).
  unfold finishParse. cbn [hexSegments errors]. intros Hnone.
  destruct (loopInvariant_trailingCheck hex (fieldLoop M hex active st0))
    as [Hsegs [Hbad | Htiled]].
  { apply loopInvariant_fieldLoop. by apply Hinv. }
  { exfalso. apply Exists_exists in Hbad as (e & He & Hbad).
    rewrite forallb_forall in Hnone. apply list_elem_of_In in He.
    specialize (Hnone e He). by rewrite Hbad in Hnone. }
  split; [done|].
  destruct (contiguous_concat hex _ _ _ Hsegs Htiled) as [_ ->].
  rewrite substring_prefix. by apply take_ge.
Qed.

(** ** Which errors count against [success] *)

Lemma includes_absent (c : ascii) (needle s : list ascii) :
  forallb (fun x => negb (bool_decide (c = x))) s = true →
  includes (c :: needle) s = false.
Proof.
  induction s as [|x s IH]; [done|]. cbn [forallb includes startsWith].
  intros [Hx Hs]%andb_true_iff. rewrite (IH Hs).
  apply negb_true_iff in Hx. by rewrite Hx.
Qed.

Lemma forallb_impl_in {A} (f g : A → bool) (l : list A) :
  (∀ x, f x = true → g x = true) → forallb f l = true → forallb g l = true.
Proof. rewrite !forallb_forall. auto. Qed.

Lemma string_of_uint_digits (u : Decimal.uint) :
  forallb isDigit (lit (NilEmpty.string_of_uint u)) = true.
Proof. induction u; cbn; done. Qed.

Lemma showNat_digits (n : nat) : forallb isDigit (showNat n) = true.
Proof.
  unfold showNat, NilZero.string_of_uint.
  destruct (Nat.to_uint n) eqn:E; try done;
    rewrite <- E; apply string_of_uint_digits.
Qed.

Lemma isDigit_isHexChar (c : ascii) : isDigit c = true → isHexChar c = true.
Proof. unfold isHexChar. by intros ->. Qed.

(** No hex digit is the letter N or the letter u, the first letters of the
    two markers the [success] filter looks for. *)
Lemma isHexChar_not_marker (c : ascii) :
  isHexChar c = true →
  negb (bool_decide ("N"%char = c)) = true
  ∧ negb (bool_decide ("u"%char = c)) = true.
Proof.
  intros H. split; apply negb_true_iff, bool_decide_eq_false_2;
    intros <-; by vm_compute in H.
Qed.

Lemma no_marker_hex (s : list ascii) :
  forallb isHexChar s = true →
  forallb (fun x => negb (bool_decide ("N"%char = x))) s = true
  ∧ forallb (fun x => negb (bool_decide ("u"%char = x))) s = true.
Proof.
  intros H. split; revert H; apply forallb_impl_in; intros x Hx;
    by apply isHexChar_not_marker.
Qed.

Lemma no_marker_showNat (n : nat) :
  forallb (fun x => negb (bool_decide ("N"%char = x))) (showNat n) = true
  ∧ forallb (fun x => negb (bool_decide ("u"%char = x))) (showNat n) = true.
Proof.
  apply no_marker_hex. generalize (showNat_digits n).
  apply forallb_impl_in, isDigit_isHexChar.
Qed.

Lemma errLLVARInvalid_counts (fieldNum : nat) (lenStr : list ascii)
    (maxLength pos : nat) :
  forallb isHexChar lenStr = true →
  countsAgainstSuccess (errLLVARInvalid fieldNum lenStr maxLength pos) = true.
Proof.
  intros Hl. destruct (no_marker_hex _ Hl) as [HN Hu].
  destruct (no_marker_showNat fieldNum) as [HfN Hfu].
  destruct (no_marker_showNat maxLength) as [HmN Hmu].
  unfold countsAgainstSuccess, errLLVARInvalid. cbn [message].
  change (lit "No spec") with ("N"%char :: lit "o spec").
  change (lit "unparsed") with ("u"%char :: lit "nparsed").
  rewrite !includes_absent; [done|..]; rewrite !forallb_app;
    rewrite ?HN, ?Hu, ?HfN, ?Hfu, ?HmN, ?Hmu; reflexivity.
Qed.

Lemma errLLLVARInvalid_counts (fieldNum : nat) (lenStr : list ascii)
    (pos : nat) :
  forallb isHexChar lenStr = true →
  countsAgainstSuccess (errLLLVARInvalid fieldNum lenStr pos) = true.
Proof.
  intros Hl. destruct (no_marker_hex _ Hl) as [HN Hu].
  destruct (no_marker_showNat fieldNum) as [HfN Hfu].
  unfold countsAgainstSuccess, errLLLVARInvalid. cbn [message].
  change (lit "No spec") with ("N"%char :: lit "o spec").
  change (lit "unparsed") with ("u"%char :: lit "nparsed").
  rewrite !includes_absent; [done|..]; rewrite !forallb_app;
    rewrite ?HN, ?Hu, ?HfN, ?Hfu; reflexivity.
Qed.

Lemma successOf_false (es : list ParseError) (e : ParseError) :
  e ∈ es → countsAgainstSuccess e = true → successOf es = false.
Proof.
  intros He Hc. unfold successOf. apply Nat.eqb_neq.
  assert (In e (List.filter countsAgainstSuccess es)) as Hin.
  { apply filter_In. split; [by apply list_elem_of_In|done]. }
  destruct (List.filter countsAgainstSuccess es); [done | cbn; lia].
Qed.

Lemma includes_skip (c : ascii) (needle a b : list ascii) :
  forallb (fun x => negb (bool_decide (c = x))) a = true →
  includes (c :: needle) (a ++ b) = includes (c :: needle) b.
Proof.
  induction a as [|x a IH]; [done|]. cbn [forallb app].
  intros [Hx Ha]%andb_true_iff. apply negb_true_iff in Hx.
  change (includes (c :: needle) (x :: a ++ b))
    with (startsWith (c :: needle) (x :: a ++ b)
          || includes (c :: needle) (a ++ b)).
  cbn [startsWith]. rewrite Hx. by apply IH.
Qed.

Lemma includes_mismatch (c d y : ascii) (needle s : list ascii) :
  d ≠ y →
  includes (c :: d :: needle) (c :: y :: s) = includes (c :: d :: needle) (y :: s).
Proof.
  intros Hd.
  change (includes (c :: d :: needle) (c :: y :: s))
    with (startsWith (c :: d :: needle) (c :: y :: s)
          || includes (c :: d :: needle) (y :: s)).
  cbn [startsWith]. rewrite (bool_decide_eq_false_2 (d = y)) by done.
  by rewrite andb_false_r.
Qed.

(** The two errors of a truncated field count against [success]: neither
    message holds one of the two markers, whatever the numbers in it. *)
Lemma errFixedShort_counts (fieldNum hexLen remain pos : nat) :
  countsAgainstSuccess (errFixedShort fieldNum hexLen remain pos) = true.
Proof.
  destruct (no_marker_showNat fieldNum) as [HfN Hfu].
  destruct (no_marker_showNat hexLen) as [HhN Hhu].
  destruct (no_marker_showNat remain) as [HrN Hru].
  unfold countsAgainstSuccess, errFixedShort. cbn [message].
  change (lit "No spec") with ("N"%char :: lit "o spec").
  change (lit "unparsed") with ("u"%char :: "n"%char :: lit "parsed").
  rewrite includes_absent
    by (rewrite !forallb_app, HfN, HhN, HrN; reflexivity).
  rewrite (includes_skip "u" _ (lit "DE ")) by reflexivity.
  rewrite (includes_skip "u" _ (showNat fieldNum)) by done.
  rewrite (includes_skip "u" _ (lit ": Expected ")) by reflexivity.
  rewrite (includes_skip "u" _ (showNat hexLen)) by done.
  change (lit " hex chars but only " ++ showNat remain ++ lit " remain.")
    with (lit " hex chars b"
          ++ "u"%char :: "t"%char
             :: (lit " only " ++ showNat remain ++ lit " remain.")).
  rewrite (includes_skip "u" _ (lit " hex chars b")) by reflexivity.
  rewrite includes_mismatch by done.
  change ("t"%char :: (lit " only " ++ showNat remain ++ lit " remain."))
    with (lit "t only " ++ showNat remain ++ lit " remain.").
  rewrite includes_absent by (rewrite !forallb_app, Hru; reflexivity).
  reflexivity.
Qed.

Lemma errVarShort_counts (fieldNum hexLen remain pos : nat) :
  countsAgainstSuccess (errVarShort fieldNum hexLen remain pos) = true.
Proof.
  destruct (no_marker_showNat fieldNum) as [HfN Hfu].
  destruct (no_marker_showNat hexLen) as [HhN Hhu].
  destruct (no_marker_showNat remain) as [HrN Hru].
  unfold countsAgainstSuccess, errVarShort. cbn [message].
  change (lit "No spec") with ("N"%char :: lit "o spec").
  change (lit "unparsed") with ("u"%char :: "n"%char :: lit "parsed").
  rewrite includes_absent
    by (rewrite !forallb_app, HfN, HhN, HrN; reflexivity).
  rewrite (includes_skip "u" _ (lit "DE ")) by reflexivity.
  rewrite (includes_skip "u" _ (showNat fieldNum)) by done.
  rewrite (includes_skip "u" _ (lit ": Expected ")) by reflexivity.
  rewrite (includes_skip "u" _ (showNat hexLen)) by done.
  change (lit " hex chars for data but only " ++ showNat remain
          ++ lit " remain.")
    with (lit " hex chars for data b"
          ++ "u"%char :: "t"%char
             :: (lit " only " ++ showNat remain ++ lit " remain.")).
  rewrite (includes_skip "u" _ (lit " hex chars for data b")) by reflexivity.
  rewrite includes_mismatch by done.
  change ("t"%char :: (lit " only " ++ showNat remain ++ lit " remain."))
    with (lit "t only " ++ showNat remain ++ lit " remain.").
  rewrite includes_absent by (rewrite !forallb_app, Hru; reflexivity).
  reflexivity.
Qed.

(** ** Errors only accumulate *)

Lemma fieldStep_errors (M : fieldSpecs) (hex : list ascii) (fieldNum : nat)
    (st : LoopState) :
  ∃ es, st_errors (flowState (fieldStep M hex fieldNum st)) = st_errors st ++ es.
Proof.
  assert (∃ es, st_errors st = st_errors st ++ es) as Hnil
    by (exists []; by rewrite app_nil_r).
  unfold fieldStep, parseFixed, parseVar.
  repeat (case_match; cbn; try done); simplify_eq; cbn; eauto.
Qed.

Lemma fieldLoop_errors (M : fieldSpecs) (hex : list ascii)
    (allActiveFields : list nat) (st : LoopState) :
  ∃ es, st_errors (fieldLoop M hex allActiveFields st) = st_errors st ++ es.
Proof.
  revert st. induction allActiveFields as [|fieldNum rest IH]; intros st.
  - exists []. by rewrite app_nil_r.
  - cbn [fieldLoop]. destruct (fieldStep_errors M hex fieldNum st) as [es1 H1].
    destruct (fieldStep M hex fieldNum st) as [st'|st']; cbn in H1.
    + destruct (IH st') as [es2 H2]. exists (es1 ++ es2).
      by rewrite H2, H1, app_assoc.
    + by exists es1.
Qed.

Lemma trailingCheck_errors (hex : list ascii) (st : LoopState) :
  ∃ es, st_errors (trailingCheck hex st) = st_errors st ++ es.
Proof.
  unfold trailingCheck. case_match; cbn; eauto.
  exists []. by rewrite app_nil_r.
Qed.

(** ** Rejected length prefixes *)

Lemma parseVar_rejected (w : nat) (errPrefix : nat → ParseError)
    (errInvalid : list ascii → nat → ParseError)
    (hex : list ascii) (fieldNum : nat) (spec : FieldSpec) (st : LoopState) :
  st_pos st + w ≤ length hex →
  rejectedLength (spec_maxLength spec)
    (substring hex (st_pos st) (st_pos st + w)) = true →
  parseVar w errPrefix errInvalid hex fieldNum spec st =
    Continue
      {| st_pos := st_pos st + w; st_fields := st_fields st;
         st_errors :=
           st_errors st
           ++ [errInvalid (substring hex (st_pos st) (st_pos st + w))
                 (st_pos st)];
         st_hexSegments := st_hexSegments st |}.
Proof.
  intros Hfit Hrej. unfold parseVar, rejectedLength in *.
  rewrite (proj2 (Nat.ltb_ge _ _)) by done.
  replace (st_pos st + w - w) with (st_pos st) by lia.
  destruct (parseInt10 _) as [dataLen|]; [|done]. by rewrite Hrej.
Qed.

(** C2, as the code has it.  For an active LLVAR (LLLVAR) field whose 2
    (4) character length prefix can be read in full and is rejected (base-10
    [parseInt] gives NaN or a value above [maxLength]), the loop logs one
    error for that field, emits no field and no segment, moves the cursor
    past the prefix only and goes on with the next active field.  The error
    is not of the two kinds the success computation leaves out, so the
    result of the final check has [success] false. *)
Theorem rejected_length_prefix (M : fieldSpecs) (hex : list ascii)
    (fieldNum : nat) (spec : FieldSpec) (rest : list nat) (st : LoopState)
    (w : nat) :
  forallb isHexChar hex = true →
  FIELD_SPECS M !! fieldNum = Some spec →
  spec_format spec = lit "LLVAR" ∧ w = 2
  ∨ spec_format spec = lit "LLLVAR" ∧ w = 4 →
  st_pos st + w ≤ length hex →
  rejectedLength (spec_maxLength spec)
    (substring hex (st_pos st) (st_pos st + w)) = true →
  ∃ e,
    let st' :=
      {| st_pos := st_pos st + w; st_fields := st_fields st;
         st_errors := st_errors st ++ [e];
         st_hexSegments := st_hexSegments st |} in
    field e = Some fieldNum ∧ position e = Some (st_pos st)
    ∧ isInvalidLength e = true
    ∧ fieldStep M hex fieldNum st = Continue st'
    ∧ fieldLoop M hex (fieldNum :: rest) st = fieldLoop M hex rest st'
    ∧ countsAgainstSuccess e = true
    ∧ (∀ mtiInfo primary secondary,
         success
           (finishParse hex mtiInfo primary secondary
              (fieldLoop M hex (fieldNum :: rest) st)) = false).
Proof.
  intros Hvalid Hspec Hfmt Hfit Hrej.
  set (lenStr := substring hex (st_pos st) (st_pos st + w)) in *.
  assert (forallb isHexChar lenStr = true) as Hlen
    by by apply forallb_substring.
  assert (∃ e,
    field e = Some fieldNum ∧ position e = Some (st_pos st)
    ∧ isInvalidLength e = true ∧ countsAgainstSuccess e = true
    ∧ fieldStep M hex fieldNum st =
        Continue
          {| st_pos := st_pos st + w; st_fields := st_fields st;
             st_errors := st_errors st ++ [e];
             st_hexSegments := st_hexSegments st |}) as (e & Hf & Hp & Hi & Hc & Hstep).
  { destruct Hfmt as [[Hfmt ->] | [Hfmt ->]].
    - exists (errLLVARInvalid fieldNum lenStr (spec_maxLength spec) (st_pos st)).
      split; [done|]. split; [done|].
      split; [apply errLLVARInvalid_isInvalidLength|].
      split; [by apply errLLVARInvalid_counts|].
      rewrite (fieldStep_llvar M hex fieldNum spec st) by (done || lia).
      by apply parseVar_rejected.
    - exists (errLLLVARInvalid fieldNum lenStr (st_pos st)).
      split; [done|]. split; [done|].
      split; [apply errLLLVARInvalid_isInvalidLength|].
      split; [by apply errLLLVARInvalid_counts|].
      rewrite (fieldStep_lllvar M hex fieldNum spec st) by (done || lia).
      by apply parseVar_rejected. }
  exists e. cbv zeta. do 4 (split; [done|]).
  assert (fieldLoop M hex (fieldNum :: rest) st =
          fieldLoop M hex rest
            {| st_pos := st_pos st + w; st_fields := st_fields st;
               st_errors := st_errors st ++ [e];
               st_hexSegments := st_hexSegments st |}) as Hloop
    by (cbn [fieldLoop]; by rewrite Hstep).
  split; [done|]. split; [done|].
  intros mtiInfo primary secondary. unfold finishParse. cbn [success].
  apply (successOf_false _ e); [|done].
  destruct (trailingCheck_errors hex (fieldLoop M hex (fieldNum :: rest) st))
    as [es2 ->].
  rewrite Hloop.
  destruct (fieldLoop_errors M hex rest
              {| st_pos := st_pos st + w; st_fields := st_fields st;
                 st_errors := st_errors st ++ [e];
                 st_hexSegments := st_hexSegments st |}) as [es1 ->].
  cbn [st_errors]. rewrite !elem_of_app, list_elem_of_singleton. tauto.
Qed.

(** ** Truncated fields *)

Lemma appendErrors_nil (st : LoopState) : appendErrors [] st = st.
Proof. destruct st. unfold appendErrors. cbn. by rewrite app_nil_r. Qed.

(** With the cursor at the end of the stream the loop parses nothing more:
    it only logs the errors of [drainErrors]. *)
Lemma fieldLoop_exhausted (M : fieldSpecs) (hex : list ascii)
    (rest : list nat) (st : LoopState) :
  length hex ≤ st_pos st →
  fieldLoop M hex rest st = appendErrors (drainErrors M (st_pos st) rest) st.
Proof.
  revert st. induction rest as [|fieldNum rest IH]; intros st Hend.
  - cbn. by rewrite appendErrors_nil.
  - cbn [fieldLoop drainErrors].
    destruct (FIELD_SPECS M !! fieldNum) as [spec|] eqn:Hspec.
    + by rewrite (fieldStep_ran_out M hex fieldNum spec st).
    + rewrite fieldStep_no_spec by done. rewrite IH by done.
      unfold appendErrors, pushError. cbn. by rewrite <- app_assoc.
Qed.

Lemma parseFixed_truncated (hex : list ascii) (fieldNum : nat)
    (spec : FieldSpec) (st : LoopState) :
  length hex < st_pos st + fixedHexLen spec →
  parseFixed hex fieldNum spec st =
    Continue
      (emitField fieldNum spec (substringFrom hex (st_pos st))
         (fixedValue spec (substringFrom hex (st_pos st)))
         (fixedHexLen spec / 2) (st_pos st)
         (setPos (length hex)
            (pushError
               (errFixedShort fieldNum (fixedHexLen spec)
                  (length hex - st_pos st) (st_pos st)) st))).
Proof.
  intros Hshort. unfold parseFixed.
  by rewrite (proj2 (Nat.ltb_lt _ _)) by done.
Qed.

Lemma parseVar_truncated (w : nat) (errPrefix : nat → ParseError)
    (errInvalid : list ascii → nat → ParseError)
    (hex : list ascii) (fieldNum : nat) (spec : FieldSpec) (st : LoopState)
    (dataLen : nat) :
  st_pos st + w ≤ length hex →
  parseInt10 (substring hex (st_pos st) (st_pos st + w)) = Some dataLen →
  dataLen ≤ spec_maxLength spec →
  length hex < st_pos st + w + varHexLen spec dataLen →
  parseVar w errPrefix errInvalid hex fieldNum spec st =
    Continue
      (emitField fieldNum spec (substringFrom hex (st_pos st))
         (varValue spec
            (substring hex (length hex - varHexLen spec dataLen) (length hex)))
         dataLen (st_pos st)
         (setPos (length hex)
            (pushError
               (errVarShort fieldNum (varHexLen spec dataLen)
                  (length hex - (st_pos st + w)) (st_pos st + w)) st))).
Proof.
  intros Hfit Hparse Hmax Hshort. unfold parseVar.
  rewrite (proj2 (Nat.ltb_ge _ _)) by done. rewrite Hparse.
  rewrite (proj2 (Nat.ltb_ge _ _)) by done.
  rewrite (proj2 (Nat.ltb_lt _ _)) by done.
  by rewrite substring_app_from by lia.
Qed.


(** ** [decodeBitmap] *)

Lemma bool_decide_bitChar (b : bool) :
  bool_decide (bitChar b = "1"%char) = b.
Proof. by destruct b. Qed.

Lemma isHexChar_hexVal (c : ascii) :
  isHexChar c = true → ∃ v, hexVal c = Some v.
Proof.
  unfold isHexChar, hexVal. intros H.
  destruct (isDigit c); [eauto|]. destruct (inRange 65 70 c); [eauto|].
  destruct (inRange 97 102 c); [eauto|done].
Qed.

Lemma bitSet_head (c : ascii) (h : list ascii) (v i : nat) :
  hexVal c = Some v → 1 ≤ i ≤ 4 →
  bitSet (c :: h) i = Nat.testbit v (4 - i).
Proof.
  intros Hv Hi. unfold bitSet.
  assert (i = 1 ∨ i = 2 ∨ i = 3 ∨ i = 4) as [-> | [-> | [-> | ->]]] by lia;
    cbn; by rewrite Hv.
Qed.

Lemma bitSet_tail (c : ascii) (h : list ascii) (i : nat) :
  1 ≤ i → bitSet (c :: h) (i + 4) = bitSet h i.
Proof.
  intros Hi. unfold bitSet.
  replace (i + 4 - 1) with ((i - 1) + 1 * 4) by lia.
  rewrite Nat.div_add, Nat.Div0.mod_add by lia.
  by replace ((i - 1) / 4 + 1) with (S ((i - 1) / 4)) by lia.
Qed.

Lemma filter_map_comm {A B} (f : B → bool) (g : A → B) (l : list A) :
  List.filter f (map g l) = map g (List.filter (fun x => f (g x)) l).
Proof.
  induction l as [|x l IH]; [done|]. cbn. rewrite IH. by destruct (f (g x)).
Qed.

(** The positions [decodeBitmap] reports are the set bits of the vector. *)
Lemma activeFrom_hexToBinary (h : list ascii) (k : nat) :
  forallb isHexChar h = true →
  activeFrom k (hexToBinary h) =
    map (fun i => k + i) (List.filter (bitSet h) (seq 1 (4 * length h))).
Proof.
  revert k. induction h as [|c h IH]; intros k Hh; [done|].
  cbn [forallb] in Hh. apply andb_true_iff in Hh as [Hc Hh].
  destruct (isHexChar_hexVal c Hc) as [v Hv].
  replace (4 * length (c :: h)) with (4 + 4 * length h) by (cbn; lia).
  rewrite seq_app, List.filter_app, map_app.
  change (1 + 4) with 5.
  replace (seq 5 (4 * length h)) with (map (fun i => i + 4) (seq 1 (4 * length h))).
  2:{ rewrite <- (fmap_add_seq 4 1). apply map_ext. intros; lia. }
  rewrite filter_map_comm, map_map.
  rewrite (filter_ext_in (fun x => bitSet (c :: h) (x + 4)) (bitSet h)).
  2:{ intros i Hi%in_seq. apply bitSet_tail. lia. }
  unfold hexToBinary. cbn [map concat]. fold (hexToBinary h).
  unfold nibbleBits. rewrite Hv. cbn [map app activeFrom seq List.filter].
  rewrite !bool_decide_bitChar.
  rewrite !(bitSet_head c h v) by (done || lia).
  change (4 - 1) with 3. change (4 - 2) with 2. change (4 - 3) with 1.
  change (4 - 4) with 0.
  rewrite (IH (S (S (S (S k)))) Hh).
  rewrite (map_ext (fun x => k + (x + 4)) (fun i => S (S (S (S k))) + i))
    by (intros; lia).
  destruct (Nat.testbit v 3), (Nat.testbit v 2), (Nat.testbit v 1),
    (Nat.testbit v 0); cbn [map app];
    repeat (f_equal; try lia).
Qed.

Lemma decodeBitmap_active (h : list ascii) :
  forallb isHexChar h = true → length h = 16 →
  (decodeBitmap h).1 = List.filter (bitSet h) (seq 1 64).
Proof.
  intros Hh Hl. unfold decodeBitmap. cbn [fst].
  rewrite activeFrom_hexToBinary by done. rewrite Hl.
  rewrite (map_ext _ id) by done. by rewrite map_id.
Qed.

Lemma decodeBitmap_first_bit (h : list ascii) :
  forallb isHexChar h = true → h ≠ [] →
  bool_decide ((decodeBitmap h).2 !! 0 = Some "1"%char) = bitSet h 1.
Proof.
  intros Hh Hne. destruct h as [|c h]; [done|].
  cbn [forallb] in Hh. apply andb_true_iff in Hh as [Hc Hh].
  destruct (isHexChar_hexVal c Hc) as [v Hv].
  rewrite (bitSet_head c h v) by (done || lia).
  unfold decodeBitmap, hexToBinary, nibbleBits. cbn [snd map concat].
  rewrite Hv. change (4 - 1) with 3. cbn [map app].
  generalize (Nat.testbit v 3). by intros [].
Qed.

Lemma filter_all_true {A} (p : A → bool) (l : list A) :
  (∀ x, In x l → p x = true) → List.filter p l = l.
Proof.
  induction l as [|x l IH]; intros H; [done|]. cbn [List.filter].
  rewrite (H x) by (by left). f_equal. apply IH. intros y Hy. apply H.
  by right.
Qed.

Lemma primary_active_filter (h : list ascii) :
  List.filter (fun f => (2 <=? f) && (f <=? 64))
    (List.filter (bitSet h) (seq 1 64))
  = List.filter (bitSet h) (seq 2 63).
Proof.
  replace (seq 1 64) with ([1] ++ seq 2 63) by reflexivity.
  rewrite !List.filter_app.
  replace (List.filter (fun f => (2 <=? f) && (f <=? 64))
             (List.filter (bitSet h) [1])) with (@nil nat)
    by (cbn [List.filter]; by destruct (bitSet h 1)).
  rewrite app_nil_l. apply filter_all_true.
  intros f [Hf%in_seq _]%filter_In.
  apply andb_true_intro; split; apply Nat.leb_le; lia.
Qed.

Lemma parseBody_bitmaps (M : fieldSpecs) (hex : list ascii) (mtiInfo : MTIInfo)
    (mtiSegment : HexSegment) (pos : nat) :
  let r := parseBody M hex mtiInfo mtiSegment pos in
  primaryBitmap r = Some (primaryBitmapInfo hex pos)
  ∧ secondaryBitmap r =
      if bm_hasSecondary (primaryBitmapInfo hex pos)
         && negb (length hex <? pos + 16 + 16)
      then Some (secondaryBitmapInfo hex (pos + 16))
      else None.
Proof.
  unfold parseBody. cbv zeta.
  destruct (bm_hasSecondary (primaryBitmapInfo hex pos)); [|done].
  by destruct (length hex <? pos + 16 + 16).
Qed.

(** C6. Once the primary bitmap is parsed, [hasSecondary] is bit 1 of its
    64-bit vector and its active fields are exactly the set positions among
    2..64, in ascending order.  If [hasSecondary] holds and 16 more hex
    characters follow, the secondary bitmap is present and its active fields
    are the set positions of its vector, each plus 64, so they lie in
    65..128; otherwise there is no secondary bitmap. *)
Theorem bitmap_bit_one (M : fieldSpecs) (inputHex : list ascii) :
  let hex := normalize inputHex in
  let r := parseISO8583 M inputHex in
  testHex hex = true → 20 ≤ length hex →
  ∃ primary,
    primaryBitmap r = Some primary
    ∧ bm_rawHex primary = substring hex 4 20
    ∧ bm_hasSecondary primary = bitSet (bm_rawHex primary) 1
    ∧ bm_activeFields primary =
        List.filter (bitSet (bm_rawHex primary)) (seq 2 63)
    ∧ (∀ f, f ∈ bm_activeFields primary ↔
            2 ≤ f ≤ 64 ∧ bitSet (bm_rawHex primary) f = true)
    ∧ (bm_hasSecondary primary = true → 36 ≤ length hex →
       ∃ secondary,
         secondaryBitmap r = Some secondary
         ∧ bm_rawHex secondary = substring hex 20 36
         ∧ bm_activeFields secondary =
             map (fun i => i + 64)
               (List.filter (bitSet (bm_rawHex secondary)) (seq 1 64))
         ∧ Forall (fun f => 65 ≤ f ≤ 128) (bm_activeFields secondary))
    ∧ (bm_hasSecondary primary = false ∨ length hex < 36 →
       secondaryBitmap r = None).
Proof.
  intros hex r Hvalid Hlen. subst r.
  assert (4 ≤ length hex) as Hlen4 by lia.
  rewrite parseISO8583_valid by done. fold hex. cbv zeta.
  rewrite (proj2 (Nat.ltb_ge _ _)) by done.
  set (mtiInfo := decodeMTI M _). set (mtiSegment := Build_HexSegment _ _ _ _ _ _).
  destruct (parseBody_bitmaps M hex mtiInfo mtiSegment 4) as [Hp Hs].
  apply testHex_forallb in Hvalid.
  exists (primaryBitmapInfo hex 4). split; [done|].
  assert (forallb isHexChar (substring hex 4 20) = true) as Hv1
    by by apply forallb_substring.
  assert (length (substring hex 4 20) = 16) as Hl1
    by (rewrite length_substring; lia).
  assert (bm_activeFields (primaryBitmapInfo hex 4)
          = List.filter (bitSet (substring hex 4 20)) (seq 2 63)) as Hact.
  { unfold primaryBitmapInfo. cbn [bm_activeFields]. change (4 + 16) with 20.
    rewrite decodeBitmap_active by done. apply primary_active_filter. }
  split; [done|]. split.
  { unfold primaryBitmapInfo. cbn [bm_hasSecondary bm_rawHex].
    change (4 + 16) with 20. apply decodeBitmap_first_bit; [done|].
    intros E. by rewrite E in Hl1. }
  split; [exact Hact|]. split.
  { intros f. rewrite Hact. rewrite list_elem_of_In, filter_In, in_seq.
    cbn [bm_rawHex primaryBitmapInfo]. change (4 + 16) with 20.
    split; intros [? ?]; split; (done || lia). }
  split.
  - intros Hsec H36. exists (secondaryBitmapInfo hex 20).
    rewrite Hs, Hsec. change (4 + 16 + 16) with 36.
    rewrite (proj2 (Nat.ltb_ge _ _)) by done. split; [done|]. split; [done|].
    assert (forallb isHexChar (substring hex 20 36) = true) as Hv2
      by by apply forallb_substring.
    assert (length (substring hex 20 36) = 16) as Hl2
      by (rewrite length_substring; lia).
    unfold secondaryBitmapInfo. cbn [bm_activeFields bm_rawHex].
    change (20 + 16) with 36. rewrite decodeBitmap_active by done.
    split; [done|]. apply Forall_forall. intros f Hf.
    apply list_elem_of_In, in_map_iff in Hf as (i & <- & [Hi%in_seq _]%filter_In).
    lia.
  - rewrite Hs. intros [-> | Hshort]; [done|].
    change (4 + 16 + 16) with 36. rewrite (proj2 (Nat.ltb_lt _ _)) by done.
    by rewrite andb_false_r.
Qed.

(** ** The bitmap builders *)

Lemma hexDigitUpper_upper (v : nat) : isUpperHex (hexDigitUpper v) = true.
Proof.
  unfold hexDigitUpper. do 16 (destruct v as [|v]; [reflexivity|]).
  cbn. by destruct v.
Qed.

Lemma isUpperHex_isHexChar (c : ascii) :
  isUpperHex c = true → isHexChar c = true.
Proof. unfold isUpperHex, isHexChar. by intros ->. Qed.

Lemma forallb_upper_hex (s : list ascii) :
  forallb isUpperHex s = true → forallb isHexChar s = true.
Proof. apply forallb_impl_in, isUpperHex_isHexChar. Qed.

Lemma byteHex_upper (byte : nat) : forallb isUpperHex (byteHex byte) = true.
Proof. unfold byteHex. cbn [forallb]. by rewrite !hexDigitUpper_upper. Qed.

Lemma forallb_concat_map {A} (f : ascii → bool) (g : A → list ascii)
    (l : list A) :
  (∀ x, forallb f (g x) = true) → forallb f (concat (map g l)) = true.
Proof.
  intros H. induction l as [|x l IH]; [done|].
  cbn [map concat]. by rewrite forallb_app, H, IH.
Qed.

Lemma bitsToHex_upper (bits : list nat) :
  forallb isUpperHex (bitsToHex bits) = true.
Proof. apply forallb_concat_map. intros. apply byteHex_upper. Qed.

Lemma length_concat_map_const {A B} (g : A → list B) (l : list A) (k : nat) :
  (∀ x, length (g x) = k) → length (concat (map g l)) = length l * k.
Proof.
  intros H. induction l as [|x l IH]; [done|].
  cbn [map concat length]. rewrite length_app, H, IH. lia.
Qed.

Lemma length_bitsToHex (bits : list nat) : length (bitsToHex bits) = 16.
Proof.
  unfold bitsToHex. by rewrite (length_concat_map_const _ _ 2).
Qed.

Lemma hexToBinary_app (a b : list ascii) :
  hexToBinary (a ++ b) = hexToBinary a ++ hexToBinary b.
Proof. unfold hexToBinary. by rewrite map_app, concat_app. Qed.

Lemma nth_b2n_chunk (pre chunk : list bool) (i b : nat) :
  length pre = i * 8 →
  nth (i * 8 + b) (map Nat.b2n (pre ++ chunk)) 0 = nth b (map Nat.b2n chunk) 0.
Proof.
  intros Hpre. rewrite map_app, app_nth2 by (rewrite length_map; lia).
  rewrite length_map. f_equal. lia.
Qed.

(** One byte of the builder read back by [hexToBinary]. *)
Lemma byteAt_chunk (pre chunk post : list bool) (i : nat) :
  length pre = i * 8 → length chunk = 8 →
  hexToBinary (byteHex (byteAt (map Nat.b2n (pre ++ chunk ++ post)) i))
  = map bitChar chunk.
Proof.
  intros Hpre Hchunk.
  destruct chunk as [|x0 [|x1 [|x2 [|x3 [|x4 [|x5 [|x6 [|x7 [|? ?]]]]]]]]];
    try discriminate.
  unfold byteAt. cbn [seq fold_left].
  rewrite !(nth_b2n_chunk pre) by done. cbn [app map nth].
  by destruct x0, x1, x2, x3, x4, x5, x6, x7.
Qed.

Lemma hexToBinary_bytes (n : nat) :
  ∀ (pre body post : list bool) (a : nat),
    length pre = a * 8 → length body = n * 8 →
    hexToBinary
      (concat
         (map (fun i => byteHex (byteAt (map Nat.b2n (pre ++ body ++ post)) i))
            (seq a n)))
    = map bitChar body.
Proof.
  induction n as [|n IH]; intros pre body post a Hpre Hbody.
  - by destruct body.
  - assert (length (take 8 body) = 8) as Ht by (rewrite length_take; lia).
    assert (length (drop 8 body) = n * 8) as Hd by (rewrite length_drop; lia).
    rewrite <- (take_drop 8 body).
    set (chunk := take 8 body) in *. set (body' := drop 8 body) in *.
    set (bits := map Nat.b2n (pre ++ (chunk ++ body') ++ post)).
    change (seq a (S n)) with (a :: seq (S a) n).
    rewrite map_cons, concat_cons, hexToBinary_app, (map_app bitChar).
    f_equal.
    + subst bits. rewrite <- app_assoc. by apply byteAt_chunk.
    + subst bits. rewrite <- app_assoc, (app_assoc pre).
      apply IH; [|done]. rewrite length_app. lia.
Qed.

Lemma hexToBinary_bitsToHex (bs : list bool) :
  length bs = 64 →
  hexToBinary (bitsToHex (map Nat.b2n bs)) = map bitChar bs.
Proof.
  intros Hbs. unfold bitsToHex.
  pose proof (hexToBinary_bytes 8 [] bs [] 0 eq_refl Hbs) as H.
  by rewrite app_nil_l, app_nil_r in H.
Qed.

(** The bits [activeFrom] reports, for a vector given by a predicate on the
    index. *)
Lemma activeFrom_bits (p : nat → bool) (n a : nat) :
  activeFrom a (map bitChar (map p (seq a n)))
  = map S (List.filter p (seq a n)).
Proof.
  revert a. induction n as [|n IH]; intros a; [done|].
  cbn [seq map activeFrom List.filter]. rewrite bool_decide_bitChar, IH.
  destruct (p a); [|done]. cbn [map]. f_equal. lia.
Qed.

Lemma length_memberBits (offset : nat) (fields : list nat) :
  length (memberBits offset fields) = 64.
Proof. unfold memberBits. by rewrite length_map, length_seq. Qed.

Lemma memberBits_lookup (offset : nat) (fields : list nat) (j : nat) :
  j < 64 →
  map Nat.b2n (memberBits offset fields) !! j
  = Some (Nat.b2n (bool_decide (j + offset ∈ fields))).
Proof.
  intros Hj. unfold memberBits. rewrite !list_lookup_fmap.
  by rewrite lookup_seq_lt.
Qed.

Lemma memberBits_store (offset : nat) (fields : list nat) (f : nat) :
  offset ≤ f →
  <[f - offset := 1]> (map Nat.b2n (memberBits offset fields))
  = map Nat.b2n (memberBits offset (fields ++ [f])).
Proof.
  intros Hf. apply list_eq. intros j.
  destruct (decide (j < 64)) as [Hj | Hj].
  - rewrite (memberBits_lookup offset (fields ++ [f])) by done.
    destruct (decide (j = f - offset)) as [-> | Hne].
    + rewrite list_lookup_insert_eq
        by (rewrite length_map, length_memberBits; lia).
      rewrite bool_decide_eq_true_2; [done|].
      apply elem_of_app. right. apply list_elem_of_singleton. lia.
    + rewrite list_lookup_insert_ne by done.
      rewrite memberBits_lookup by done. do 2 f_equal.
      apply bool_decide_ext. rewrite elem_of_app, list_elem_of_singleton.
      split; [tauto|]. intros [? | ?]; [done | lia].
  - rewrite !lookup_ge_None_2; [done|..];
      rewrite ?length_insert, length_map, length_memberBits; lia.
Qed.

Lemma memberBits_skip (offset : nat) (fields : list nat) (f : nat) :
  f < offset ∨ offset + 64 ≤ f →
  memberBits offset (fields ++ [f]) = memberBits offset fields.
Proof.
  intros Hf. unfold memberBits. apply map_ext_in. intros j Hj%in_seq.
  apply bool_decide_ext. rewrite elem_of_app, list_elem_of_singleton.
  split; [|tauto]. intros [? | ?]; [done | lia].
Qed.

Lemma memberBits_nil (offset : nat) :
  map Nat.b2n (memberBits offset []) = zeroBits.
Proof.
  unfold memberBits, zeroBits. rewrite map_map.
  change (replicate 64 0) with (map (fun _ : nat => 0) (seq 0 64)).
  apply map_ext. intros j. rewrite bool_decide_eq_false_2; [done|].
  apply not_elem_of_nil.
Qed.

Lemma buildBitmap_bits (fields : list nat) :
  fold_left
    (fun bits f =>
       if (1 <=? f) && (f <=? 64) then <[f - 1 := 1]> bits else bits)
    fields zeroBits
  = map Nat.b2n (memberBits 1 fields).
Proof.
  induction fields as [|f fields IH] using rev_ind.
  - by rewrite memberBits_nil.
  - rewrite fold_left_app. cbn [fold_left]. rewrite IH.
    destruct ((1 <=? f) && (f <=? 64)) eqn:Hr.
    + apply andb_true_iff in Hr as [H1%Nat.leb_le H2%Nat.leb_le].
      by apply memberBits_store.
    + rewrite memberBits_skip; [done|].
      apply andb_false_iff in Hr as [Hr%Nat.leb_gt | Hr%Nat.leb_gt]; lia.
Qed.

Lemma secondary_bits (fields : list nat) :
  Forall (fun f => 64 < f) fields →
  fold_left (fun bits f => <[f - 65 := 1]> bits) fields zeroBits
  = map Nat.b2n (memberBits 65 fields).
Proof.
  induction fields as [|f fields IH] using rev_ind; intros Hall.
  - by rewrite memberBits_nil.
  - apply Forall_app in Hall as [Hall Hf]. rewrite Forall_singleton in Hf.
    rewrite fold_left_app. cbn [fold_left]. rewrite IH by done.
    apply memberBits_store. lia.
Qed.

(** What [decodeBitmap] reads back from a bit array of the builders. *)
Lemma decodeBitmap_memberBits (offset : nat) (fields : list nat) :
  decodeBitmap (bitsToHex (map Nat.b2n (memberBits offset fields)))
  = (map S (List.filter (fun j => bool_decide (j + offset ∈ fields)) (seq 0 64)),
     map bitChar (memberBits offset fields)).
Proof.
  unfold decodeBitmap.
  rewrite hexToBinary_bitsToHex by apply length_memberBits.
  f_equal. unfold memberBits. apply activeFrom_bits.
Qed.

Lemma filter_seq_shift (p : nat → bool) (k a n : nat) :
  map (fun j => j + k) (List.filter (fun j => p (j + k)) (seq a n))
  = List.filter p (seq (a + k) n).
Proof.
  rewrite <- filter_map_comm. f_equal.
  revert a. induction n as [|n IH]; intros a; [done|].
  cbn [seq map]. f_equal. apply (IH (S a)).
Qed.

Lemma decodeBitmap_buildBitmap (fields : list nat) :
  (decodeBitmap (buildBitmap fields)).1
  = List.filter (fun f => bool_decide (f ∈ fields)) (seq 1 64).
Proof.
  unfold buildBitmap. rewrite buildBitmap_bits, decodeBitmap_memberBits.
  cbn [fst]. rewrite <- (filter_seq_shift _ 1 0 64).
  apply map_ext. intros; lia.
Qed.

Lemma decodeBitmap_buildBitmap_first (fields : list nat) :
  bool_decide ((decodeBitmap (buildBitmap fields)).2 !! 0 = Some "1"%char)
  = bool_decide (1 ∈ fields).
Proof.
  unfold buildBitmap. rewrite buildBitmap_bits, decodeBitmap_memberBits.
  cbn [snd]. unfold memberBits. cbn [seq map]. cbn [lookup list_lookup].
  change (0 + 1) with 1.
  destruct (bool_decide (1 ∈ fields)); reflexivity.
Qed.

Lemma decodeBitmap_secondary (fields : list nat) :
  Forall (fun f => 64 < f) fields →
  map (fun f => f + 64)
    (decodeBitmap
       (bitsToHex
          (fold_left (fun bits f => <[f - 65 := 1]> bits) fields zeroBits))).1
  = List.filter (fun f => bool_decide (f ∈ fields)) (seq 65 64).
Proof.
  intros Hall. rewrite secondary_bits by done.
  rewrite decodeBitmap_memberBits. cbn [fst]. rewrite map_map.
  rewrite <- (filter_seq_shift _ 65 0 64).
  apply map_ext. intros; lia.
Qed.

(** ** Ascending field lists *)

Lemma ascending_tail (x : nat) (l : list nat) :
  ascending (x :: l) = true → ascending l = true.
Proof. destruct l as [|y l]; [done|]. cbn. by intros [_ ?]%andb_true_iff. Qed.

Lemma ascending_lower (x : nat) (l : list nat) :
  ascending (x :: l) = true → Forall (fun y => x < y) l.
Proof.
  revert x. induction l as [|y l IH]; intros x H; [constructor|].
  cbn [ascending] in H. apply andb_true_iff in H as [Hxy%Nat.ltb_lt Hl].
  constructor; [done|].
  eapply Forall_impl; [apply (IH y Hl)|]. cbn. intros; lia.
Qed.

Lemma filter_none {A} (p : A → bool) (l : list A) :
  (∀ x, In x l → p x = false) → List.filter p l = [].
Proof.
  induction l as [|x l IH]; intros H; [done|]. cbn [List.filter].
  rewrite (H x) by (by left). apply IH. intros y Hy. apply H. by right.
Qed.

(** Filtering a range by membership in an ascending list that lies inside
    the range gives the list back. *)
Lemma filter_member_ascending (n : nat) :
  ∀ (a : nat) (l : list nat),
    ascending l = true → Forall (fun f => a ≤ f < a + n) l →
    List.filter (fun f => bool_decide (f ∈ l)) (seq a n) = l.
Proof.
  induction n as [|n IH]; intros a l Hasc Hrange.
  - destruct l as [|x l]; [done|]. apply Forall_cons in Hrange as [? _]. lia.
  - cbn [seq List.filter]. destruct l as [|x l].
    + rewrite bool_decide_eq_false_2 by apply not_elem_of_nil.
      apply filter_none. intros y _. apply bool_decide_eq_false_2.
      apply not_elem_of_nil.
    + pose proof (ascending_lower x l Hasc) as Hlow.
      apply Forall_cons in Hrange as [Hx Hrange].
      destruct (decide (x = a)) as [-> | Hne].
      * rewrite bool_decide_eq_true_2 by apply list_elem_of_here. f_equal.
        transitivity
          (List.filter (fun f => bool_decide (f ∈ l)) (seq (S a) n));
          [|apply (IH (S a) l)].
        -- apply filter_ext_in. intros y Hy%in_seq. apply bool_decide_ext.
           rewrite elem_of_cons. split; [|tauto]. intros [? | ?]; [lia|done].
        -- by eapply ascending_tail.
        -- rewrite Forall_forall in Hlow, Hrange |- *. intros y Hy.
           specialize (Hlow y Hy). specialize (Hrange y Hy). lia.
      * rewrite bool_decide_eq_false_2.
        -- apply (IH (S a)); [done|]. constructor; [lia|].
           rewrite Forall_forall in Hlow, Hrange |- *. intros y Hy.
           specialize (Hlow y Hy). specialize (Hrange y Hy). lia.
        -- rewrite elem_of_cons. intros [? | Hin]; [lia|].
           rewrite Forall_forall in Hlow. specialize (Hlow a Hin). lia.
Qed.

Lemma ascending_filter (p : nat → bool) (l : list nat) :
  ascending l = true → ascending (List.filter p l) = true.
Proof.
  induction l as [|x l IH]; intros Hasc; [done|].
  pose proof (ascending_lower x l Hasc) as Hlow.
  specialize (IH (ascending_tail x l Hasc)).
  cbn [List.filter]. destruct (p x); [|done].
  destruct (List.filter p l) as [|y l'] eqn:E; [done|].
  cbn [ascending]. cbn [ascending] in IH. rewrite andb_true_iff. split.
  - apply Nat.ltb_lt. rewrite Forall_forall in Hlow. apply Hlow.
    apply list_elem_of_In. apply (proj1 (filter_In p y l)).
    rewrite E. by left.
  - exact IH.
Qed.

(** An ascending list is its part up to 64 followed by its part above. *)
Lemma ascending_split (l : list nat) :
  ascending l = true →
  List.filter (fun f => f <=? 64) l ++ List.filter (fun f => 64 <? f) l = l.
Proof.
  induction l as [|x l IH]; intros Hasc; [done|].
  pose proof (ascending_lower x l Hasc) as Hlow.
  specialize (IH (ascending_tail x l Hasc)). cbn [List.filter].
  destruct (x <=? 64) eqn:Hx.
  - apply Nat.leb_le in Hx. rewrite (proj2 (Nat.ltb_ge _ _)) by done.
    cbn [app]. by rewrite IH.
  - apply Nat.leb_gt in Hx. rewrite (proj2 (Nat.ltb_lt _ _)) by done.
    rewrite (filter_none (fun f => f <=? 64) l).
    + cbn [app]. f_equal. apply filter_all_true. intros y Hy.
      rewrite Forall_forall in Hlow. apply list_elem_of_In in Hy.
      specialize (Hlow y Hy). apply Nat.ltb_lt. lia.
    + intros y Hy. rewrite Forall_forall in Hlow. apply list_elem_of_In in Hy.
      specialize (Hlow y Hy). apply Nat.leb_gt. lia.
Qed.

Lemma range_filter_seq (q : nat → bool) :
  List.filter (fun f => (2 <=? f) && (f <=? 64)) (List.filter q (seq 1 64))
  = List.filter q (seq 2 63).
Proof.
  replace (seq 1 64) with ([1] ++ seq 2 63) by reflexivity.
  rewrite !List.filter_app.
  replace (List.filter (fun f => (2 <=? f) && (f <=? 64))
             (List.filter q [1])) with (@nil nat)
    by (cbn [List.filter]; by destruct (q 1)).
  rewrite app_nil_l. apply filter_all_true.
  intros f [Hf%in_seq _]%filter_In.
  apply andb_true_intro; split; apply Nat.leb_le; lia.
Qed.

(** ** The bitmaps of a well-formed message, read back *)

Section DualBitmap.
Variable fieldNums : list nat.
Hypothesis Hasc : ascending fieldNums = true.
Hypothesis Hrange : Forall (fun f => 2 ≤ f ≤ 128) fieldNums.

Let primaryPart := List.filter (fun f => f <=? 64) fieldNums.
Let secondaryPart := List.filter (fun f => 64 <? f) fieldNums.

Lemma primaryPart_range : Forall (fun f => 2 ≤ f < 2 + 63) primaryPart.
Proof using Hrange.
  apply Forall_forall. intros f Hf.
  apply list_elem_of_In, filter_In in Hf as [Hf Hle%Nat.leb_le].
  rewrite Forall_forall in Hrange. apply list_elem_of_In in Hf.
  specialize (Hrange f Hf). cbn beta in Hrange. lia.
Qed.

Lemma secondaryPart_range : Forall (fun f => 65 ≤ f < 65 + 64) secondaryPart.
Proof using Hrange.
  apply Forall_forall. intros f Hf.
  apply list_elem_of_In, filter_In in Hf as [Hf Hle%Nat.ltb_lt].
  rewrite Forall_forall in Hrange. apply list_elem_of_In in Hf.
  specialize (Hrange f Hf). cbn beta in Hrange. lia.
Qed.

Lemma one_not_primary : 1 ∉ primaryPart.
Proof using Hrange.
  intros H. pose proof primaryPart_range as Hr.
  rewrite Forall_forall in Hr. specialize (Hr 1 H). cbn beta in Hr. lia.
Qed.

(** The two shapes of [buildDualBitmap]. *)
Lemma buildDualBitmap_primary_only :
  secondaryPart = [] →
  buildDualBitmap fieldNums = buildBitmap primaryPart.
Proof using Type.
  unfold buildDualBitmap. fold primaryPart secondaryPart. by intros ->.
Qed.

Lemma buildDualBitmap_dual :
  secondaryPart ≠ [] →
  buildDualBitmap fieldNums
  = buildBitmap (primaryPart ++ [1])
    ++ bitsToHex
         (fold_left (fun bits f => <[f - 65 := 1]> bits) secondaryPart
            zeroBits).
Proof using Hrange.
  intros Hne. unfold buildDualBitmap. fold primaryPart secondaryPart.
  destruct secondaryPart as [|s l] eqn:E; [done|].
  cbn [length Nat.ltb Nat.leb Nat.eqb andb].
  by rewrite (bool_decide_eq_false_2 _ one_not_primary).
Qed.

(** Reading the primary bitmap of the builder, flag bit or not. *)
Lemma primary_active (flag : list nat) :
  flag = [] ∨ flag = [1] →
  List.filter (fun f => (2 <=? f) && (f <=? 64))
    (decodeBitmap (buildBitmap (primaryPart ++ flag))).1
  = primaryPart.
Proof using Hasc Hrange.
  intros Hflag. rewrite decodeBitmap_buildBitmap, range_filter_seq.
  transitivity
    (List.filter (fun f => bool_decide (f ∈ primaryPart)) (seq 2 63));
    [|apply (filter_member_ascending 63 2 primaryPart)].
  - apply filter_ext_in. intros f Hf%in_seq. apply bool_decide_ext.
    rewrite elem_of_app. split; [|tauto]. intros [? | Hin]; [done|].
    destruct Hflag as [-> | ->]; [by apply not_elem_of_nil in Hin|].
    apply list_elem_of_singleton in Hin. lia.
  - by apply ascending_filter.
  - apply primaryPart_range.
Qed.

Lemma secondary_active :
  map (fun f => f + 64)
    (decodeBitmap
       (bitsToHex
          (fold_left (fun bits f => <[f - 65 := 1]> bits) secondaryPart
             zeroBits))).1
  = secondaryPart.
Proof using Hasc Hrange.
  rewrite decodeBitmap_secondary.
  - apply filter_member_ascending; [by apply ascending_filter|].
    apply secondaryPart_range.
  - eapply Forall_impl; [apply secondaryPart_range|]. cbn. intros; lia.
Qed.

Lemma parts_append : primaryPart ++ secondaryPart = fieldNums.
Proof using Hasc. by apply ascending_split. Qed.
End DualBitmap.

(** ** Length prefixes *)

Lemma leadingDigits_all (s : list ascii) :
  forallb isDigit s = true → leadingDigits s = s.
Proof.
  induction s as [|c s IH]; [done|]. cbn [forallb leadingDigits].
  intros [-> Hs]%andb_true_iff. by rewrite IH.
Qed.

Lemma digits_of_uint (u : Decimal.uint) (acc : nat) :
  fold_left digitStep (lit (NilEmpty.string_of_uint u)) acc
  = Nat.of_uint_acc u acc.
Proof.
  revert acc. induction u; intros acc; cbn [NilEmpty.string_of_uint lit
    list_ascii_of_string fold_left Nat.of_uint_acc]; [done|..];
    unfold lit in IHu; rewrite IHu; f_equal; unfold digitStep;
    rewrite Nat.tail_mul_spec;
    match goal with
    | |- context [nat_of_ascii ?c - 48] =>
        let v := eval vm_compute in (nat_of_ascii c - 48) in
        change (nat_of_ascii c - 48) with v
    end; lia.
Qed.

Lemma digitsValue_showNat (n : nat) (zeros : nat) :
  digitsValue (replicate zeros "0"%char ++ showNat n) = n.
Proof.
  unfold digitsValue. rewrite fold_left_app.
  replace (fold_left digitStep (replicate zeros "0"%char) 0) with 0.
  2:{ induction zeros as [|k IH]; [done|]. cbn [replicate fold_left].
      by change (digitStep 0 "0") with 0. }
  unfold showNat, NilZero.string_of_uint.
  rewrite <- (Unsigned.of_to n) at 2. unfold Nat.of_uint.
  destruct (Nat.to_uint n) eqn:E; try (rewrite <- E; apply digits_of_uint).
  reflexivity.
Qed.

Lemma showNat_nonempty (n : nat) : showNat n ≠ [].
Proof.
  unfold showNat, NilZero.string_of_uint. by destruct (Nat.to_uint n).
Qed.

Lemma lengthPrefix_digits (w n : nat) :
  forallb isDigit (lengthPrefix w n) = true.
Proof.
  unfold lengthPrefix, padStart0. rewrite forallb_app, showNat_digits.
  rewrite andb_true_r. by induction (w - length (showNat n)).
Qed.

Lemma parseInt10_lengthPrefix (w n : nat) :
  parseInt10 (lengthPrefix w n) = Some n.
Proof.
  unfold parseInt10. rewrite leadingDigits_all by apply lengthPrefix_digits.
  pose proof (digitsValue_showNat n (w - length (showNat n))) as Hv.
  fold (padStart0 w (showNat n)) in Hv. fold (lengthPrefix w n) in Hv.
  destruct (lengthPrefix w n) as [|c l] eqn:E; [|by rewrite Hv].
  unfold lengthPrefix, padStart0 in E. apply app_eq_nil in E as [_ E].
  by apply showNat_nonempty in E.
Qed.

Lemma length_lengthPrefix (w n : nat) :
  length (showNat n) ≤ w → length (lengthPrefix w n) = w.
Proof.
  intros H. unfold lengthPrefix, padStart0.
  rewrite length_app, length_replicate. lia.
Qed.

Lemma showNat_width (limit w n : nat) :
  forallb (fun k => length (showNat k) <=? w) (seq 0 (S limit)) = true →
  n ≤ limit → length (showNat n) ≤ w.
Proof.
  intros Hall Hn. rewrite forallb_forall in Hall.
  apply Nat.leb_le, Hall, in_seq. lia.
Qed.

Lemma showNat_two_digits (n : nat) : n ≤ 99 → length (showNat n) ≤ 2.
Proof. apply showNat_width. by vm_compute. Qed.

Lemma showNat_four_digits (n : nat) : n ≤ 999 → length (showNat n) ≤ 4.
Proof. apply showNat_width. by vm_compute. Qed.

(** ** Text payloads *)

Lemma printable_round_trip (c : ascii) :
  isPrintable c = true →
  asciiOfCode (parseInt16 (byteHex (nat_of_ascii c))) = c.
Proof. each_ascii c; by vm_compute. Qed.

Lemma hexToAscii_asciiToHex (text : list ascii) :
  forallb isPrintable text = true → hexToAscii (asciiToHex text) = text.
Proof.
  induction text as [|c text IH]; [done|]. cbn [forallb].
  intros [Hc Ht]%andb_true_iff. unfold asciiToHex. cbn [map concat].
  fold (asciiToHex text). unfold byteHex at 1. cbn [app hexToAscii].
  rewrite IH by done. f_equal. by apply printable_round_trip.
Qed.

Lemma length_asciiToHex (text : list ascii) :
  length (asciiToHex text) = length text * 2.
Proof. unfold asciiToHex. by apply length_concat_map_const. Qed.

Lemma asciiToHex_upper (text : list ascii) :
  forallb isUpperHex (asciiToHex text) = true.
Proof. apply forallb_concat_map. intros. apply byteHex_upper. Qed.

(** ** One field of a well-formed message *)

Lemma substring_middle (pre mid post : list ascii) :
  substring (pre ++ mid ++ post) (length pre) (length pre + length mid) = mid.
Proof.
  rewrite substring_le by lia. rewrite drop_app_length.
  replace (length pre + length mid - length pre) with (length mid) by lia.
  apply take_app_length.
Qed.

Lemma varHexLen_varWidth (spec : FieldSpec) (n : nat) :
  varHexLen spec n = varWidth spec n.
Proof.
  unfold varHexLen, varWidth, roundUpEven.
  destruct (streq (spec_type spec) (lit "n")); [|done].
  pose proof (Nat.mod_upper_bound n 2).
  destruct (n mod 2 =? 0) eqn:E;
    [apply Nat.eqb_eq in E | apply Nat.eqb_neq in E]; lia.
Qed.

Lemma payloadHex_upper (spec : FieldSpec) (width : nat) (p : Payload) :
  validData spec width p = true → forallb isUpperHex (payloadHex p) = true.
Proof.
  destruct p as [n data | text]; cbn [validData payloadHex].
  - by intros [? _]%andb_true_iff.
  - intros _. apply asciiToHex_upper.
Qed.

(** The wire form of a valid payload, split as prefix and data. *)
Lemma encodeField_upper (spec : FieldSpec) (p : Payload) :
  validPayload spec p = true → forallb isUpperHex (encodeField spec p) = true.
Proof.
  unfold validPayload, encodeField.
  assert (∀ w n, forallb isUpperHex (lengthPrefix w n) = true) as Hprefix.
  { intros w n. generalize (lengthPrefix_digits w n).
    apply forallb_impl_in. unfold isUpperHex. by intros c ->. }
  destruct (streq (spec_format spec) (lit "FIXED")) eqn:Hfixed.
  - apply streq_eq in Hfixed. rewrite Hfixed.
    change (streq (lit "FIXED") (lit "LLVAR")) with false.
    change (streq (lit "FIXED") (lit "LLLVAR")) with false.
    intros [_ Hd]%andb_true_iff. by eapply payloadHex_upper.
  - destruct (streq (spec_format spec) (lit "LLVAR")).
    + intros [_ Hd]%andb_true_iff. rewrite forallb_app, Hprefix.
      by eapply payloadHex_upper.
    + destruct (streq (spec_format spec) (lit "LLLVAR")); [|done].
      intros [_ Hd]%andb_true_iff. rewrite forallb_app, Hprefix.
      by eapply payloadHex_upper.
Qed.

Lemma fixedWidth_ge (spec : FieldSpec) : spec_maxLength spec ≤ fixedWidth spec.
Proof.
  unfold fixedWidth, roundUpEven.
  destruct (isNumericType (spec_type spec)); lia.
Qed.

(** The decoded value of a valid payload whose data is [data]. *)
Lemma fixedValue_expected (spec : FieldSpec) (p : Payload) :
  spec_format spec = lit "FIXED" →
  payloadLength p = spec_maxLength spec →
  validData spec (fixedWidth spec) p = true →
  length (payloadHex p) = fixedWidth spec
  ∧ fixedValue spec (payloadHex p) = expectedValue spec p.
Proof.
  intros Hfmt Hlen Hdata.
  assert (rendersText spec
          = negb (isNumericType (spec_type spec)
                  || isBinaryType (spec_type spec))) as Hr
    by (unfold rendersText; by rewrite (streq_true _ _ Hfmt)).
  destruct p as [n data | text]; cbn [validData payloadHex expectedValue
    payloadLength] in *.
  - apply andb_true_iff in Hdata as [Hup Hw%Nat.eqb_eq]. split; [done|].
    rewrite Hr. unfold fixedValue, isNumericType, isBinaryType.
    destruct (streq (spec_type spec) (lit "n")
              || streq (spec_type spec) (lit "x+n")); [done|].
    destruct (streq (spec_type spec) (lit "b")); [done|]. cbn [orb negb].
    apply hexToAscii_printable; [by apply forallb_upper_hex|].
    rewrite Hw. apply fixedWidth_even.
  - apply andb_true_iff in Hdata as [Htext Hprint]. rewrite Hr in Htext.
    apply negb_true_iff, orb_false_iff in Htext as [Hnum Hbin].
    rewrite length_asciiToHex, Hlen. unfold fixedWidth. rewrite Hnum.
    split; [done|]. unfold fixedValue.
    unfold isNumericType in Hnum. unfold isBinaryType in Hbin.
    rewrite Hnum, Hbin. by apply hexToAscii_asciiToHex.
Qed.

Lemma varValue_expected (spec : FieldSpec) (p : Payload) :
  spec_format spec ≠ lit "FIXED" →
  validData spec (varWidth spec (payloadLength p)) p = true →
  length (payloadHex p) = varHexLen spec (payloadLength p)
  ∧ varValue spec (payloadHex p) = expectedValue spec p.
Proof.
  intros Hfmt Hdata. rewrite varHexLen_varWidth.
  assert (rendersText spec = negb (streq (spec_type spec) (lit "n"))) as Hr.
  { unfold rendersText, streq. by rewrite bool_decide_eq_false_2. }
  destruct p as [n data | text]; cbn [validData payloadHex expectedValue
    payloadLength] in *.
  - apply andb_true_iff in Hdata as [Hup Hw%Nat.eqb_eq]. split; [done|].
    rewrite Hr. unfold varValue. revert Hw. unfold varWidth.
    destruct (streq (spec_type spec) (lit "n")); [done|]. cbn [negb].
    intros Hw. apply hexToAscii_printable; [by apply forallb_upper_hex|].
    rewrite Hw. apply Nat.Div0.mod_mul.
  - apply andb_true_iff in Hdata as [Htext Hprint]. rewrite Hr in Htext.
    apply negb_true_iff in Htext. unfold varWidth, varValue. rewrite Htext.
    rewrite length_asciiToHex. split; [done|].
    by apply hexToAscii_asciiToHex.
Qed.

Lemma parseVar_wire (w : nat) (errPrefix : nat → ParseError)
    (errInvalid : list ascii → nat → ParseError)
    (pre post : list ascii) (fieldNum : nat) (spec : FieldSpec)
    (p : Payload) (st : LoopState) :
  spec_format spec ≠ lit "FIXED" →
  st_pos st = length pre →
  payloadLength p ≤ spec_maxLength spec →
  length (showNat (payloadLength p)) ≤ w →
  validData spec (varWidth spec (payloadLength p)) p = true →
  let wire := lengthPrefix w (payloadLength p) ++ payloadHex p in
  parseVar w errPrefix errInvalid (pre ++ wire ++ post) fieldNum spec st
  = Continue
      (emitField fieldNum spec wire (expectedValue spec p) (payloadLength p)
         (length pre) (setPos (length pre + length wire) st)).
Proof.
  intros Hfmt Hpos Hmax Hfit Hdata wire.
  destruct (varValue_expected spec p Hfmt Hdata) as [Hlen Hval].
  pose proof (length_lengthPrefix w _ Hfit) as Hw.
  set (prefix := lengthPrefix w (payloadLength p)) in *.
  set (hex := pre ++ wire ++ post).
  assert (length hex = length pre + w + length (payloadHex p) + length post)
    as Hhex by (subst hex wire; rewrite !length_app; lia).
  assert (substring hex (length pre) (length pre + w) = prefix) as Hprefix.
  { subst hex wire. rewrite <- app_assoc, <- Hw. apply substring_middle. }
  assert (substring hex (length pre + w)
            (length pre + w + length (payloadHex p)) = payloadHex p) as Hdat.
  { subst hex wire. rewrite <- app_assoc, (app_assoc pre).
    replace (length pre + w) with (length (pre ++ prefix))
      by (rewrite length_app; lia).
    apply substring_middle. }
  unfold parseVar. rewrite Hpos.
  rewrite (proj2 (Nat.ltb_ge _ _)) by lia.
  rewrite Hprefix. subst prefix. rewrite parseInt10_lengthPrefix.
  rewrite (proj2 (Nat.ltb_ge _ _)) by lia.
  rewrite <- Hlen.
  rewrite (proj2 (Nat.ltb_ge _ _)) by lia.
  cbn [setPos st_pos]. rewrite Hdat.
  replace (length pre + w + length (payloadHex p) - length (payloadHex p))
    with (length pre + w) by lia.
  rewrite Hdat, Hval. unfold emitField, setPos. cbn [st_pos st_fields
    st_errors st_hexSegments].
  subst wire. rewrite length_app, Hw. by rewrite Nat.add_assoc.
Qed.

(** One well-formed field, read at the position where it was written. *)
Lemma fieldStep_wire (M : fieldSpecs) (pre post : list ascii) (fieldNum : nat)
    (spec : FieldSpec) (p : Payload) (st : LoopState) :
  FIELD_SPECS M !! fieldNum = Some spec →
  validPayload spec p = true →
  st_pos st = length pre →
  let wire := encodeField spec p in
  0 < length wire
  ∧ ∃ fieldLength,
      fieldStep M (pre ++ wire ++ post) fieldNum st
      = Continue
          (emitField fieldNum spec wire (expectedValue spec p) fieldLength
             (length pre) (setPos (length pre + length wire) st)).
Proof.
  intros Hspec Hvalid Hpos wire. subst wire.
  unfold validPayload, encodeField in *.
  destruct (streq (spec_format spec) (lit "FIXED")) eqn:Hfixed.
  - apply streq_eq in Hfixed. rewrite Hfixed.
    change (streq (lit "FIXED") (lit "LLVAR")) with false.
    change (streq (lit "FIXED") (lit "LLLVAR")) with false. cbv iota.
    apply andb_true_iff in Hvalid as [[Hpos0%Nat.ltb_lt Hlen%Nat.eqb_eq]%andb_true_iff Hdata].
    destruct (fixedValue_expected spec p Hfixed Hlen Hdata) as [Hw Hval].
    pose proof (fixedWidth_ge spec) as Hge.
    split; [lia|]. exists (fixedHexLen spec / 2).
    rewrite (fieldStep_fixed M _ fieldNum spec st) by
      (done || rewrite Hpos, !length_app; lia).
    unfold parseFixed. rewrite fixedHexLen_fixedWidth, Hpos, <- Hw.
    rewrite (proj2 (Nat.ltb_ge _ _)) by (rewrite !length_app; lia).
    by rewrite substring_middle, Hval.
  - assert (spec_format spec ≠ lit "FIXED") as Hnf.
    { intros E. by rewrite (streq_true _ _ E) in Hfixed. }
    destruct (streq (spec_format spec) (lit "LLVAR")) eqn:Hll.
    + apply streq_eq in Hll.
      apply andb_true_iff in Hvalid as [[Hmax%Nat.leb_le Hlim%Nat.leb_le]%andb_true_iff Hdata].
      pose proof (showNat_two_digits _ Hlim) as Hfit.
      pose proof (length_lengthPrefix 2 _ Hfit) as Hw.
      split; [rewrite length_app; lia|]. exists (payloadLength p).
      rewrite (fieldStep_llvar M _ fieldNum spec st) by
        (done || rewrite Hpos, !length_app; lia).
      by apply parseVar_wire.
    + destruct (streq (spec_format spec) (lit "LLLVAR")) eqn:Hlll; [|done].
      apply streq_eq in Hlll.
      apply andb_true_iff in Hvalid as [[Hmax%Nat.leb_le Hlim%Nat.leb_le]%andb_true_iff Hdata].
      pose proof (showNat_four_digits _ Hlim) as Hfit.
      pose proof (length_lengthPrefix 4 _ Hfit) as Hw.
      split; [rewrite length_app; lia|]. exists (payloadLength p).
      rewrite (fieldStep_lllvar M _ fieldNum spec st) by
        (done || rewrite Hpos, !length_app; lia).
      by apply parseVar_wire.
Qed.

Lemma decodesTo_emitted (M : fieldSpecs) (fieldNum : nat) (spec : FieldSpec)
    (p : Payload) (fieldLength startPos endPos : nat) :
  FIELD_SPECS M !! fieldNum = Some spec →
  decodesTo M
    (mkField fieldNum spec (encodeField spec p) (expectedValue spec p)
       fieldLength startPos endPos)
    (fieldNum, p).
Proof. intros Hspec. split; [done|]. by exists spec. Qed.

(** The field loop over the fields of a well-formed message: every field is
    decoded, no error is logged and the cursor ends at the end of the
    stream. *)
Lemma fieldLoop_wires (M : fieldSpecs) (fs : list (nat * Payload)) :
  ∀ (pre : list ascii) (st : LoopState),
    forallb
      (fun fp =>
         match FIELD_SPECS M !! fp.1 with
         | Some spec => validPayload spec fp.2
         | None => false
         end) fs = true →
    st_pos st = length pre →
    let hex := pre ++ concat (map (fieldWire M) fs) in
    let final := fieldLoop M hex (map fst fs) st in
    st_pos final = length hex
    ∧ st_errors final = st_errors st
    ∧ ∃ parsed,
        st_fields final = st_fields st ++ parsed
        ∧ Forall2 (decodesTo M) parsed fs.
Proof.
  induction fs as [|[fieldNum p] fs IH]; intros pre st Hvalid Hpos hex final.
  - subst final hex. cbn. rewrite app_nil_r. split; [done|]. split; [done|].
    exists []. by rewrite app_nil_r.
  - cbn [forallb fst snd] in Hvalid.
    apply andb_true_iff in Hvalid as [Hp Hvalid].
    destruct (FIELD_SPECS M !! fieldNum) as [spec|] eqn:Hspec; [|done].
    assert (fieldWire M (fieldNum, p) = encodeField spec p) as Hwire
      by (unfold fieldWire; cbn [fst snd]; by rewrite Hspec).
    subst final hex. cbn [map concat fst]. rewrite !Hwire.
    destruct (fieldStep_wire M pre (concat (map (fieldWire M) fs)) fieldNum
                spec p st Hspec Hp Hpos) as [Hne [fieldLength Hstep]].
    cbn [fieldLoop]. rewrite Hstep. rewrite (app_assoc pre).
    set (st' := emitField _ _ _ _ _ _ _).
    destruct (IH (pre ++ encodeField spec p) st' Hvalid) as (Hfin & Herr & parsed & Hfields & Hall).
    { subst st'. cbn. by rewrite length_app. }
    split; [done|]. split; [by rewrite Herr|].
    eexists (_ :: parsed). split.
    + rewrite Hfields. subst st'. cbn [emitField st_fields].
      by rewrite <- app_assoc.
    + constructor; [|done]. by apply decodesTo_emitted.
Qed.

(** ** Normalization of a built message *)

Lemma normalize_upper_hex (s : list ascii) :
  forallb isUpperHex s = true → normalize s = s.
Proof.
  intros Hs. unfold normalize, toUpperCase.
  rewrite filter_all_true.
  - rewrite <- (map_id s) at 2. apply map_ext_in. intros c Hc.
    rewrite forallb_forall in Hs. specialize (Hs c Hc). revert Hs.
    each_ascii c; by vm_compute.
  - intros c Hc. rewrite forallb_forall in Hs. specialize (Hs c Hc).
    revert Hs. each_ascii c; by vm_compute.
Qed.

Lemma buildBitmap_upper (fields : list nat) :
  forallb isUpperHex (buildBitmap fields) = true.
Proof. apply bitsToHex_upper. Qed.

Lemma buildDualBitmap_upper (fields : list nat) :
  forallb isUpperHex (buildDualBitmap fields) = true.
Proof.
  unfold buildDualBitmap. case_match; [apply buildBitmap_upper|].
  by rewrite forallb_app, buildBitmap_upper, bitsToHex_upper.
Qed.

Lemma buildMessage_upper (M : fieldSpecs) (mtiHex : list ascii)
    (fs : list (nat * Payload)) :
  wellFormed M mtiHex fs = true →
  forallb isUpperHex (buildMessage M mtiHex fs) = true.
Proof.
  unfold wellFormed. rewrite !andb_true_iff.
  intros [[[[_ Hmti] _] _] Hvalid]. unfold buildMessage.
  rewrite !forallb_app, Hmti, buildDualBitmap_upper. cbn [andb].
  induction fs as [|[f p] fs IH]; [done|].
  cbn [forallb fst snd] in Hvalid.
  apply andb_true_iff in Hvalid as [Hp Hvalid].
  cbn [map concat]. rewrite forallb_app, (IH Hvalid), andb_true_r.
  unfold fieldWire. cbn [fst snd].
  destruct (FIELD_SPECS M !! f) as [spec|]; [|done].
  by apply encodeField_upper.
Qed.

(** ** Round trip *)

Lemma length_buildBitmap (fields : list nat) : length (buildBitmap fields) = 16.
Proof. apply length_bitsToHex. Qed.

Lemma finishParse_clean (hex : list ascii) (mtiInfo : MTIInfo)
    (primary : BitmapInfo) (secondary : option BitmapInfo) (st : LoopState) :
  st_pos st = length hex → st_errors st = [] →
  let r := finishParse hex mtiInfo primary secondary st in
  fields r = st_fields st ∧ errors r = [] ∧ success r = true.
Proof.
  intros Hpos Herr. unfold finishParse, trailingCheck.
  rewrite Hpos, Nat.ltb_irrefl. cbn. by rewrite Herr.
Qed.

(** The body of the decoder on a built message: the active fields are the
    chosen field numbers and the loop starts right after the bitmaps. *)
Lemma parseBody_built (M : fieldSpecs) (mtiHex : list ascii)
    (fieldNums : list nat) (wires : list ascii) (mtiInfo : MTIInfo)
    (mtiSegment : HexSegment) :
  length mtiHex = 4 → ascending fieldNums = true →
  Forall (fun f => 2 ≤ f ≤ 128) fieldNums →
  let hex := mtiHex ++ buildDualBitmap fieldNums ++ wires in
  ∃ primary secondary st0,
    parseBody M hex mtiInfo mtiSegment 4
    = finishParse hex mtiInfo primary secondary
        (fieldLoop M hex fieldNums st0)
    ∧ st_pos st0 = length (mtiHex ++ buildDualBitmap fieldNums)
    ∧ st_fields st0 = [] ∧ st_errors st0 = [].
Proof.
  intros Hmti Hasc Hrange hex.
  set (primaryPart := List.filter (fun f => f <=? 64) fieldNums).
  set (secondaryPart := List.filter (fun f => 64 <? f) fieldNums).
  pose proof (parts_append fieldNums Hasc) as Hparts.
  fold primaryPart secondaryPart in Hparts.
  destruct (decide (secondaryPart = [])) as [Hnone | Hsome].
  - pose proof (buildDualBitmap_primary_only fieldNums Hnone) as Hbm.
    fold primaryPart in Hbm.
    assert (substring hex 4 (4 + 16) = buildBitmap primaryPart) as Hsub.
    { pose proof (substring_middle mtiHex (buildBitmap primaryPart) wires)
        as H.
      rewrite Hmti, length_buildBitmap in H. subst hex. by rewrite Hbm. }
    assert (fieldNums = primaryPart) as Hall
      by (by rewrite <- Hparts, Hnone, app_nil_r).
    unfold parseBody. cbv zeta.
    assert (bm_hasSecondary (primaryBitmapInfo hex 4) = false) as ->.
    { unfold primaryBitmapInfo. cbn [bm_hasSecondary]. rewrite Hsub.
      rewrite decodeBitmap_buildBitmap_first. apply bool_decide_eq_false_2.
      by apply one_not_primary. }
    assert (bm_activeFields (primaryBitmapInfo hex 4) = fieldNums) as ->.
    { unfold primaryBitmapInfo. cbn [bm_activeFields]. rewrite Hsub.
      transitivity primaryPart; [|done].
      pose proof (primary_active fieldNums Hasc Hrange [] (or_introl eq_refl))
        as H.
      by rewrite app_nil_r in H. }
    eexists _, _, _. split; [reflexivity|]. cbn [st_pos st_fields st_errors].
    split; [|done]. rewrite length_app, Hbm, length_buildBitmap. lia.
  - pose proof (buildDualBitmap_dual fieldNums Hrange Hsome) as Hbm.
    fold primaryPart secondaryPart in Hbm.
    set (secHex := bitsToHex _) in Hbm.
    assert (length secHex = 16) as Hsec by apply length_bitsToHex.
    assert (substring hex 4 (4 + 16) = buildBitmap (primaryPart ++ [1]))
      as Hsub.
    { pose proof (substring_middle mtiHex (buildBitmap (primaryPart ++ [1]))
                    (secHex ++ wires)) as H.
      rewrite Hmti, length_buildBitmap in H. subst hex.
      by rewrite Hbm, <- !app_assoc. }
    assert (substring hex (4 + 16) (4 + 16 + 16) = secHex) as Hsub2.
    { pose proof (substring_middle
                    (mtiHex ++ buildBitmap (primaryPart ++ [1])) secHex wires)
        as H.
      rewrite length_app, Hmti, length_buildBitmap, Hsec in H. subst hex.
      by rewrite Hbm, <- !app_assoc in *. }
    assert (36 ≤ length hex) as Hlen.
    { subst hex. rewrite Hbm, !length_app, length_buildBitmap. lia. }
    unfold parseBody. cbv zeta.
    assert (bm_hasSecondary (primaryBitmapInfo hex 4) = true) as ->.
    { unfold primaryBitmapInfo. cbn [bm_hasSecondary]. rewrite Hsub.
      rewrite decodeBitmap_buildBitmap_first. apply bool_decide_eq_true_2.
      apply elem_of_app. right. apply list_elem_of_here. }
    rewrite (proj2 (Nat.ltb_ge _ _)) by lia.
    assert (bm_activeFields (primaryBitmapInfo hex 4)
            ++ bm_activeFields (secondaryBitmapInfo hex (4 + 16))
            = fieldNums) as ->.
    { unfold primaryBitmapInfo, secondaryBitmapInfo. cbn [bm_activeFields].
      rewrite Hsub, Hsub2. subst secHex.
      pose proof (primary_active fieldNums Hasc Hrange [1]
                    (or_intror eq_refl)) as Hp.
      pose proof (secondary_active fieldNums Hasc Hrange) as Hs.
      fold primaryPart in Hp. fold secondaryPart in Hs.
      by rewrite Hp, Hs. }
    eexists _, _, _. split; [reflexivity|]. cbn [st_pos st_fields st_errors].
    split; [|done]. rewrite length_app, Hbm, length_app, length_buildBitmap.
    lia.
Qed.

Lemma wellFormed_parts (M : fieldSpecs) (mtiHex : list ascii)
    (fs : list (nat * Payload)) :
  wellFormed M mtiHex fs = true →
  length mtiHex = 4
  ∧ ascending (map fst fs) = true
  ∧ Forall (fun f => 2 ≤ f ≤ 128) (map fst fs)
  ∧ forallb
      (fun fp =>
         match FIELD_SPECS M !! fp.1 with
         | Some spec => validPayload spec fp.2
         | None => false
         end) fs = true.
Proof.
  unfold wellFormed. rewrite !andb_true_iff.
  intros [[[[Hlen%Nat.eqb_eq _] Hasc] Hrange] Hvalid].
  repeat split; try done.
  apply Forall_forall. intros f Hf%list_elem_of_In.
  rewrite forallb_forall in Hrange.
  apply Hrange, andb_true_iff in Hf as [H1%Nat.leb_le H2%Nat.leb_le]. lia.
Qed.

(** Decoding a built message: every field written is decoded, in order, no
    error is logged and the result is a success. *)
Lemma built_message_decodes (M : fieldSpecs) (mtiHex : list ascii)
    (fs : list (nat * Payload)) :
  wellFormed M mtiHex fs = true →
  let r := parseISO8583 M (buildMessage M mtiHex fs) in
  Forall2 (decodesTo M) (fields r) fs ∧ errors r = [] ∧ success r = true.
Proof.
  intros Hwf r. subst r.
  pose proof (buildMessage_upper M mtiHex fs Hwf) as Hupper.
  destruct (wellFormed_parts M mtiHex fs Hwf) as (Hmti & Hasc & Hrange & Hvalid).
  set (hex := buildMessage M mtiHex fs) in *.
  assert (normalize hex = hex) as Hnorm by by apply normalize_upper_hex.
  assert (20 ≤ length hex) as Hlen.
  { subst hex. unfold buildMessage. rewrite !length_app.
    pose proof (buildDualBitmap_upper (map fst fs)).
    assert (16 ≤ length (buildDualBitmap (map fst fs))); [|lia].
    unfold buildDualBitmap. case_match; rewrite ?length_app, length_buildBitmap; lia. }
  assert (testHex hex = true) as Htest.
  { unfold testHex. destruct hex; [cbn in Hlen; lia|].
    by apply forallb_upper_hex. }
  rewrite parseISO8583_valid by (rewrite Hnorm; (done || lia)).
  rewrite Hnorm. cbv zeta. rewrite (proj2 (Nat.ltb_ge _ _)) by done.
  set (mtiInfo := decodeMTI M _).
  set (mtiSegment := Build_HexSegment _ _ _ _ _ _).
  destruct (parseBody_built M mtiHex (map fst fs)
              (concat (map (fieldWire M) fs)) mtiInfo mtiSegment Hmti Hasc
              Hrange) as (primary & secondary & st0 & Hbody & Hpos & Hf0 & He0).
  fold (buildMessage M mtiHex fs) in Hbody. fold hex in Hbody. rewrite Hbody.
  destruct (fieldLoop_wires M fs (mtiHex ++ buildDualBitmap (map fst fs)) st0
              Hvalid Hpos) as (Hend & Herr & parsed & Hfields & Hall).
  rewrite <- app_assoc in Hend, Herr, Hfields.
  fold (buildMessage M mtiHex fs) in Hend, Herr, Hfields.
  fold hex in Hend, Herr, Hfields.
  rewrite He0 in Herr. rewrite Hf0 in Hfields. cbn [app] in Hfields.
  destruct (finishParse_clean hex mtiInfo primary secondary _ Hend Herr)
    as (-> & -> & ->).
  by rewrite Hfields.
Qed.

(** X24. For a well-formed message (field numbers in 2..128 chosen in
    ascending order, each with a specification and a valid payload, the
    bitmaps built for exactly those numbers), decoding logs no error,
    succeeds, and recovers exactly the chosen field numbers in their order,
    primary-bitmap fields before secondary-bitmap ones.  Each field holds
    what was written as its raw hex and decodes to: the text written, for a
    text payload; the hex digits written, for a FIXED field of type [n],
    [x+n] or [b] and for a variable-length field of type [n]; and the
    printable rendering of the bytes written for every other field. *)
Theorem well_formed_round_trip (M : fieldSpecs) (mtiHex : list ascii)
    (fs : list (nat * Payload)) :
  wellFormed M mtiHex fs = true →
  let r := parseISO8583 M (buildMessage M mtiHex fs) in
  map pf_de (fields r) = map fst fs
  ∧ Forall2 (decodesTo M) (fields r) fs
  ∧ errors r = []
  ∧ success r = true.
Proof.
  intros Hwf r.
  destruct (built_message_decodes M mtiHex fs Hwf) as (Hall & Herr & Hok).
  fold r in Hall, Herr, Hok. split; [|done].
  clear -Hall. induction Hall as [|pf [f p] parsed fs [Hde _] _ IH]; [done|].
  cbn [map fst]. by rewrite Hde, IH.
Qed.

Lemma hexBytes_half (hex : list ascii) : 2 * length (hexBytes hex) ≤ length hex.
Proof.
  revert hex. fix IH 1. intros [|a [|b rest]]; cbn [hexBytes length]; [lia..|].
  specialize (IH rest). lia.
Qed.

Lemma decodesTo_member (M : fieldSpecs) (parsed : list ParsedField)
    (fs : list (nat * Payload)) (fp : nat * Payload) :
  Forall2 (decodesTo M) parsed fs → fp ∈ fs →
  ∃ pf, pf ∈ parsed ∧ decodesTo M pf fp.
Proof.
  induction 1 as [|pf fp' parsed fs Hd _ IH]; intros Hin.
  - by apply elem_of_nil in Hin.
  - apply elem_of_cons in Hin as [-> | Hin].
    + exists pf. split; [apply list_elem_of_here|done].
    + destruct (IH Hin) as (pf' & Hpf & Hd'). exists pf'.
      split; [by apply list_elem_of_further|done].
Qed.

(** C3.  The round trip fails for the hex payload of a variable-length field
    of type [b] or [x+n].  In a well-formed message such a field is
    recovered with the characters written as its raw hex, but its decoded
    value is the printable rendering of the bytes written; for every payload
    that is not empty this differs from the hex digits written, which the
    FIXED branch keeps for the same two types. *)
Theorem variable_length_binary_rendered_as_text (M : fieldSpecs)
    (mtiHex : list ascii) (fs : list (nat * Payload)) (fieldNum : nat)
    (spec : FieldSpec) (dataLen : nat) (data : list ascii) :
  wellFormed M mtiHex fs = true →
  (fieldNum, HexData dataLen data) ∈ fs →
  FIELD_SPECS M !! fieldNum = Some spec →
  spec_format spec ≠ lit "FIXED" →
  isBinaryType (spec_type spec) || streq (spec_type spec) (lit "x+n") = true →
  data ≠ [] →
  fixedValue spec data = data
  ∧ ∃ parsed,
      parsed ∈ fields (parseISO8583 M (buildMessage M mtiHex fs))
      ∧ pf_de parsed = fieldNum
      ∧ pf_rawHex parsed = encodeField spec (HexData dataLen data)
      ∧ pf_decodedValue parsed = map printableChar (hexBytes data)
      ∧ pf_decodedValue parsed ≠ data.
Proof.
  intros Hwf Hin Hspec Hfmt Htype Hdata.
  assert (streq (spec_type spec) (lit "n") = false) as Hn.
  { apply orb_true_iff in Htype as [Hb | Hx]; apply streq_eq in Hb || apply streq_eq in Hx.
    - by rewrite Hb.
    - by rewrite Hx. }
  split.
  { unfold fixedValue. unfold isBinaryType in Htype.
    apply orb_true_iff in Htype as [-> | ->]; [|by rewrite orb_true_r].
    by destruct (_ || _). }
  destruct (built_message_decodes M mtiHex fs Hwf) as (Hall & _ & _).
  destruct (decodesTo_member _ _ _ _ Hall Hin)
    as (parsed & Hparsed & Hde & spec' & Hspec' & Hraw & Hval).
  cbn [fst snd] in *. rewrite Hspec in Hspec'. injection Hspec' as <-.
  assert (pf_decodedValue parsed = map printableChar (hexBytes data)) as Hv.
  { rewrite Hval. cbn [expectedValue]. unfold rendersText, streq in *.
    rewrite (bool_decide_eq_false_2 (spec_format spec = lit "FIXED")) by done.
    by rewrite Hn. }
  exists parsed. split_and!; try done.
  rewrite Hv. intros E. apply (f_equal length) in E.
  rewrite length_map in E. pose proof (hexBytes_half data) as Hh.
  destruct data; [done|]. cbn [length] in *. lia.
Qed.

(** ** The properties on concrete messages *)

Lemma decodeMTI_best_effort_witness :
  mti_raw (decodeMTI sampleSpecs (lit "30383030")) = lit "0800"
  ∧ cl_label (mti_version (decodeMTI sampleSpecs (lit "30383030")))
    = lit "ISO 8583:1987"
  ∧ cl_label (mti_function (decodeMTI sampleSpecs (lit "1Z")))
    = lit "Unknown".
Proof.
  pose proof (decodeMTI_best_effort sampleSpecs (lit "30383030")) as H1.
  pose proof (decodeMTI_best_effort sampleSpecs (lit "1Z")) as H2.
  cbv zeta in H1, H2.
  destruct H1 as (Hraw & _ & _ & _ & _ & Hv & _).
  destruct H2 as (_ & _ & _ & _ & _ & _ & _ & Hf & _).
  rewrite Hraw, Hv, Hf. by vm_compute.
Defined.

Lemma fixed_field_decoding_witness :
  let hex := lit "0100" ++ buildBitmap [7] ++ lit "0210060000" in
  ∃ parsed st',
    fieldStep sampleSpecs hex 7 afterPrimary = Continue st'
    ∧ st_pos st' = 30
    ∧ pf_rawHex parsed = lit "0210060000"
    ∧ pf_decodedValue parsed = lit "0210060000".
Proof.
  intros hex.
  destruct (fixed_field_decoding sampleSpecs hex 7
              (mkSpec "Transmission Date and Time" "FIXED" "n" 10 "datetime")
              [] afterPrimary)
    as (parsed & st' & Hstep & _ & Hpos & _ & _ & _ & _ & _ & Hraw & _ & Hval);
    [reflexivity | reflexivity | reflexivity | vm_compute; lia
    | vm_compute; lia |].
  exists parsed, st'. split; [exact Hstep|]. split; [exact Hpos|].
  rewrite Hval, Hraw. by vm_compute.
Defined.

Lemma every_segment_consistent_witness :
  Forall
    (fun seg =>
       0 ≤ seg_startPos seg ∧ seg_startPos seg ≤ seg_endPos seg
       ∧ seg_endPos seg ≤ 23
       ∧ seg_hex seg
         = substring (lit "01004000000000000000160") (seg_startPos seg)
             (seg_endPos seg))
    (hexSegments
       (parseISO8583 sampleSpecs (lit "0100 4000000000000000 160"))).
Proof.
  apply (every_segment_consistent sampleSpecs (lit "0100 4000000000000000 160"));
    [reflexivity | vm_compute; lia].
Defined.


Lemma rejected_length_prefix_witness :
  let hex := lit "0100" ++ buildBitmap [2; 3] ++ lit "99123456" in
  ∃ e,
    fieldStep sampleSpecs hex 2 afterPrimary
    = Continue
        {| st_pos := 22; st_fields := []; st_errors := [e];
           st_hexSegments := [] |}
    ∧ countsAgainstSuccess e = true.
Proof.
  intros hex.
  destruct (rejected_length_prefix sampleSpecs hex 2
              (mkSpec "Primary Account Number" "LLVAR" "n" 19 "card")
              [3] afterPrimary 2)
    as (e & _ & _ & _ & Hstep & _ & Hcount & _);
    [reflexivity | reflexivity | by left | vm_compute; lia | reflexivity |].
  exists e. split; [exact Hstep | exact Hcount].
Defined.

(** C2 as stated fails.  In the specification's second scenario (DE 2 with
    prefix 99 against a maximum of 19, then DE 3) the rejected prefix is the
    only error and DE 3 is parsed, yet [success] is false. *)
Lemma rejected_prefix_flips_success :
  let input := lit "0100" ++ buildBitmap [2; 3] ++ lit "99" ++ lit "123456" in
  let r := parseISO8583 sampleSpecs input in
  errors r = [errLLVARInvalid 2 (lit "99") 19 20]
  ∧ map pf_de (fields r) = [3]
  ∧ success r ≠ true.
Proof. vm_compute. repeat split; discriminate. Qed.



Lemma bitmap_bit_one_witness :
  ∃ primary secondary,
    primaryBitmap (parseISO8583 sampleSpecs signOnHex) = Some primary
    ∧ bm_hasSecondary primary = true
    ∧ bm_activeFields primary = [7; 11]
    ∧ secondaryBitmap (parseISO8583 sampleSpecs signOnHex) = Some secondary
    ∧ bm_activeFields secondary = [70].
Proof.
  destruct (bitmap_bit_one sampleSpecs signOnHex)
    as (primary & Hp & Hraw & Hsec & Hact & _ & Hsecond & _);
    [reflexivity | vm_compute; lia |].
  assert (bm_hasSecondary primary = true) as Hflag
    by (rewrite Hsec, Hraw; reflexivity).
  destruct (Hsecond Hflag) as (secondary & Hs & Hraw2 & Hact2 & _);
    [vm_compute; lia|].
  exists primary, secondary. split; [exact Hp|]. split; [exact Hflag|].
  split; [rewrite Hact, Hraw; reflexivity|]. split; [exact Hs|].
  rewrite Hact2, Hraw2. reflexivity.
Defined.

Lemma well_formed_round_trip_witness :
  let r := parseISO8583 sampleSpecs (buildMessage sampleSpecs (lit "0800")
                                       sampleFields) in
  map pf_de (fields r) = [2; 7; 41; 70]
  ∧ Forall2 (decodesTo sampleSpecs) (fields r) sampleFields
  ∧ errors r = []
  ∧ success r = true.
Proof.
  apply (well_formed_round_trip sampleSpecs (lit "0800") sampleFields).
  reflexivity.
Defined.

Lemma variable_length_binary_rendered_as_text_witness :
  let M := specsWithVarBinary in
  let input := lit "0100" ++ lit "0000000000000200" ++ lit "0002" ++ lit "9F02" in
  (spec_format <$> FIELD_SPECS M !! 55) = Some (lit "LLLVAR")
  ∧ (spec_type <$> FIELD_SPECS M !! 55) = Some (lit "b")
  ∧ ∃ parsed,
      parsed ∈ fields (parseISO8583 M input)
      ∧ pf_de parsed = 55
      ∧ pf_rawHex parsed = lit "00029F02"
      ∧ pf_decodedValue parsed = lit ".."
      ∧ pf_decodedValue parsed ≠ lit "9F02".
Proof.
  intros M input. split; [reflexivity|]. split; [reflexivity|].
  destruct (variable_length_binary_rendered_as_text M (lit "0100")
              [(55, HexData 2 (lit "9F02"))] 55
              (mkSpec "ICC Data" "LLLVAR" "b" 255 "emv") 2 (lit "9F02"))
    as (_ & parsed & Hin & Hde & Hraw & Hval & Hne);
    [reflexivity | apply list_elem_of_here | reflexivity | discriminate
    | reflexivity | discriminate |].
  exists parsed. split; [exact Hin|]. split; [exact Hde|].
  split; [exact Hraw|]. split; [exact Hval | exact Hne].
Defined.

(** * Further properties of the codecs and the builders *)

(** ** [hexToAscii] and [asciiToHex] *)

Lemma asciiOfCode_printable (code : option nat) :
  isPrintable (asciiOfCode code) = true.
Proof.
  destruct code as [c|]; [|reflexivity]. unfold asciiOfCode.
  destruct ((32 <=? c) && (c <=? 126)) eqn:Hr; [|reflexivity].
  unfold isPrintable, inRange.
  apply andb_true_iff in Hr as [H1%Nat.leb_le H2%Nat.leb_le].
  rewrite nat_ascii_embedding by lia.
  apply andb_true_intro; split; apply Nat.leb_le; lia.
Qed.

(** X1. Whatever string it is given, [hexToAscii] returns one character per
    started pair of input characters, and every character it returns is
    printable ASCII (32..126): anything it cannot read as a printable byte
    becomes the dot. *)
Theorem hexToAscii_always_printable (hex : list ascii) :
  length (hexToAscii hex) = (length hex + 1) / 2
  ∧ forallb isPrintable (hexToAscii hex) = true.
Proof.
  revert hex. fix IH 1. intros [|a [|b rest]].
  - by split.
  - split; [reflexivity|]. cbn [hexToAscii forallb].
    by rewrite asciiOfCode_printable.
  - destruct (IH rest) as [Hlen Hall]. split.
    + cbn [hexToAscii length]. rewrite Hlen.
      replace (S (S (length rest)) + 1) with (length rest + 1 + 1 * 2) by lia.
      rewrite Nat.div_add by lia. lia.
    + cbn [hexToAscii forallb]. by rewrite asciiOfCode_printable, Hall.
Qed.

Lemma byte_round_trip (c : ascii) :
  asciiOfCode (parseInt16 (byteHex (nat_of_ascii c))) = printableOrDot c.
Proof. each_ascii c; by vm_compute. Qed.

(** X2. Decoding what [asciiToHex] wrote gives the text back character by
    character, except that a character outside printable ASCII comes back
    as the dot; a printable text comes back unchanged. *)
Theorem hexToAscii_after_asciiToHex (text : list ascii) :
  hexToAscii (asciiToHex text) = map printableOrDot text
  ∧ (forallb isPrintable text = true → hexToAscii (asciiToHex text) = text).
Proof.
  assert (hexToAscii (asciiToHex text) = map printableOrDot text) as H.
  { induction text as [|c text IH]; [done|].
    unfold asciiToHex. cbn [map concat]. fold (asciiToHex text).
    unfold byteHex at 1. cbn [app hexToAscii]. rewrite IH. f_equal.
    apply byte_round_trip. }
  split; [exact H|]. intros Hp. rewrite H.
  rewrite <- (map_id text) at 2. apply map_ext_in. intros c Hc.
  rewrite forallb_forall in Hp. unfold printableOrDot. by rewrite (Hp c Hc).
Qed.

Lemma hexToAscii_after_asciiToHex_witness :
  hexToAscii (asciiToHex (lit "TERM0001")) = lit "TERM0001".
Proof.
  apply (proj2 (hexToAscii_after_asciiToHex (lit "TERM0001"))). reflexivity.
Defined.

Lemma byte_value_round_trip (c : ascii) :
  hexBytes (byteHex (nat_of_ascii c)) = [nat_of_ascii c].
Proof. each_ascii c; by vm_compute. Qed.

(** X3. [asciiToHex] writes two upper-case hex digits per character, and the
    bytes they denote are the character codes: the encoding loses
    nothing. *)
Theorem asciiToHex_encoding (str : list ascii) :
  length (asciiToHex str) = 2 * length str
  ∧ forallb isUpperHex (asciiToHex str) = true
  ∧ hexBytes (asciiToHex str) = map nat_of_ascii str.
Proof.
  split; [rewrite length_asciiToHex; lia|].
  split; [apply asciiToHex_upper|].
  induction str as [|c str IH]; [done|].
  unfold asciiToHex. cbn [map concat]. fold (asciiToHex str).
  unfold byteHex at 1. cbn [app hexBytes]. rewrite IH. f_equal.
  pose proof (byte_value_round_trip c) as H. unfold byteHex in H.
  cbn [hexBytes] in H. by injection H.
Qed.

(** ** [numHex] *)

Lemma roundUpEven_cases (n : nat) :
  roundUpEven n = if negb (n mod 2 =? 0) then S n else n.
Proof.
  unfold roundUpEven. pose proof (Nat.mod_upper_bound n 2).
  destruct (n mod 2 =? 0) eqn:E;
    [apply Nat.eqb_eq in E | apply Nat.eqb_neq in E]; cbn [negb]; lia.
Qed.

(** X4. For a value no longer than [maxLen], [numHex] pads with zeros on the
    left, up to [maxLen] rounded up to an even number, which is the width
    the decoder reads for a FIXED numeric field of that maximum length.  A
    longer value is not cut: it only gets the one zero of an odd
    [maxLen]. *)
Theorem numHex_width (val : list ascii) (maxLen : nat) :
  (length val ≤ maxLen →
   numHex val maxLen
   = replicate (roundUpEven maxLen - length val) "0"%char ++ val
   ∧ length (numHex val maxLen) = roundUpEven maxLen
   ∧ ∀ spec, isNumericType (spec_type spec) = true →
       spec_maxLength spec = maxLen →
       length (numHex val maxLen) = fixedHexLen spec)
  ∧ (maxLen < length val →
     numHex val maxLen
     = if negb (maxLen mod 2 =? 0) then "0"%char :: val else val).
Proof.
  unfold numHex, padStart0. split.
  - intros Hle.
    assert (numHex val maxLen
            = replicate (roundUpEven maxLen - length val) "0"%char ++ val)
      as Hform.
    { unfold numHex, padStart0. rewrite roundUpEven_cases.
      destruct (negb (maxLen mod 2 =? 0)); [|done].
      replace (S maxLen - length val) with (S (maxLen - length val)) by lia.
      done. }
    unfold numHex, padStart0 in Hform. rewrite Hform.
    assert (length (replicate (roundUpEven maxLen - length val) "0"%char ++ val)
            = roundUpEven maxLen) as Hlen.
    { rewrite length_app, length_replicate.
      assert (maxLen ≤ roundUpEven maxLen) by (unfold roundUpEven; lia). lia. }
    split; [done|]. split; [done|].
    intros spec Hnum Hmax. rewrite Hlen, fixedHexLen_fixedWidth.
    unfold fixedWidth. by rewrite Hnum, Hmax.
  - intros Hgt. by replace (maxLen - length val) with 0 by lia.
Qed.

Lemma numHex_width_witness :
  numHex (lit "840") 3 = lit "0840" ∧ numHex (lit "12345") 4 = lit "12345".
Proof.
  split.
  - rewrite (proj1 (proj1 (numHex_width (lit "840") 3) ltac:(vm_compute; lia))).
    reflexivity.
  - rewrite (proj2 (numHex_width (lit "12345") 4) ltac:(vm_compute; lia)).
    reflexivity.
Defined.

(** ** [decodeBitmap] on any string, and after the builders *)

Lemma bitSet_head_invalid (c : ascii) (h : list ascii) (i : nat) :
  hexVal c = None → 1 ≤ i ≤ 4 → bitSet (c :: h) i = false.
Proof.
  intros Hv Hi. unfold bitSet.
  assert (i = 1 ∨ i = 2 ∨ i = 3 ∨ i = 4) as [-> | [-> | [-> | ->]]] by lia;
    cbn; by rewrite Hv.
Qed.

Lemma length_nibbleBits (c : ascii) : length (nibbleBits c) = 4.
Proof. unfold nibbleBits. by destruct (hexVal c). Qed.

Lemma activeFrom_any (h : list ascii) (k : nat) :
  activeFrom k (hexToBinary h) =
    map (fun i => k + i) (List.filter (bitSet h) (seq 1 (4 * length h))).
Proof.
  revert k. induction h as [|c h IH]; intros k; [done|].
  replace (4 * length (c :: h)) with (4 + 4 * length h) by (cbn; lia).
  rewrite seq_app, List.filter_app, map_app.
  change (1 + 4) with 5.
  replace (seq 5 (4 * length h))
    with (map (fun i => i + 4) (seq 1 (4 * length h))).
  2:{ rewrite <- (fmap_add_seq 4 1). apply map_ext. intros; lia. }
  rewrite filter_map_comm, map_map.
  rewrite (filter_ext_in (fun x => bitSet (c :: h) (x + 4)) (bitSet h)).
  2:{ intros i Hi%in_seq. apply bitSet_tail. lia. }
  unfold hexToBinary. cbn [map concat]. fold (hexToBinary h).
  rewrite (map_ext (fun x => k + (x + 4)) (fun i => S (S (S (S k))) + i))
    by (intros; lia).
  rewrite <- (IH (S (S (S (S k))))).
  unfold nibbleBits. destruct (hexVal c) as [v|] eqn:Hv.
  - cbn [map app activeFrom seq List.filter].
    rewrite !bool_decide_bitChar.
    rewrite !(bitSet_head c h v) by (done || lia).
    change (4 - 1) with 3. change (4 - 2) with 2. change (4 - 3) with 1.
    change (4 - 4) with 0.
    generalize (activeFrom (S (S (S (S k)))) (hexToBinary h)). intros tl.
    destruct (Nat.testbit v 3), (Nat.testbit v 2), (Nat.testbit v 1),
      (Nat.testbit v 0); cbn [map app];
      repeat (f_equal; try lia).
  - cbn [seq List.filter].
    rewrite !(bitSet_head_invalid c h) by (done || lia). reflexivity.
Qed.

Lemma ascending_seq (a n : nat) : ascending (seq a n) = true.
Proof.
  revert a. induction n as [|n IH]; intros a; [done|].
  cbn [seq]. specialize (IH (S a)). destruct n as [|n]; [done|].
  cbn [seq ascending] in *. rewrite IH, andb_true_r. apply Nat.ltb_lt. lia.
Qed.

(** X5. On any string at all, [decodeBitmap] returns four binary characters
    per input character, and its active fields are exactly the positions of
    the set bits of the hex digits, in ascending order; a character that is
    not a hex digit contributes no active field. *)
Theorem decodeBitmap_any_string (hexStr : list ascii) :
  (decodeBitmap hexStr).1
  = List.filter (bitSet hexStr) (seq 1 (4 * length hexStr))
  ∧ length (decodeBitmap hexStr).2 = 4 * length hexStr
  ∧ ascending (decodeBitmap hexStr).1 = true
  ∧ Forall (fun f => 1 ≤ f ≤ 4 * length hexStr) (decodeBitmap hexStr).1.
Proof.
  assert ((decodeBitmap hexStr).1
          = List.filter (bitSet hexStr) (seq 1 (4 * length hexStr))) as H.
  { unfold decodeBitmap. cbn [fst]. rewrite activeFrom_any.
    rewrite (map_ext _ id) by done. by rewrite map_id. }
  split; [exact H|]. split.
  - unfold decodeBitmap, hexToBinary. cbn [snd].
    rewrite (length_concat_map_const _ _ 4); [lia|]. apply length_nibbleBits.
  - rewrite H. split; [apply ascending_filter, ascending_seq|].
    apply Forall_forall. intros f Hf.
    apply list_elem_of_In, filter_In in Hf as [Hf%in_seq _]. lia.
Qed.

(** X6. Reading back what [buildBitmap] wrote gives exactly the requested
    fields that lie in 1..64, in ascending order and once each: fields
    outside the range are dropped, repetitions and order do not matter.  A
    list that is already ascending and in range comes back unchanged. *)
Theorem decodeBitmap_after_buildBitmap (fields : list nat) :
  (decodeBitmap (buildBitmap fields)).1 = bitmapFields fields
  ∧ (∀ f, f ∈ (decodeBitmap (buildBitmap fields)).1 ↔
          1 ≤ f ≤ 64 ∧ f ∈ fields)
  ∧ (ascending fields = true → Forall (fun f => 1 ≤ f ≤ 64) fields →
     (decodeBitmap (buildBitmap fields)).1 = fields).
Proof.
  pose proof (decodeBitmap_buildBitmap fields) as H.
  split; [exact H|]. split.
  - intros f. rewrite H, list_elem_of_In, filter_In, in_seq.
    rewrite bool_decide_eq_true. split; intros [? ?]; split; (done || lia).
  - intros Hasc Hrange. rewrite H. apply filter_member_ascending; [done|].
    eapply Forall_impl; [exact Hrange|]. cbn. intros; lia.
Qed.

Lemma decodeBitmap_after_buildBitmap_witness :
  (decodeBitmap (buildBitmap [7; 11; 41])).1 = [7; 11; 41].
Proof.
  apply (proj2 (proj2 (decodeBitmap_after_buildBitmap [7; 11; 41])));
    [reflexivity | repeat constructor; lia].
Defined.

Lemma memberBits_bitmapFields (fields : list nat) :
  memberBits 1 (bitmapFields fields) = memberBits 1 fields.
Proof.
  unfold memberBits. apply map_ext_in. intros j Hj%in_seq.
  apply bool_decide_ext. unfold bitmapFields.
  rewrite list_elem_of_In, filter_In, in_seq, bool_decide_eq_true.
  split; [tauto|]. intros ?. split; [lia|done].
Qed.

(** X7. [buildBitmap] always returns 16 upper-case hex digits, and it
    depends only on which of the numbers 1..64 are requested: the list of
    fields and its ascending, repetition-free, in-range version give the
    same bitmap. *)
Theorem buildBitmap_shape (fields : list nat) :
  length (buildBitmap fields) = 16
  ∧ forallb isUpperHex (buildBitmap fields) = true
  ∧ buildBitmap (bitmapFields fields) = buildBitmap fields.
Proof.
  split; [apply length_buildBitmap|]. split; [apply buildBitmap_upper|].
  unfold buildBitmap. rewrite !buildBitmap_bits.
  by rewrite memberBits_bitmapFields.
Qed.

Lemma bitSet_app_first (a b : list ascii) :
  a ≠ [] → bitSet (a ++ b) 1 = bitSet a 1.
Proof. by destruct a. Qed.

Lemma bitSet_buildBitmap_first (fields : list nat) :
  bitSet (buildBitmap fields) 1 = bool_decide (1 ∈ fields).
Proof.
  rewrite <- decodeBitmap_buildBitmap_first.
  symmetry. apply decodeBitmap_first_bit.
  - apply forallb_upper_hex, buildBitmap_upper.
  - intros E. pose proof (length_buildBitmap fields) as H. by rewrite E in H.
Qed.

(** X8. [buildDualBitmap] returns one bitmap (16 hex digits) when no field
    is above 64 and two (32 hex digits) as soon as one is, fields above 128
    included; bit 1 of the primary bitmap is set exactly when a field above
    64 was requested or field 1 itself was. *)
Theorem buildDualBitmap_shape (fields : list nat) :
  length (buildDualBitmap fields)
  = (if existsb (fun f => 64 <? f) fields then 32 else 16)
  ∧ forallb isUpperHex (buildDualBitmap fields) = true
  ∧ bitSet (buildDualBitmap fields) 1
    = existsb (fun f => 64 <? f) fields || bool_decide (1 ∈ fields).
Proof.
  assert (∀ l : list nat,
            existsb (fun f => 64 <? f) l
            = negb (length (List.filter (fun f => 64 <? f) l) =? 0)) as Hex.
  { induction l as [|x l IH]; [done|]. cbn [existsb List.filter].
    destruct (64 <? x); [done|]. by rewrite IH. }
  assert (bool_decide (1 ∈ List.filter (fun f => f <=? 64) fields)
          = bool_decide (1 ∈ fields)) as H1.
  { apply bool_decide_ext. rewrite list_elem_of_In, filter_In.
    rewrite <- list_elem_of_In. split; [tauto|]. by intros ?. }
  split; [|split; [apply buildDualBitmap_upper|]].
  - rewrite Hex. unfold buildDualBitmap.
    destruct (length (List.filter (fun f => 64 <? f) fields) =? 0) eqn:E;
      cbn [negb]; [apply length_buildBitmap|].
    by rewrite length_app, length_buildBitmap, length_bitsToHex.
  - rewrite Hex. unfold buildDualBitmap. rewrite H1.
    destruct (List.filter (fun f => 64 <? f) fields) as [|s l] eqn:E;
      cbn [length Nat.eqb Nat.ltb Nat.leb negb andb orb].
    + rewrite bitSet_buildBitmap_first. exact H1.
    + rewrite bitSet_app_first.
      2:{ intros E'. pose proof (length_buildBitmap
            (if negb (bool_decide (1 ∈ fields))
             then List.filter (fun f => f <=? 64) fields ++ [1]
             else List.filter (fun f => f <=? 64) fields)) as H.
          by rewrite E' in H. }
      rewrite bitSet_buildBitmap_first.
      destruct (bool_decide (1 ∈ fields)) eqn:B; cbn [negb].
      * by rewrite H1.
      * apply bool_decide_eq_true_2, elem_of_app. right.
        apply list_elem_of_here.
Qed.

(** * Further properties of the decoder *)

(** ** The MTI *)

Lemma byteHex_digit (d : ascii) :
  isDigit d = true → byteHex (nat_of_ascii d) = ["3"%char; d].
Proof. each_ascii d; by vm_compute. Qed.

Lemma mtiString_four (s : list ascii) : length s = 4 → mtiString s = s.
Proof.
  intros H. rewrite mtiString_logicalMTI. unfold logicalMTI.
  rewrite textDigits_short by lia. apply take_ge. lia.
Qed.

Lemma decodeMTI_mtiString (M : fieldSpecs) (a b : list ascii) :
  mtiString a = mtiString b → decodeMTI M a = decodeMTI M b.
Proof. unfold decodeMTI. by intros ->. Qed.

(** X9. An MTI of four decimal digits written as text through [asciiToHex]
    (eight hex characters, possibly followed by more) is decoded exactly as
    the four digits themselves. *)
Theorem decodeMTI_text_encoded (M : fieldSpecs) (ds rest : list ascii) :
  isFourDigits ds = true →
  mti_raw (decodeMTI M (asciiToHex ds ++ rest)) = ds
  ∧ decodeMTI M (asciiToHex ds ++ rest) = decodeMTI M ds.
Proof.
  intros Hds. pose proof Hds as Hds'. unfold isFourDigits in Hds'.
  apply andb_true_iff in Hds' as [Hlen%Nat.eqb_eq Hdig].
  destruct ds as [|d0 [|d1 [|d2 [|d3 [|? ?]]]]]; try discriminate.
  cbn [forallb] in Hdig.
  apply andb_true_iff in Hdig as [H0 Hdig].
  apply andb_true_iff in Hdig as [H1 Hdig].
  apply andb_true_iff in Hdig as [H2 Hdig].
  apply andb_true_iff in Hdig as [H3 _].
  assert (mtiString (asciiToHex [d0; d1; d2; d3] ++ rest) = [d0; d1; d2; d3])
    as Htext.
  { rewrite mtiString_logicalMTI. unfold logicalMTI, textDigits, asciiToHex.
    cbn [map concat]. rewrite !byteHex_digit by done.
    cbn [app take forallb].
    rewrite !(bool_decide_eq_true_2 ("3"%char = "3"%char)) by done.
    cbn [andb]. by rewrite H0, H1, H2, H3. }
  assert (decodeMTI M (asciiToHex [d0; d1; d2; d3] ++ rest)
          = decodeMTI M [d0; d1; d2; d3]) as Heq.
  { apply decodeMTI_mtiString. rewrite Htext. symmetry.
    by apply mtiString_four. }
  split; [|exact Heq]. rewrite Heq. unfold decodeMTI. cbn [mti_raw].
  by apply mtiString_four.
Qed.

Lemma decodeMTI_text_encoded_witness :
  mti_raw (decodeMTI sampleSpecs (lit "30383030")) = lit "0800".
Proof.
  apply (proj1 (decodeMTI_text_encoded sampleSpecs (lit "0800") [] eq_refl)).
Defined.

(** ** Normalization *)

Lemma toUpperChar_stable (c : ascii) :
  isSpace c = false →
  isSpace (toUpperChar c) = false
  ∧ toUpperChar (toUpperChar c) = toUpperChar c
  ∧ inRange 97 122 (toUpperChar c) = false.
Proof. each_ascii c; by vm_compute. Qed.

Lemma normalize_clean (s : list ascii) :
  Forall (fun c => isSpace c = false ∧ toUpperChar c = c
                   ∧ inRange 97 122 c = false) (normalize s).
Proof.
  unfold normalize, toUpperCase. apply Forall_forall. intros c Hc.
  apply list_elem_of_In, in_map_iff in Hc as (c0 & <- & Hc0).
  apply filter_In in Hc0 as [_ Hsp%negb_true_iff].
  by destruct (toUpperChar_stable c0 Hsp) as (? & ? & ?).
Qed.

Lemma normalize_idempotent (s : list ascii) : normalize (normalize s) = normalize s.
Proof.
  pose proof (normalize_clean s) as Hc. rewrite Forall_forall in Hc.
  generalize dependent (normalize s). intros t Hc.
  unfold normalize, toUpperCase. rewrite filter_all_true.
  - rewrite <- (map_id t) at 2. apply map_ext_in. intros c Hin.
    apply list_elem_of_In in Hin. by destruct (Hc c Hin) as (_ & ? & _).
  - intros c Hin. apply list_elem_of_In in Hin.
    destruct (Hc c Hin) as (Hsp & _). by rewrite Hsp.
Qed.

(** X10. The decoder does not see white space or letter case: normalizing
    twice changes nothing, the normalized input holds no white space and no
    lower-case letter, and decoding an input or its normalized form gives
    the same result. *)
Theorem parse_ignores_space_and_case (M : fieldSpecs) (inputHex : list ascii) :
  normalize (normalize inputHex) = normalize inputHex
  ∧ forallb (fun c => negb (isSpace c) && negb (inRange 97 122 c))
      (normalize inputHex) = true
  ∧ parseISO8583 M (normalize inputHex) = parseISO8583 M inputHex.
Proof.
  split; [apply normalize_idempotent|]. split.
  - apply forallb_forall. intros c Hc%list_elem_of_In.
    pose proof (normalize_clean inputHex) as H. rewrite Forall_forall in H.
    destruct (H c Hc) as (-> & _ & ->). reflexivity.
  - unfold parseISO8583. by rewrite normalize_idempotent.
Qed.

(** ** What the loop only adds to *)

Lemma fieldStep_segments (M : fieldSpecs) (hex : list ascii) (fieldNum : nat)
    (st : LoopState) :
  ∃ ss,
    st_hexSegments (flowState (fieldStep M hex fieldNum st))
    = st_hexSegments st ++ ss.
Proof.
  assert (∃ ss, st_hexSegments st = st_hexSegments st ++ ss) as Hnil
    by (exists []; by rewrite app_nil_r).
  unfold fieldStep, parseFixed, parseVar.
  repeat (case_match; cbn; try done); simplify_eq; cbn; eauto.
Qed.

Lemma fieldLoop_segments (M : fieldSpecs) (hex : list ascii)
    (allActiveFields : list nat) (st : LoopState) :
  ∃ ss,
    st_hexSegments (fieldLoop M hex allActiveFields st)
    = st_hexSegments st ++ ss.
Proof.
  revert st. induction allActiveFields as [|fieldNum rest IH]; intros st.
  - exists []. by rewrite app_nil_r.
  - cbn [fieldLoop].
    destruct (fieldStep_segments M hex fieldNum st) as [s1 H1].
    destruct (fieldStep M hex fieldNum st) as [st'|st']; cbn in H1.
    + destruct (IH st') as [s2 H2]. exists (s1 ++ s2).
      by rewrite H2, H1, app_assoc.
    + by exists s1.
Qed.

Lemma trailingCheck_segments (hex : list ascii) (st : LoopState) :
  ∃ ss, st_hexSegments (trailingCheck hex st) = st_hexSegments st ++ ss.
Proof.
  unfold trailingCheck. case_match; cbn; eauto.
  exists []. by rewrite app_nil_r.
Qed.

(** The three ways [parseBody] enters the loop. *)
Lemma parseBody_cases (M : fieldSpecs) (hex : list ascii) (mtiInfo : MTIInfo)
    (mtiSegment : HexSegment) :
  let primary := primaryBitmapInfo hex 4 in
  let primarySeg :=
    bitmapSegment (lit "Primary Bitmap") (bm_rawHex primary) 4 in
  ∃ secondary allActiveFields st0,
    parseBody M hex mtiInfo mtiSegment 4
    = finishParse hex mtiInfo primary secondary
        (fieldLoop M hex allActiveFields st0)
    ∧ st_fields st0 = []
    ∧ (∃ ss, st_hexSegments st0 = mtiSegment :: primarySeg :: ss
             ∧ Forall (fun s => seg_de s = None) ss)
    ∧ (allActiveFields = bm_activeFields primary
       ∨ allActiveFields
         = bm_activeFields primary
           ++ bm_activeFields (secondaryBitmapInfo hex 20)).
Proof.
  intros primary primarySeg. unfold parseBody. fold primary. cbv zeta.
  destruct (bm_hasSecondary primary).
  - destruct (length hex <? 4 + 16 + 16).
    + eexists _, _, _. split; [reflexivity|]. split; [done|].
      split; [exists []; by split|]. by left.
    + eexists _, _, _. split; [reflexivity|]. split; [done|].
      split; [eexists [_]; split; [reflexivity|by repeat constructor]|].
      by right.
  - eexists _, _, _. split; [reflexivity|]. split; [done|].
    split; [exists []; by split|]. by left.
Qed.

(** X11. For every input that passes the two fatal checks, the MTI of the
    result is decoded from the first four characters of the normalized
    input and its [raw] is those four characters: the text-encoded reading
    of [decodeMTI] never applies inside the decoder.  The first segment of
    the result is the MTI segment over positions 0 to 4. *)
Theorem parse_mti_is_first_four (M : fieldSpecs) (inputHex : list ascii) :
  let hex := normalize inputHex in
  let r := parseISO8583 M inputHex in
  testHex hex = true → 4 ≤ length hex →
  mti r = Some (decodeMTI M (take 4 hex))
  ∧ mti_raw (decodeMTI M (take 4 hex)) = take 4 hex
  ∧ head (hexSegments r)
    = Some {| seg_hex := take 4 hex; seg_label := lit "MTI: " ++ take 4 hex;
              seg_category := lit "mti"; seg_startPos := 0; seg_endPos := 4;
              seg_de := None |}.
Proof.
  intros hex r Hvalid Hlen. subst r.
  assert (mti_raw (decodeMTI M (take 4 hex)) = take 4 hex) as Hraw.
  { unfold decodeMTI. cbn [mti_raw]. apply mtiString_four.
    rewrite length_take. lia. }
  rewrite parseISO8583_valid by done. fold hex. cbv zeta.
  rewrite substring_prefix, Hraw.
  destruct (length hex <? 20); [by repeat split|].
  set (mtiSegment := Build_HexSegment _ _ _ _ _ _).
  destruct (parseBody_cases M hex (decodeMTI M (take 4 hex)) mtiSegment)
    as (secondary & active & st0 & -> & _ & (ss & Hsegs & _) & _).
  unfold finishParse. cbn [mti hexSegments]. split_and!; [done..|].
  destruct (trailingCheck_segments hex (fieldLoop M hex active st0)) as [s2 ->].
  destruct (fieldLoop_segments M hex active st0) as [s1 ->].
  by rewrite Hsegs.
Qed.

Lemma parse_mti_is_first_four_witness :
  mti_raw <$> mti (parseISO8583 sampleSpecs (lit "3038 3030 abcd"))
  = Some (lit "3038").
Proof.
  destruct (parse_mti_is_first_four sampleSpecs (lit "3038 3030 abcd"))
    as (Hm & Hraw & _); [reflexivity | vm_compute; lia |].
  rewrite Hm. cbn [fmap option_fmap option_map]. rewrite Hraw.
  reflexivity.
Defined.

(** ** The errors and [success] *)

Lemma startsWith_app (needle a b : list ascii) :
  startsWith needle a = true → startsWith needle (a ++ b) = true.
Proof.
  revert a. induction needle as [|c needle IH]; intros a; [done|].
  destruct a as [|x a]; [done|]. cbn [startsWith app].
  intros [-> H]%andb_true_iff. by rewrite IH.
Qed.

Lemma includes_startsWith (needle s : list ascii) :
  startsWith needle s = true → includes needle s = true.
Proof. destruct s; cbn [includes]; by intros ->. Qed.

Lemma errNoSpec_excluded (fieldNum : nat) :
  countsAgainstSuccess (errNoSpec fieldNum) = false.
Proof.
  unfold countsAgainstSuccess, errNoSpec. cbn [message].
  rewrite (includes_startsWith (lit "No spec")); [done|].
  by apply startsWith_app.
Qed.

Lemma errUnparsed_excluded (count pos : nat) :
  countsAgainstSuccess (errUnparsed count pos) = false.
Proof.
  unfold countsAgainstSuccess, errUnparsed. cbn [message].
  rewrite (includes_app_r (lit "unparsed")) by reflexivity.
  apply andb_false_r.
Qed.

Lemma errRanOut_counts (fieldNum pos : nat) :
  countsAgainstSuccess (errRanOut fieldNum pos) = true.
Proof.
  destruct (no_marker_showNat fieldNum) as [HfN Hfu].
  unfold countsAgainstSuccess, errRanOut. cbn [message].
  change (lit "No spec") with ("N"%char :: lit "o spec").
  change (lit "unparsed") with ("u"%char :: "n"%char :: lit "parsed").
  rewrite includes_absent by (rewrite !forallb_app, HfN; reflexivity).
  change (lit "Ran out of data at DE " ++ showNat fieldNum ++ lit ".")
    with (lit "Ran o"
          ++ "u"%char :: "t"%char
             :: (lit " of data at DE " ++ showNat fieldNum ++ lit ".")).
  rewrite (includes_skip "u" _ (lit "Ran o")) by reflexivity.
  rewrite includes_mismatch by done.
  change ("t"%char :: (lit " of data at DE " ++ showNat fieldNum ++ lit "."))
    with (lit "t of data at DE " ++ showNat fieldNum ++ lit ".").
  rewrite includes_absent by (rewrite !forallb_app, Hfu; reflexivity).
  reflexivity.
Qed.

(** An error whose message is DE, the field number and a fixed text counts
    or not as the fixed text decides. *)
Lemma field_message_counts (fieldNum : nat) (text : list ascii)
    (pos fld : option nat) :
  includes (lit "No spec") text = false →
  includes (lit "unparsed") text = false →
  countsAgainstSuccess
    {| message := lit "DE " ++ showNat fieldNum ++ text;
       position := pos; field := fld |} = true.
Proof.
  intros HN Hu. destruct (no_marker_showNat fieldNum) as [HfN Hfu].
  unfold countsAgainstSuccess. cbn [message].
  change (lit "No spec") with ("N"%char :: lit "o spec") in *.
  change (lit "unparsed") with ("u"%char :: lit "nparsed") in *.
  rewrite !(includes_skip _ _ (lit "DE ")) by reflexivity.
  rewrite !(includes_skip _ _ (showNat fieldNum)) by done.
  by rewrite HN, Hu.
Qed.

(** X12. Which errors the final [success] computation counts.  The
    missing-specification error and the trailing-data error never count,
    whatever field number or character count their message holds; every
    other error the decoder can log counts, whatever numbers and (hex)
    length prefix its message holds. *)
Theorem error_classification (fieldNum pos hexLen remain count maxLength : nat)
    (lenStr : list ascii) :
  forallb isHexChar lenStr = true →
  countsAgainstSuccess (errNoSpec fieldNum) = false
  ∧ countsAgainstSuccess (errUnparsed count pos) = false
  ∧ countsAgainstSuccess errInputTooShort = true
  ∧ countsAgainstSuccess errInvalidChars = true
  ∧ countsAgainstSuccess (errPrimaryTooShort pos) = true
  ∧ countsAgainstSuccess (errSecondaryTooShort pos) = true
  ∧ countsAgainstSuccess (errRanOut fieldNum pos) = true
  ∧ countsAgainstSuccess (errFixedShort fieldNum hexLen remain pos) = true
  ∧ countsAgainstSuccess (errVarShort fieldNum hexLen remain pos) = true
  ∧ countsAgainstSuccess (errLLVARPrefix fieldNum pos) = true
  ∧ countsAgainstSuccess (errLLLVARPrefix fieldNum pos) = true
  ∧ countsAgainstSuccess (errLLVARInvalid fieldNum lenStr maxLength pos) = true
  ∧ countsAgainstSuccess (errLLLVARInvalid fieldNum lenStr pos) = true.
Proof.
  intros Hlen.
  split; [apply errNoSpec_excluded|]. split; [apply errUnparsed_excluded|].
  do 4 (split; [reflexivity|]).
  split; [apply errRanOut_counts|]. split; [apply errFixedShort_counts|].
  split; [apply errVarShort_counts|].
  split; [by apply field_message_counts|].
  split; [by apply field_message_counts|].
  split; [by apply errLLVARInvalid_counts | by apply errLLLVARInvalid_counts].
Qed.

Lemma error_classification_witness :
  countsAgainstSuccess (errNoSpec 5) = false
  ∧ countsAgainstSuccess (errLLVARInvalid 2 (lit "9A") 19 20) = true.
Proof.
  destruct (error_classification 5 20 0 0 0 19 (lit "9A") eq_refl)
    as (H1 & _ & _ & _ & _ & _ & _ & _ & _ & _ & _ & _ & _).
  destruct (error_classification 2 20 0 0 0 19 (lit "9A") eq_refl)
    as (_ & _ & _ & _ & _ & _ & _ & _ & _ & _ & _ & H2 & _).
  exact (conj H1 H2).
Defined.

(** X13. The shape of every result, whatever the input: without an error
    the result is a success; a success has an MTI; fields, segments and
    bitmaps only come with an MTI, and then there is exactly one error; a
    secondary bitmap and fields only come with a primary bitmap, and a
    primary bitmap only when the normalized input has 20 characters or
    more. *)
Theorem result_shape (M : fieldSpecs) (inputHex : list ascii) :
  let r := parseISO8583 M inputHex in
  (errors r = [] → success r = true)
  ∧ (success r = true → is_Some (mti r))
  ∧ (mti r = None →
     primaryBitmap r = None ∧ fields r = [] ∧ hexSegments r = []
     ∧ length (errors r) = 1)
  ∧ (primaryBitmap r = None → secondaryBitmap r = None ∧ fields r = [])
  ∧ (is_Some (primaryBitmap r) → 20 ≤ length (normalize inputHex)).
Proof.
  intros r. subst r. unfold parseISO8583.
  destruct (bool_decide (normalize inputHex = [])
            || (length (normalize inputHex) <? 4)) eqn:Hshort.
  { cbn. split_and!; try done; try by intros [? ?]. }
  destruct (testHex (normalize inputHex)) eqn:Hvalid; cbn [negb].
  2:{ cbn. split_and!; try done; try by intros [? ?]. }
  cbv zeta.
  destruct (length (normalize inputHex) <? 0 + 4 + 16) eqn:H20.
  { cbn. split_and!; try done; try by intros [? ?]. }
  apply Nat.ltb_ge in H20.
  set (mtiInfo := decodeMTI M _).
  set (mtiSegment := Build_HexSegment _ _ _ _ _ _).
  change (0 + 4) with 4.
  destruct (parseBody_cases M (normalize inputHex) mtiInfo mtiSegment)
    as (secondary & active & st0 & -> & _ & _ & _).
  unfold finishParse. cbn [success errors mti primaryBitmap secondaryBitmap
    fields hexSegments].
  split_and!; try done; try (by intros ->); intros _; lia.
Qed.

Lemma result_shape_witness :
  success (parseISO8583 sampleSpecs signOnHex) = true.
Proof.
  apply (proj1 (result_shape sampleSpecs signOnHex)). reflexivity.
Defined.

(** ** Fields without a specification *)

Lemma successOf_app_excluded (es extra : list ParseError) :
  Forall (fun e => countsAgainstSuccess e = false) extra →
  successOf (es ++ extra) = successOf es.
Proof.
  intros H. unfold successOf. rewrite List.filter_app.
  rewrite (filter_none countsAgainstSuccess extra).
  - by rewrite app_nil_r.
  - intros e He%list_elem_of_In. rewrite Forall_forall in H. by apply H.
Qed.

(** X14. Active fields that have no specification consume nothing and emit
    nothing: the loop only logs one missing-specification error per field,
    in order, and these errors leave [success] as it was. *)
Theorem unspecified_fields_skipped (M : fieldSpecs) (hex : list ascii)
    (fieldNums : list nat) (st : LoopState) :
  Forall (fun f => FIELD_SPECS M !! f = None) fieldNums →
  let final := fieldLoop M hex fieldNums st in
  st_pos final = st_pos st
  ∧ st_fields final = st_fields st
  ∧ st_hexSegments final = st_hexSegments st
  ∧ st_errors final = st_errors st ++ map errNoSpec fieldNums
  ∧ successOf (st_errors final) = successOf (st_errors st).
Proof.
  intros Hnone final.
  assert (final = appendErrors (map errNoSpec fieldNums) st) as ->.
  { subst final. revert st.
    induction Hnone as [|f fs Hf _ IH]; intros st.
    - cbn. by rewrite appendErrors_nil.
    - cbn [fieldLoop map]. rewrite fieldStep_no_spec by done. rewrite IH.
      unfold appendErrors, pushError. cbn. by rewrite <- app_assoc. }
  cbn. split_and!; try done. apply successOf_app_excluded.
  apply Forall_forall. intros e He.
  apply list_elem_of_In, in_map_iff in He as (f & <- & _).
  apply errNoSpec_excluded.
Qed.

Lemma unspecified_fields_skipped_witness :
  st_errors (fieldLoop sampleSpecs (lit "0100") [5; 6] afterPrimary)
  = [errNoSpec 5; errNoSpec 6].
Proof.
  destruct (unspecified_fields_skipped sampleSpecs (lit "0100") [5; 6]
              afterPrimary) as (_ & _ & _ & H & _).
  - repeat constructor.
  - exact H.
Defined.

(** ** Hard stops *)

(** X15. The loop stops for good, without looking at any later active
    field, when a field with a specification finds the cursor at the end of
    the stream, or when it is an LLVAR (LLLVAR) field and fewer than 2 (4)
    characters are left for its length prefix.  One error is logged for the
    field, it counts against [success], and the cursor does not move. *)
Theorem loop_hard_stop (M : fieldSpecs) (hex : list ascii) (fieldNum : nat)
    (spec : FieldSpec) (rest : list nat) (st : LoopState) :
  FIELD_SPECS M !! fieldNum = Some spec →
  length hex ≤ st_pos st
  ∨ (st_pos st < length hex
     ∧ (spec_format spec = lit "LLVAR" ∧ length hex < st_pos st + 2
        ∨ spec_format spec = lit "LLLVAR" ∧ length hex < st_pos st + 4)) →
  ∃ e,
    fieldLoop M hex (fieldNum :: rest) st = pushError e st
    ∧ field e = Some fieldNum ∧ position e = Some (st_pos st)
    ∧ countsAgainstSuccess e = true.
Proof.
  intros Hspec [Hend | [Hlt [[Hfmt Hshort] | [Hfmt Hshort]]]].
  - exists (errRanOut fieldNum (st_pos st)). cbn [fieldLoop].
    rewrite (fieldStep_ran_out M hex fieldNum spec st) by done.
    split_and!; try done. apply errRanOut_counts.
  - exists (errLLVARPrefix fieldNum (st_pos st)). cbn [fieldLoop].
    rewrite (fieldStep_llvar M hex fieldNum spec st) by done.
    unfold parseVar. rewrite (proj2 (Nat.ltb_lt _ _)) by done.
    split_and!; try done. by apply field_message_counts.
  - exists (errLLLVARPrefix fieldNum (st_pos st)). cbn [fieldLoop].
    rewrite (fieldStep_lllvar M hex fieldNum spec st) by done.
    unfold parseVar. rewrite (proj2 (Nat.ltb_lt _ _)) by done.
    split_and!; try done. by apply field_message_counts.
Qed.

Lemma loop_hard_stop_witness :
  ∃ e,
    fieldLoop sampleSpecs (lit "0100" ++ buildBitmap [2; 3] ++ lit "1") [2; 3]
      afterPrimary
    = pushError e afterPrimary
    ∧ countsAgainstSuccess e = true.
Proof.
  destruct (loop_hard_stop sampleSpecs
              (lit "0100" ++ buildBitmap [2; 3] ++ lit "1") 2
              (mkSpec "Primary Account Number" "LLVAR" "n" 19 "card") [3]
              afterPrimary)
    as (e & Hloop & _ & _ & Hcount).
  - reflexivity.
  - right. split; [vm_compute; lia|]. left. split; [reflexivity|].
    vm_compute; lia.
  - exists e. split; [exact Hloop | exact Hcount].
Defined.

(** ** A secondary bitmap that is announced but missing *)

(** X16. When bit 1 of the primary bitmap is set and fewer than 16 hex
    characters follow it, the result has the primary bitmap and no
    secondary one, its first error is the one for the missing secondary
    bitmap, and [success] is false. *)
Theorem secondary_bitmap_shortfall (M : fieldSpecs) (inputHex : list ascii) :
  let hex := normalize inputHex in
  let r := parseISO8583 M inputHex in
  testHex hex = true → 20 ≤ length hex → length hex < 36 →
  bitSet (substring hex 4 20) 1 = true →
  primaryBitmap r = Some (primaryBitmapInfo hex 4)
  ∧ secondaryBitmap r = None
  ∧ head (errors r) = Some (errSecondaryTooShort 20)
  ∧ success r = false.
Proof.
  intros hex r Hvalid Hlen Hshort Hbit. subst r.
  assert (4 ≤ length hex) as Hlen4 by lia.
  rewrite parseISO8583_valid by done. fold hex. cbv zeta.
  rewrite (proj2 (Nat.ltb_ge _ _)) by done.
  assert (bm_hasSecondary (primaryBitmapInfo hex 4) = true) as Hsec.
  { unfold primaryBitmapInfo. cbn [bm_hasSecondary]. change (4 + 16) with 20.
    rewrite decodeBitmap_first_bit; [done|..].
    - by apply forallb_substring, testHex_forallb.
    - intros E. pose proof (length_substring hex 4 20) as Hl.
      rewrite E in Hl. cbn in Hl. lia. }
  unfold parseBody. cbv zeta. rewrite Hsec.
  change (4 + 16 + 16) with 36. rewrite (proj2 (Nat.ltb_lt _ _)) by done.
  unfold finishParse. cbn [primaryBitmap secondaryBitmap errors success].
  set (st0 := Build_LoopState _ _ _ _).
  destruct (trailingCheck_errors hex
              (fieldLoop M hex (bm_activeFields (primaryBitmapInfo hex 4)) st0))
    as [e2 ->].
  destruct (fieldLoop_errors M hex
              (bm_activeFields (primaryBitmapInfo hex 4)) st0) as [e1 ->].
  subst st0. cbn [st_errors app]. by split_and!.
Qed.

Lemma secondary_bitmap_shortfall_witness :
  let r := parseISO8583 sampleSpecs
             (lit "0800" ++ lit "8000000000000000" ++ lit "1234") in
  secondaryBitmap r = None ∧ success r = false.
Proof.
  destruct (secondary_bitmap_shortfall sampleSpecs
              (lit "0800" ++ lit "8000000000000000" ++ lit "1234"))
    as (_ & Hs & _ & Hf);
    [reflexivity | vm_compute; lia | vm_compute; lia | reflexivity |].
  exact (conj Hs Hf).
Defined.

(** ** The parsed fields *)

Lemma ascending_cons (x : nat) (l : list nat) :
  Forall (fun y => x < y) l → ascending l = true → ascending (x :: l) = true.
Proof.
  destruct l as [|y l]; [done|]. intros [Hxy _]%Forall_cons Hl.
  cbn [ascending] in *. rewrite Hl, andb_true_r. by apply Nat.ltb_lt.
Qed.

Lemma ascending_app_l (a b : list nat) :
  ascending (a ++ b) = true → ascending a = true.
Proof.
  induction a as [|x a IH]; [done|]. cbn [app]. intros H.
  pose proof (ascending_lower _ _ H) as Hlow.
  apply Forall_app in Hlow as [Hlow _].
  apply ascending_cons; [done|]. apply IH. by eapply ascending_tail.
Qed.

Lemma ascending_drop_middle (a b : list nat) (x : nat) :
  ascending (a ++ x :: b) = true → ascending (a ++ b) = true.
Proof.
  induction a as [|y a IH]; cbn [app]; intros H.
  - by eapply ascending_tail.
  - pose proof (ascending_lower _ _ H) as Hlow.
    apply Forall_app in Hlow as [Hl1 [_ Hl2]%Forall_cons].
    apply ascending_cons; [by apply Forall_app|].
    apply IH. by eapply ascending_tail.
Qed.

Lemma ascending_app (a b : list nat) :
  ascending a = true → ascending b = true →
  (∀ x y, x ∈ a → y ∈ b → x < y) → ascending (a ++ b) = true.
Proof.
  induction a as [|x a IH]; intros Ha Hb Hab; [done|]. cbn [app].
  apply ascending_cons.
  - apply Forall_app. split; [by apply ascending_lower|].
    apply Forall_forall. intros y Hy. apply Hab; [apply list_elem_of_here|done].
  - apply IH; [by eapply ascending_tail | done |].
    intros ? ? ? ?. apply Hab; [by apply list_elem_of_further|done].
Qed.

Lemma ascending_map_add (k : nat) (l : list nat) :
  ascending l = true → ascending (map (fun f => f + k) l) = true.
Proof.
  induction l as [|x l IH]; [done|]. intros H. cbn [map].
  apply ascending_cons; [|apply IH; by eapply ascending_tail].
  apply Forall_forall. intros y Hy.
  apply list_elem_of_In, in_map_iff in Hy as (z & <- & Hz).
  pose proof (ascending_lower _ _ H) as Hlow. rewrite Forall_forall in Hlow.
  apply list_elem_of_In in Hz. specialize (Hlow z Hz). cbn beta in Hlow. lia.
Qed.

(** The active fields the decoder loops over are ascending and lie in
    2..128, whatever the bitmaps hold. *)
Lemma active_fields_ascending (hex : list ascii) :
  let primary := bm_activeFields (primaryBitmapInfo hex 4) in
  let secondary := bm_activeFields (secondaryBitmapInfo hex 20) in
  ascending primary = true ∧ Forall (fun f => 2 ≤ f ≤ 64) primary
  ∧ ascending secondary = true ∧ Forall (fun f => 65 ≤ f ≤ 128) secondary
  ∧ ascending (primary ++ secondary) = true.
Proof.
  intros primary secondary.
  assert (length (substring hex 20 (20 + 16)) ≤ 16) as Hlen.
  { unfold substring. rewrite length_take. lia. }
  assert (∀ h : list ascii,
            (decodeBitmap h).1
            = List.filter (bitSet h) (seq 1 (4 * length h))) as Hdec.
  { intros h. unfold decodeBitmap. cbn [fst]. rewrite activeFrom_any.
    rewrite (map_ext _ id) by done. by rewrite map_id. }
  assert (ascending primary = true) as Hp1.
  { subst primary. unfold primaryBitmapInfo. cbn [bm_activeFields].
    rewrite Hdec. apply ascending_filter, ascending_filter, ascending_seq. }
  assert (Forall (fun f => 2 ≤ f ≤ 64) primary) as Hp2.
  { subst primary. unfold primaryBitmapInfo. cbn [bm_activeFields].
    apply Forall_forall. intros f Hf.
    apply list_elem_of_In, filter_In in Hf
      as [_ [H1%Nat.leb_le H2%Nat.leb_le]%andb_true_iff]. lia. }
  assert (ascending secondary = true) as Hs1.
  { subst secondary. unfold secondaryBitmapInfo. cbn [bm_activeFields].
    rewrite Hdec. apply ascending_map_add, ascending_filter, ascending_seq. }
  assert (Forall (fun f => 65 ≤ f ≤ 128) secondary) as Hs2.
  { subst secondary. unfold secondaryBitmapInfo. cbn [bm_activeFields].
    rewrite Hdec. apply Forall_forall. intros f Hf.
    apply list_elem_of_In, in_map_iff in Hf
      as (i & <- & [Hi%in_seq _]%filter_In).
    lia. }
  split_and!; try done. apply ascending_app; [done..|].
  intros x y Hx Hy. rewrite Forall_forall in Hp2, Hs2.
  specialize (Hp2 x Hx). specialize (Hs2 y Hy). cbn beta in *. lia.
Qed.

Lemma fieldsInvariant_skip (M : fieldSpecs) (fieldNum : nat)
    (rest : list nat) (st st' : LoopState) :
  fieldsInvariant M (fieldNum :: rest) st →
  st_fields st' = st_fields st → st_hexSegments st' = st_hexSegments st →
  fieldsInvariant M rest st'.
Proof.
  intros (Hasc & Hrange & Hspec & Hsegs) Hf Hs. unfold fieldsInvariant.
  rewrite Hf, Hs. split_and!; try done.
  - by eapply ascending_drop_middle.
  - apply Forall_app in Hrange as [H1 [_ H2]%Forall_cons].
    by apply Forall_app.
Qed.

Lemma fieldsInvariant_emit (M : fieldSpecs) (fieldNum : nat) (spec : FieldSpec)
    (fieldHex fieldValue : list ascii) (fieldLength fieldStartPos : nat)
    (rest : list nat) (st st1 : LoopState) :
  fieldsInvariant M (fieldNum :: rest) st →
  FIELD_SPECS M !! fieldNum = Some spec →
  st_fields st1 = st_fields st → st_hexSegments st1 = st_hexSegments st →
  fieldsInvariant M rest
    (emitField fieldNum spec fieldHex fieldValue fieldLength fieldStartPos st1).
Proof.
  intros (Hasc & Hrange & Hspec & Hsegs) Hlook Hf Hs.
  unfold fieldsInvariant, emitField. cbn [st_fields st_hexSegments].
  rewrite Hf, Hs, !map_app, <- !app_assoc. cbn [map app mkField pf_de].
  split_and!; try done.
  - apply Forall_app. split; [done|]. constructor; [|constructor].
    exists spec. by split_and!.
  - rewrite List.filter_app, Hsegs. by cbn.
Qed.

Lemma fieldsInvariant_fieldStep (M : fieldSpecs) (hex : list ascii)
    (fieldNum : nat) (rest : list nat) (st : LoopState) :
  fieldsInvariant M (fieldNum :: rest) st →
  fieldsInvariant M rest (flowState (fieldStep M hex fieldNum st)).
Proof.
  intros Hinv. unfold fieldStep.
  destruct (FIELD_SPECS M !! fieldNum) as [spec|] eqn:Hspec;
    [|by eapply fieldsInvariant_skip].
  destruct (length hex <=? st_pos st); [by eapply fieldsInvariant_skip|].
  destruct (streq (spec_format spec) (lit "FIXED")).
  { unfold parseFixed. cbv zeta.
    destruct (length hex <? _); cbv beta iota zeta delta [flowState];
      by eapply (fieldsInvariant_emit M fieldNum spec _ _ _ _ rest st). }
  assert (∀ w errPrefix errInvalid,
            fieldsInvariant M rest
              (flowState
                 (parseVar w errPrefix errInvalid hex fieldNum spec st)))
    as Hvar.
  { intros w errPrefix errInvalid. unfold parseVar. cbv zeta.
    destruct (length hex <? st_pos st + w);
      [by eapply (fieldsInvariant_skip M fieldNum rest st)|].
    destruct (parseInt10 _) as [dataLen|];
      [|by eapply (fieldsInvariant_skip M fieldNum rest st)].
    destruct (spec_maxLength spec <? dataLen);
      [by eapply (fieldsInvariant_skip M fieldNum rest st)|].
    destruct (length hex <? _); cbv beta iota zeta delta [flowState];
      by eapply (fieldsInvariant_emit M fieldNum spec _ _ _ _ rest st). }
  destruct (streq (spec_format spec) (lit "LLVAR")); [apply Hvar|].
  destruct (streq (spec_format spec) (lit "LLLVAR")); [apply Hvar|].
  cbn [flowState].
  by eapply (fieldsInvariant_emit M fieldNum spec _ _ _ _ rest st).
Qed.

Lemma fieldsInvariant_fieldLoop (M : fieldSpecs) (hex : list ascii)
    (allActiveFields : list nat) (st : LoopState) :
  fieldsInvariant M allActiveFields st →
  fieldsInvariant M [] (fieldLoop M hex allActiveFields st).
Proof.
  revert st. induction allActiveFields as [|fieldNum rest IH]; intros st Hinv;
    [done|].
  cbn [fieldLoop].
  pose proof (fieldsInvariant_fieldStep M hex fieldNum rest st Hinv) as Hstep.
  destruct (fieldStep M hex fieldNum st) as [st'|st']; cbn [flowState] in Hstep.
  - by apply IH.
  - destruct Hstep as (Hasc & Hrange & Hspec & Hsegs). split_and!; try done.
    + rewrite app_nil_r. by eapply ascending_app_l.
    + rewrite app_nil_r. by apply Forall_app in Hrange as [? _].
Qed.

Lemma fieldsInvariant_trailingCheck (M : fieldSpecs) (hex : list ascii)
    (st : LoopState) :
  fieldsInvariant M [] st → fieldsInvariant M [] (trailingCheck hex st).
Proof.
  intros (Hasc & Hrange & Hspec & Hsegs). unfold trailingCheck.
  case_match; [|done]. unfold fieldsInvariant.
  cbn [st_fields st_hexSegments]. split_and!; try done.
  rewrite List.filter_app. cbn. by rewrite app_nil_r.
Qed.

(** The invariants at the end of [parseBody]. *)
Lemma parseBody_invariants (M : fieldSpecs) (hex : list ascii)
    (mtiInfo : MTIInfo) (mtiSegment : HexSegment) :
  20 ≤ length hex → segmentConsistent hex mtiSegment →
  seg_startPos mtiSegment = 0 → seg_endPos mtiSegment = 4 →
  seg_de mtiSegment = None →
  let r := parseBody M hex mtiInfo mtiSegment 4 in
  ∃ st,
    fields r = st_fields st ∧ hexSegments r = st_hexSegments st
    ∧ fieldsInvariant M [] st
    ∧ Forall (segmentConsistent hex) (st_hexSegments st).
Proof.
  intros Hlen Hmti H0 H4 Hde r. subst r.
  destruct (parseBody_cases M hex mtiInfo mtiSegment)
    as (secondary & active & st0 & Hbody & Hf0 & (ss & Hsegs & Hss) & Hactive).
  destruct (parseBody_unfold M hex mtiInfo mtiSegment)
    as (primary' & secondary' & active' & st0' & Hbody' & _ & Hinv).
  rewrite Hbody. unfold finishParse.
  eexists. split; [reflexivity|]. split; [reflexivity|]. split.
  - apply fieldsInvariant_trailingCheck, fieldsInvariant_fieldLoop.
    destruct (active_fields_ascending hex) as (Hp1 & Hp2 & Hs1 & Hs2 & Hps).
    unfold fieldsInvariant. rewrite Hf0, Hsegs. cbn [map app].
    assert (List.filter hasDe
              (mtiSegment
               :: bitmapSegment (lit "Primary Bitmap")
                    (bm_rawHex (primaryBitmapInfo hex 4)) 4 :: ss) = []) as ->.
    { apply filter_none. intros s [<- | [<- | Hs]]; unfold hasDe.
      - by rewrite Hde.
      - done.
      - rewrite Forall_forall in Hss. apply list_elem_of_In in Hs.
        by rewrite (Hss s Hs). }
    destruct Hactive as [-> | ->]; split_and!; try done.
    + eapply Forall_impl; [exact Hp2|]. cbn. intros; lia.
    + apply Forall_app. split; (eapply Forall_impl; [eassumption|]); cbn;
        intros; lia.
  - rewrite Hbody in Hbody'. unfold finishParse in Hbody'.
    injection Hbody' as _ _ _ _ _ Hs. rewrite Hs.
    apply loopInvariant_trailingCheck, loopInvariant_fieldLoop.
    by apply Hinv.
Qed.

(** X17. In every result the parsed fields come in strictly ascending order
    of field number (so no number occurs twice), every number lies in 2..128
    and has a specification, and the field carries the name, format, type,
    category and description of that specification. *)
Theorem fields_ascending_with_spec (M : fieldSpecs) (inputHex : list ascii) :
  let r := parseISO8583 M inputHex in
  ascending (map pf_de (fields r)) = true
  ∧ Forall (fun f => 2 ≤ f ≤ 128) (map pf_de (fields r))
  ∧ Forall (fieldOfSpec M) (fields r).
Proof.
  intros r. subst r. unfold parseISO8583.
  destruct (_ || _); [by split_and!|].
  destruct (testHex (normalize inputHex)) eqn:Hvalid; [|by split_and!].
  cbv zeta. cbn [negb]. change (0 + 4) with 4.
  destruct (length (normalize inputHex) <? 4 + 16) eqn:H20; [by split_and!|].
  apply Nat.ltb_ge in H20.
  set (mtiSegment := Build_HexSegment _ _ _ _ _ _).
  destruct (parseBody_invariants M (normalize inputHex)
              (decodeMTI M (substring (normalize inputHex) 0 4)) mtiSegment)
    as (st & -> & _ & (Hasc & Hrange & Hspec & _) & _); try done.
  - subst mtiSegment. split_and!; cbn; (done || lia).
  - rewrite app_nil_r in Hasc, Hrange. by split_and!.
Qed.

(** X18. In every result each parsed field has a segment of its own, in the
    same order, with the same raw hex, range and category and the label DE,
    number and name; no other segment names a field.  The range of a field
    lies inside the normalized input and its raw hex is the substring of
    that range. *)
Theorem fields_mirror_segments (M : fieldSpecs) (inputHex : list ascii) :
  let hex := normalize inputHex in
  let r := parseISO8583 M inputHex in
  List.filter hasDe (hexSegments r) = map fieldSegment (fields r)
  ∧ Forall
      (fun parsed =>
         pf_startPos parsed ≤ pf_endPos parsed
         ∧ pf_endPos parsed ≤ length hex
         ∧ pf_rawHex parsed
           = substring hex (pf_startPos parsed) (pf_endPos parsed))
      (fields r).
Proof.
  intros hex r. subst r. unfold parseISO8583. fold hex.
  destruct (_ || _); [by split_and!|].
  destruct (testHex hex) eqn:Hvalid; [|by split_and!].
  cbv zeta. cbn [negb]. change (0 + 4) with 4.
  destruct (length hex <? 4 + 16) eqn:H20; [by split_and!|].
  apply Nat.ltb_ge in H20.
  set (mtiSegment := Build_HexSegment _ _ _ _ _ _).
  destruct (parseBody_invariants M hex (decodeMTI M (substring hex 0 4))
              mtiSegment)
    as (st & -> & -> & (_ & _ & _ & Hsegs) & Hcons); try done.
  - subst mtiSegment. split_and!; cbn; (done || lia).
  - split; [done|]. apply Forall_forall. intros parsed Hp.
    assert (fieldSegment parsed ∈ st_hexSegments st) as Hin.
    { apply list_elem_of_In, (proj1 (filter_In hasDe _ _)).
      rewrite Hsegs. apply in_map. by apply list_elem_of_In. }
    rewrite Forall_forall in Hcons. exact (Hcons _ Hin).
Qed.

(** ** Variable-length fields *)

Lemma varWidth_even (spec : FieldSpec) (n : nat) :
  streq (spec_type spec) (lit "n") = false → varWidth spec n mod 2 = 0.
Proof.
  intros H. unfold varWidth. rewrite H. apply Nat.Div0.mod_mul.
Qed.

Lemma parseVar_accepted (w : nat) (errPrefix : nat → ParseError)
    (errInvalid : list ascii → nat → ParseError)
    (hex : list ascii) (fieldNum : nat) (spec : FieldSpec) (st : LoopState)
    (dataLen : nat) :
  forallb isHexChar hex = true →
  parseInt10 (substring hex (st_pos st) (st_pos st + w)) = Some dataLen →
  dataLen ≤ spec_maxLength spec →
  st_pos st + w + varWidth spec dataLen ≤ length hex →
  let endPos := st_pos st + w + varWidth spec dataLen in
  parseVar w errPrefix errInvalid hex fieldNum spec st =
    Continue
      (emitField fieldNum spec (substring hex (st_pos st) endPos)
         (varDecoded spec (substring hex (st_pos st + w) endPos)) dataLen
         (st_pos st) (setPos endPos st)).
Proof.
  intros Hvalid Hlen Hmax Hfit endPos. subst endPos.
  unfold parseVar. cbv zeta.
  rewrite (proj2 (Nat.ltb_ge _ _)) by lia. rewrite Hlen.
  rewrite (proj2 (Nat.ltb_ge _ _)) by done.
  rewrite varHexLen_varWidth.
  rewrite (proj2 (Nat.ltb_ge _ _)) by done.
  cbn [setPos st_pos].
  replace (st_pos st + w + varWidth spec dataLen - varWidth spec dataLen)
    with (st_pos st + w) by lia.
  rewrite substring_app by lia. f_equal. f_equal.
  unfold varValue, varDecoded.
  destruct (streq (spec_type spec) (lit "n")) eqn:Hn; [done|].
  apply hexToAscii_printable; [by apply forallb_substring|].
  rewrite length_substring by lia.
  replace (st_pos st + w + varWidth spec dataLen - (st_pos st + w))
    with (varWidth spec dataLen) by lia.
  by apply varWidth_even.
Qed.

(** X19. An active LLVAR (LLLVAR) field whose 2 (4) character prefix reads
    as a number not above [maxLength], with the data in full in the stream,
    consumes the prefix and the data: as many hex characters as the length
    says, rounded up to the next even number, for type [n], and twice as
    many for every other type.  The field it emits has the length read, the
    prefix and the data as raw hex, and decodes to the data itself for type
    [n] and to the printable rendering of its bytes otherwise.  No error is
    logged and the loop goes on with the next active field. *)
Theorem variable_field_decoding (M : fieldSpecs) (hex : list ascii)
    (fieldNum : nat) (spec : FieldSpec) (rest : list nat) (st : LoopState)
    (w dataLen : nat) :
  forallb isHexChar hex = true →
  FIELD_SPECS M !! fieldNum = Some spec →
  spec_format spec = lit "LLVAR" ∧ w = 2
  ∨ spec_format spec = lit "LLLVAR" ∧ w = 4 →
  parseInt10 (substring hex (st_pos st) (st_pos st + w)) = Some dataLen →
  dataLen ≤ spec_maxLength spec →
  st_pos st + w + varWidth spec dataLen ≤ length hex →
  let endPos := st_pos st + w + varWidth spec dataLen in
  ∃ parsed st',
    fieldStep M hex fieldNum st = Continue st'
    ∧ fieldLoop M hex (fieldNum :: rest) st = fieldLoop M hex rest st'
    ∧ st_pos st' = endPos
    ∧ st_fields st' = st_fields st ++ [parsed]
    ∧ st_errors st' = st_errors st
    ∧ pf_de parsed = fieldNum
    ∧ pf_length parsed = dataLen
    ∧ pf_startPos parsed = st_pos st
    ∧ pf_endPos parsed = endPos
    ∧ pf_rawHex parsed = substring hex (st_pos st) endPos
    ∧ pf_decodedValue parsed
      = varDecoded spec (substring hex (st_pos st + w) endPos).
Proof.
  intros Hvalid Hspec Hfmt Hlen Hmax Hfit endPos.
  assert (fieldStep M hex fieldNum st =
          Continue
            (emitField fieldNum spec (substring hex (st_pos st) endPos)
               (varDecoded spec (substring hex (st_pos st + w) endPos))
               dataLen (st_pos st) (setPos endPos st))) as Hstep.
  { destruct Hfmt as [[Hfmt ->] | [Hfmt ->]].
    - rewrite (fieldStep_llvar M hex fieldNum spec st) by (done || lia).
      by apply parseVar_accepted.
    - rewrite (fieldStep_lllvar M hex fieldNum spec st) by (done || lia).
      by apply parseVar_accepted. }
  eexists (mkField _ _ _ _ _ _ _), _. split; [exact Hstep|].
  split; [by cbn [fieldLoop]; rewrite Hstep|].
  by cbn.
Qed.

Lemma variable_field_decoding_witness :
  let hex := lit "0210" ++ lit "000441424344" in
  let st :=
    {| st_pos := 4; st_fields := []; st_errors := []; st_hexSegments := [] |} in
  ∃ parsed st',
    fieldStep specsWithVarBinary hex 55 st = Continue st'
    ∧ st_pos st' = 16
    ∧ pf_rawHex parsed = lit "000441424344"
    ∧ pf_decodedValue parsed = lit "ABCD".
Proof.
  intros hex st.
  destruct (variable_field_decoding specsWithVarBinary hex 55
              (mkSpec "ICC Data" "LLLVAR" "b" 255 "emv") [] st 4 4)
    as (parsed & st' & Hstep & _ & Hpos & _ & _ & _ & _ & _ & _ & Hraw & Hval);
    try (vm_compute; (reflexivity || lia)).
  - right. by split.
  - exists parsed, st'. by split_and!.
Defined.

(** ** Data after the last field *)

(** The field loop over the fields of a well-formed message that is followed
    by further characters: every field is decoded, no error is logged and
    the cursor ends where the further characters start. *)
Lemma fieldLoop_wires_then (M : fieldSpecs) (fs : list (nat * Payload))
    (post : list ascii) :
  ∀ (pre : list ascii) (st : LoopState),
    forallb
      (fun fp =>
         match FIELD_SPECS M !! fp.1 with
         | Some spec => validPayload spec fp.2
         | None => false
         end) fs = true →
    st_pos st = length pre →
    let body := pre ++ concat (map (fieldWire M) fs) in
    let final := fieldLoop M (body ++ post) (map fst fs) st in
    st_pos final = length body
    ∧ st_errors final = st_errors st
    ∧ ∃ parsed,
        st_fields final = st_fields st ++ parsed
        ∧ Forall2 (decodesTo M) parsed fs.
Proof.
  induction fs as [|[fieldNum p] fs IH]; intros pre st Hvalid Hpos body final.
  - subst final body. cbn [map concat fieldLoop]. rewrite app_nil_r.
    split; [done|]. split; [done|]. exists []. by rewrite app_nil_r.
  - cbn [forallb fst snd] in Hvalid.
    apply andb_true_iff in Hvalid as [Hp Hvalid].
    destruct (FIELD_SPECS M !! fieldNum) as [spec|] eqn:Hspec; [|done].
    assert (fieldWire M (fieldNum, p) = encodeField spec p) as Hwire
      by (unfold fieldWire; cbn [fst snd]; by rewrite Hspec).
    subst final body. cbn [map concat fst]. rewrite !Hwire.
    destruct (fieldStep_wire M pre (concat (map (fieldWire M) fs) ++ post)
                fieldNum spec p st Hspec Hp Hpos) as [Hne [fieldLength Hstep]].
    cbn [fieldLoop].
    replace ((pre ++ encodeField spec p ++ concat (map (fieldWire M) fs))
             ++ post)
      with (pre ++ encodeField spec p
            ++ concat (map (fieldWire M) fs) ++ post)
      by (by rewrite <- !app_assoc).
    rewrite Hstep.
    set (st' := emitField _ _ _ _ _ _ _).
    destruct (IH (pre ++ encodeField spec p) st' Hvalid)
      as (Hfin & Herr & parsed & Hfields & Hall).
    { subst st'. cbn. by rewrite length_app. }
    rewrite <- !app_assoc in Hfin, Herr, Hfields.
    split; [by rewrite Hfin, !app_assoc|]. split; [by rewrite Herr|].
    assert (st_fields st' = st_fields st ++ [mkField fieldNum spec
              (encodeField spec p) (expectedValue spec p) fieldLength
              (length pre) (length pre + length (encodeField spec p))])
      as Hf' by done.
    eexists (_ :: parsed). split.
    + rewrite Hfields, Hf'. by rewrite <- app_assoc.
    + constructor; [|done]. by apply decodesTo_emitted.
Qed.

(** X20. When further upper-case hex characters follow a well-formed
    message, the fields are decoded as without them; the decoder logs one
    error, for the position after the last field and the number of characters
    left over, and adds one last segment that holds them.  That error does
    not count: the result still has [success] true. *)
Theorem trailing_data_reported (M : fieldSpecs) (mtiHex : list ascii)
    (fs : list (nat * Payload)) (extra : list ascii) :
  wellFormed M mtiHex fs = true →
  forallb isUpperHex extra = true → extra ≠ [] →
  let msg := buildMessage M mtiHex fs in
  let r := parseISO8583 M (msg ++ extra) in
  Forall2 (decodesTo M) (fields r) fs
  ∧ errors r = [errUnparsed (length extra) (length msg)]
  ∧ success r = true
  ∧ last (hexSegments r) = Some (unparsedSegment extra (length msg)).
Proof.
  intros Hwf Hextra Hne msg r. subst r.
  pose proof (buildMessage_upper M mtiHex fs Hwf) as Hupper.
  destruct (wellFormed_parts M mtiHex fs Hwf) as (Hmti & Hasc & Hrange & Hvalid).
  fold msg in Hupper.
  set (hex := msg ++ extra).
  assert (forallb isUpperHex hex = true) as Hup
    by (subst hex; by rewrite forallb_app, Hupper).
  assert (normalize hex = hex) as Hnorm by by apply normalize_upper_hex.
  assert (20 ≤ length msg) as Hlen.
  { subst msg. unfold buildMessage. rewrite !length_app.
    assert (16 ≤ length (buildDualBitmap (map fst fs))); [|lia].
    unfold buildDualBitmap.
    case_match; rewrite ?length_app, length_buildBitmap; lia. }
  assert (length hex = length msg + length extra) as Hhex
    by (subst hex; by rewrite length_app).
  assert (0 < length extra) as Hpos by (destruct extra; [done|cbn; lia]).
  assert (testHex hex = true) as Htest.
  { unfold testHex. destruct hex; [cbn in Hhex; lia|].
    by apply forallb_upper_hex. }
  rewrite parseISO8583_valid by (rewrite Hnorm; (done || lia)).
  rewrite Hnorm. cbv zeta. rewrite (proj2 (Nat.ltb_ge _ _)) by lia.
  set (mtiInfo := decodeMTI M _).
  set (mtiSegment := Build_HexSegment _ _ _ _ _ _).
  destruct (parseBody_built M mtiHex (map fst fs)
              (concat (map (fieldWire M) fs) ++ extra) mtiInfo mtiSegment
              Hmti Hasc Hrange) as (primary & secondary & st0 & Hbody & Hp0 & Hf0 & He0).
  assert (mtiHex ++ buildDualBitmap (map fst fs)
          ++ concat (map (fieldWire M) fs) ++ extra = hex) as Hsame
    by (subst hex msg; unfold buildMessage; by rewrite <- !app_assoc).
  rewrite Hsame in Hbody. rewrite Hbody.
  destruct (fieldLoop_wires_then M fs extra
              (mtiHex ++ buildDualBitmap (map fst fs)) st0 Hvalid Hp0)
    as (Hend & Herr & parsed & Hfields & Hall).
  assert ((mtiHex ++ buildDualBitmap (map fst fs))
          ++ concat (map (fieldWire M) fs) = msg) as Hmsg
    by (subst msg; unfold buildMessage; by rewrite <- !app_assoc).
  rewrite Hmsg in Hend, Herr, Hfields. fold hex in Hend, Herr, Hfields.
  rewrite He0 in Herr. rewrite Hf0 in Hfields. cbn [app] in Hfields.
  unfold finishParse, trailingCheck. rewrite Hend.
  rewrite (proj2 (Nat.ltb_lt _ _)) by lia.
  cbn [fields errors success hexSegments st_fields st_errors st_hexSegments].
  assert (substringFrom hex (length msg) = extra) as Hrem.
  { subst hex. unfold substringFrom. by rewrite drop_app_length. }
  rewrite Hrem, Herr, Hfields. cbn [app].
  split; [done|]. split; [done|].
  split.
  { change [errUnparsed (length extra) (length msg)]
      with ([] ++ [errUnparsed (length extra) (length msg)]).
    rewrite successOf_app_excluded; [done|].
    constructor; [apply errUnparsed_excluded|constructor]. }
  rewrite last_snoc. unfold unparsedSegment. by rewrite Hhex.
Qed.

Lemma trailing_data_reported_witness :
  let msg := buildMessage sampleSpecs (lit "0800") sampleFields in
  let r := parseISO8583 sampleSpecs (msg ++ lit "FFFF") in
  Forall2 (decodesTo sampleSpecs) (fields r) sampleFields
  ∧ errors r = [errUnparsed 4 (length msg)]
  ∧ success r = true
  ∧ last (hexSegments r) = Some (unparsedSegment (lit "FFFF") (length msg)).
Proof.
  apply (trailing_data_reported sampleSpecs (lit "0800") sampleFields
           (lit "FFFF")); [reflexivity | reflexivity | discriminate].
Defined.

(** * Properties of the Luhn check *)

Lemma luhnLoop_sum (digitsDown : list ascii) (isEven : bool) (sum : nat) :
  luhnLoop digitsDown isEven sum = sum + luhnLoop digitsDown isEven 0.
Proof.
  revert isEven sum. induction digitsDown as [|c rest IH]; intros isEven sum.
  - cbn. lia.
  - cbn [luhnLoop]. rewrite (IH _ (sum + _)), (IH _ (0 + _)). lia.
Qed.

Lemma luhnLoop_app (xs ys : list ascii) (isEven : bool) (sum : nat) :
  luhnLoop (xs ++ ys) isEven sum
  = luhnLoop ys (xorb isEven (Nat.odd (length xs))) (luhnLoop xs isEven sum).
Proof.
  revert isEven sum. induction xs as [|c xs IH]; intros isEven sum.
  - cbn. by rewrite xorb_false_r.
  - cbn [app luhnLoop length]. rewrite IH. f_equal.
    rewrite Nat.odd_succ, <- Nat.negb_odd.
    by destruct isEven, (Nat.odd (length xs)).
Qed.

Lemma digit_cases (c : ascii) :
  isDigit c = true →
  c ∈ [ "0"; "1"; "2"; "3"; "4"; "5"; "6"; "7"; "8"; "9" ]%char.
Proof.
  each_ascii c; vm_compute; intros H; try discriminate H;
    repeat (first [apply list_elem_of_here | apply list_elem_of_further]).
Qed.

Lemma luhnDigit_bound (isEven : bool) (c : ascii) :
  isDigit c = true → luhnDigit isEven c ≤ 9.
Proof.
  intros H%digit_cases. repeat (apply elem_of_cons in H as [-> | H]);
    [destruct isEven; vm_compute; lia..|by apply elem_of_nil in H].
Qed.

Lemma luhnDigit_inj (isEven : bool) (a b : ascii) :
  isDigit a = true → isDigit b = true →
  luhnDigit isEven a = luhnDigit isEven b → a = b.
Proof.
  intros Ha%digit_cases Hb%digit_cases.
  repeat (apply elem_of_cons in Ha as [-> | Ha]);
    try (by apply elem_of_nil in Ha);
    repeat (apply elem_of_cons in Hb as [-> | Hb]);
    try (by apply elem_of_nil in Hb);
    destruct isEven; vm_compute; intros H; (reflexivity || discriminate H).
Qed.

(** Two sums that differ in one summand below ten are not both multiples of
    ten. *)
Lemma mod10_differ (x u v : nat) :
  (x + u) mod 10 = 0 → u ≤ 9 → v ≤ 9 → u ≠ v → (x + v) mod 10 ≠ 0.
Proof.
  intros H1 Hu Hv Hne H2.
  pose proof (Nat.div_mod_eq (x + u) 10) as E1.
  pose proof (Nat.div_mod_eq (x + v) 10) as E2.
  rewrite H1 in E1. rewrite H2 in E2. lia.
Qed.

Lemma luhn_digits_split (pre post : list ascii) (mid : list ascii) :
  forallb isDigit mid = true →
  List.filter isDigit (pre ++ mid ++ post)
  = List.filter isDigit pre ++ mid ++ List.filter isDigit post.
Proof.
  intros H. rewrite !List.filter_app. f_equal. f_equal.
  apply filter_all_true. intros c Hc. rewrite forallb_forall in H. by apply H.
Qed.

(** X21. A card number that passes the check fails it once any single digit
    is replaced by a different digit, whatever separators the number is
    written with. *)
Theorem luhn_single_digit_error (pre post : list ascii) (a b : ascii) :
  validateLuhn (pre ++ a :: post) = true →
  isDigit a = true → isDigit b = true → a ≠ b →
  validateLuhn (pre ++ b :: post) = false.
Proof.
  intros Hok Ha Hb Hab. unfold validateLuhn in *. cbv zeta in *.
  change (pre ++ a :: post) with (pre ++ [a] ++ post) in Hok.
  change (pre ++ b :: post) with (pre ++ [b] ++ post).
  rewrite (luhn_digits_split pre post [a]) in Hok by (by cbn; rewrite Ha).
  rewrite (luhn_digits_split pre post [b]) by (by cbn; rewrite Hb).
  rewrite !length_app in *. cbn [length app] in *.
  destruct (_ || _); [done|].
  rewrite !rev_app_distr in *. cbn [rev app] in *.
  rewrite <- !app_assoc in *. cbn [app] in *.
  rewrite luhnLoop_app in *. cbn [luhnLoop] in *.
  rewrite luhnLoop_sum in *.
  apply Nat.eqb_eq in Hok. apply Nat.eqb_neq.
  set (e := xorb false _) in *.
  set (A := luhnLoop (rev (List.filter isDigit post)) false 0) in *.
  set (B := luhnLoop (rev (List.filter isDigit pre)) (negb e) 0) in *.
  replace (A + luhnDigit e b + B) with (A + B + luhnDigit e b) by lia.
  replace (A + luhnDigit e a + B) with (A + B + luhnDigit e a) in Hok by lia.
  apply (mod10_differ _ _ _ Hok); [by apply luhnDigit_bound..|].
  intros E. apply Hab. by apply (luhnDigit_inj e).
Qed.

Lemma luhn_single_digit_error_witness :
  validateLuhn (lit "4111 1111 1111 1111") = true
  ∧ validateLuhn (lit "4111 1111 1111 1112") = false.
Proof.
  split; [reflexivity|].
  apply (luhn_single_digit_error (lit "4111 1111 1111 111") [] "1" "2");
    [reflexivity | reflexivity | reflexivity | discriminate].
Defined.

Lemma luhn_swap_weights (isEven : bool) (a b : ascii) :
  isDigit a = true → isDigit b = true → a ≠ b →
  let u := luhnDigit isEven b + luhnDigit (negb isEven) a in
  let v := luhnDigit isEven a + luhnDigit (negb isEven) b in
  if zeroAndNine a b then u = v else u ≠ v ∧ u < v + 10 ∧ v < u + 10.
Proof.
  intros Ha%digit_cases Hb%digit_cases.
  repeat (apply elem_of_cons in Ha as [-> | Ha]);
    try (by apply elem_of_nil in Ha);
    repeat (apply elem_of_cons in Hb as [-> | Hb]);
    try (by apply elem_of_nil in Hb);
    intros Hab; try done; destruct isEven; vm_compute; lia.
Qed.

Lemma mod10_differ_near (x u v : nat) :
  (x + u) mod 10 = 0 → u ≠ v → u < v + 10 → v < u + 10 →
  (x + v) mod 10 ≠ 0.
Proof.
  intros H1 Hne Hu Hv H2.
  pose proof (Nat.div_mod_eq (x + u) 10) as E1.
  pose proof (Nat.div_mod_eq (x + v) 10) as E2.
  rewrite H1 in E1. rewrite H2 in E2. lia.
Qed.

(** X22. When two different digits next to each other change places in a
    card number that passes the check, the number fails the check, except
    for the digits 0 and 9, whose exchange the check cannot see. *)
Theorem luhn_adjacent_swap (pre post : list ascii) (a b : ascii) :
  validateLuhn (pre ++ a :: b :: post) = true →
  isDigit a = true → isDigit b = true → a ≠ b →
  validateLuhn (pre ++ b :: a :: post) = zeroAndNine a b.
Proof.
  intros Hok Ha Hb Hab. unfold validateLuhn in *. cbv zeta in *.
  change (pre ++ a :: b :: post) with (pre ++ [a; b] ++ post) in Hok.
  change (pre ++ b :: a :: post) with (pre ++ [b; a] ++ post).
  rewrite (luhn_digits_split pre post [a; b]) in Hok
    by (by cbn; rewrite Ha, Hb).
  rewrite (luhn_digits_split pre post [b; a]) by (by cbn; rewrite Ha, Hb).
  rewrite !length_app in *. cbn [length app] in *.
  destruct (_ || _); [done|].
  rewrite !rev_app_distr in *. cbn [rev app] in *.
  rewrite <- !app_assoc in *. cbn [app] in *.
  rewrite luhnLoop_app in *. cbn [luhnLoop] in *.
  rewrite luhnLoop_sum in *.
  apply Nat.eqb_eq in Hok.
  set (e := xorb false _) in *.
  set (A := luhnLoop (rev (List.filter isDigit post)) false 0) in *.
  set (B := luhnLoop (rev (List.filter isDigit pre)) (negb (negb e)) 0) in *.
  pose proof (luhn_swap_weights e a b Ha Hb Hab) as Hw. cbv zeta in Hw.
  replace (A + luhnDigit e a + luhnDigit (negb e) b + B)
    with (A + B + (luhnDigit e a + luhnDigit (negb e) b)) by lia.
  replace (A + luhnDigit e b + luhnDigit (negb e) a + B)
    with (A + B + (luhnDigit e b + luhnDigit (negb e) a)) in Hok by lia.
  destruct (zeroAndNine a b).
  - rewrite <- Hw. by apply Nat.eqb_eq.
  - destruct Hw as (Hne & Hu & Hv). apply Nat.eqb_neq.
    by apply (mod10_differ_near _ _ _ Hok).
Qed.

Lemma luhn_adjacent_swap_witness :
  validateLuhn (lit "4111111111111111") = true
  ∧ validateLuhn (lit "1411111111111111") = false
  ∧ validateLuhn (lit "4111111111110915") = true
  ∧ validateLuhn (lit "4111111111119015") = true.
Proof.
  split; [reflexivity|]. split.
  - apply (luhn_adjacent_swap [] (lit "11111111111111") "4" "1");
      [reflexivity | reflexivity | reflexivity | discriminate].
  - split; [reflexivity|].
    apply (luhn_adjacent_swap (lit "411111111111") (lit "15") "0" "9");
      [reflexivity | reflexivity | reflexivity | discriminate].
Defined.

(** X23. To any 12 to 18 digits, written with whatever separators, exactly
    one last digit can be appended so that the number passes the check. *)
Theorem luhn_check_digit (body : list ascii) :
  12 ≤ length (List.filter isDigit body) ≤ 18 →
  ∃ c, isDigit c = true
       ∧ ∀ c', isDigit c' = true →
               (validateLuhn (body ++ [c']) = true ↔ c' = c).
Proof.
  intros Hlen.
  set (B := luhnLoop (rev (List.filter isDigit body)) true 0).
  assert (∀ c', isDigit c' = true →
            validateLuhn (body ++ [c'])
            = ((B + luhnDigit false c') mod 10 =? 0)) as Hval.
  { intros c' Hc. unfold validateLuhn. cbv zeta.
    rewrite List.filter_app. cbn [List.filter]. rewrite Hc.
    rewrite length_app. cbn [length].
    rewrite (proj2 (Nat.ltb_ge _ _)) by lia.
    rewrite (proj2 (Nat.ltb_ge _ _)) by lia. cbn [orb].
    rewrite rev_app_distr. cbn [rev app luhnLoop negb].
    rewrite luhnLoop_sum. fold B. f_equal. f_equal. lia. }
  set (k := (10 - B mod 10) mod 10).
  assert (B mod 10 < 10) as Hr by (apply Nat.mod_upper_bound; lia).
  assert (isDigit (ascii_of_nat (48 + k)) = true
          ∧ (B + luhnDigit false (ascii_of_nat (48 + k))) mod 10 = 0)
    as [Hd Hz].
  { rewrite Nat.Div0.add_mod. subst k.
    destruct (B mod 10) as [|[|[|[|[|[|[|[|[|[|r]]]]]]]]]];
      [by vm_compute..|lia]. }
  exists (ascii_of_nat (48 + k)). split; [done|].
  intros c' Hc. rewrite (Hval c' Hc). split.
  - intros Hok%Nat.eqb_eq.
    destruct (decide (c' = ascii_of_nat (48 + k))) as [|Hne]; [done|].
    exfalso. revert Hok.
    apply (mod10_differ _ _ _ Hz); [by apply luhnDigit_bound..|].
    intros E. apply Hne. symmetry. by apply (luhnDigit_inj false).
  - intros ->. by apply Nat.eqb_eq.
Qed.

Lemma luhn_check_digit_witness :
  ∃ c, isDigit c = true
       ∧ ∀ c', isDigit c' = true →
               (validateLuhn (lit "4111-1111-1111-111" ++ [c']) = true
                ↔ c' = c).
Proof.
  apply (luhn_check_digit (lit "4111-1111-1111-111")). vm_compute. lia.
Defined.

(** * Segments and rejected length prefixes *)

(** ** Which errors report a rejected prefix *)

Lemma no_colon_showNat (n : nat) :
  forallb (fun x => negb (bool_decide (":"%char = x))) (showNat n) = true.
Proof.
  generalize (showNat_digits n). apply forallb_impl_in. intros x Hx.
  apply negb_true_iff, bool_decide_eq_false_2. intros <-. by vm_compute in Hx.
Qed.

Lemma includes_cons_false (needle : list ascii) (x : ascii) (s : list ascii) :
  startsWith needle (x :: s) = false →
  includes needle (x :: s) = includes needle s.
Proof.
  intros H.
  change (includes needle (x :: s))
    with (startsWith needle (x :: s) || includes needle s).
  by rewrite H.
Qed.

(** A message made of DE, the field number, a colon, a space and a text
    that does not start with the letter I and holds no colon. *)
Lemma field_message_not_invalid (fieldNum : nat) (c : ascii)
    (rest : list ascii) (pos fld : option nat) :
  c ≠ "I"%char →
  forallb (fun x => negb (bool_decide (":"%char = x))) (c :: rest) = true →
  isInvalidLength
    {| message := lit "DE " ++ showNat fieldNum ++ ":"%char :: " "%char :: c :: rest;
       position := pos; field := fld |} = false.
Proof.
  intros Hc Hrest. unfold isInvalidLength. cbn [message].
  change (lit ": Invalid LL") with (":"%char :: " "%char :: "I"%char :: lit "nvalid LL").
  rewrite (includes_skip ":" _ (lit "DE ")) by reflexivity.
  rewrite (includes_skip ":" _ (showNat fieldNum)) by apply no_colon_showNat.
  rewrite includes_cons_false.
  - apply includes_absent. cbn [forallb] in *. by rewrite Hrest.
  - cbn [startsWith].
    rewrite (bool_decide_eq_false_2 ("I"%char = c)) by done.
    by rewrite !andb_false_r.
Qed.

Lemma errNoSpec_not_invalid (fieldNum : nat) :
  isInvalidLength (errNoSpec fieldNum) = false.
Proof.
  unfold isInvalidLength, errNoSpec. cbn [message].
  change (lit ": Invalid LL") with (":"%char :: lit " Invalid LL").
  apply includes_absent. rewrite !forallb_app, no_colon_showNat. reflexivity.
Qed.

Lemma errRanOut_not_invalid (fieldNum pos : nat) :
  isInvalidLength (errRanOut fieldNum pos) = false.
Proof.
  unfold isInvalidLength, errRanOut. cbn [message].
  change (lit ": Invalid LL") with (":"%char :: lit " Invalid LL").
  apply includes_absent. rewrite !forallb_app, no_colon_showNat. reflexivity.
Qed.

Lemma errUnparsed_not_invalid (count pos : nat) :
  isInvalidLength (errUnparsed count pos) = false.
Proof.
  unfold isInvalidLength, errUnparsed. cbn [message].
  change (lit ": Invalid LL") with (":"%char :: lit " Invalid LL").
  apply includes_absent. rewrite !forallb_app, no_colon_showNat. reflexivity.
Qed.

Lemma errFixedShort_not_invalid (fieldNum hexLen remain pos : nat) :
  isInvalidLength (errFixedShort fieldNum hexLen remain pos) = false.
Proof.
  apply (field_message_not_invalid fieldNum "E"
           (lit "xpected " ++ showNat hexLen ++ lit " hex chars but only "
            ++ showNat remain ++ lit " remain.")); [done|].
  cbn [forallb]. rewrite !forallb_app, !no_colon_showNat. reflexivity.
Qed.

Lemma errVarShort_not_invalid (fieldNum hexLen remain pos : nat) :
  isInvalidLength (errVarShort fieldNum hexLen remain pos) = false.
Proof.
  apply (field_message_not_invalid fieldNum "E"
           (lit "xpected " ++ showNat hexLen
            ++ lit " hex chars for data but only "
            ++ showNat remain ++ lit " remain.")); [done|].
  cbn [forallb]. rewrite !forallb_app, !no_colon_showNat. reflexivity.
Qed.

Lemma errLLVARPrefix_not_invalid (fieldNum pos : nat) :
  isInvalidLength (errLLVARPrefix fieldNum pos) = false.
Proof.
  by apply (field_message_not_invalid fieldNum "N"
              (lit "ot enough data for LLVAR length prefix.")).
Qed.

Lemma errLLLVARPrefix_not_invalid (fieldNum pos : nat) :
  isInvalidLength (errLLLVARPrefix fieldNum pos) = false.
Proof.
  by apply (field_message_not_invalid fieldNum "N"
              (lit "ot enough data for LLLVAR length prefix (need 4 hex chars).")).
Qed.

(** ** The coverage invariant *)

Lemma tiles_app (a b c : nat) (l l' : list Piece) :
  tiles a l b → tiles b l' c → tiles a (l ++ l') c.
Proof.
  revert a. induction l as [|p l IH]; intros a; cbn [tiles app].
  - by intros ->.
  - intros (-> & Hle & H) H'. split; [done|]. split; [done|]. by apply IH.
Qed.

Lemma coveredSegments_app (l l' : list Piece) :
  coveredSegments (l ++ l') = coveredSegments l ++ coveredSegments l'.
Proof.
  induction l as [|[seg | e start width] l IH]; cbn [app coveredSegments];
    by rewrite ?IH.
Qed.

Lemma rejectedErrors_app (l l' : list Piece) :
  rejectedErrors (l ++ l') = rejectedErrors l ++ rejectedErrors l'.
Proof.
  induction l as [|[seg | e start width] l IH]; cbn [app rejectedErrors];
    by rewrite ?IH.
Qed.

Lemma filter_invalid_push (es : list ParseError) (e : ParseError) :
  isInvalidLength e = false →
  List.filter isInvalidLength (es ++ [e]) = List.filter isInvalidLength es.
Proof.
  intros He. rewrite List.filter_app. cbn [List.filter]. rewrite He.
  apply app_nil_r.
Qed.

Lemma field_segment_not_trailing (fieldNum : nat) (spec : FieldSpec)
    (fieldHex : list ascii) (startPos endPos : nat) :
  isTrailingSegment (mkFieldSegment fieldNum spec fieldHex startPos endPos)
  = false.
Proof.
  unfold isTrailingSegment, streq, mkFieldSegment. cbn [seg_label].
  apply bool_decide_eq_false_2.
  change (lit "DE ") with ("D"%char :: lit "E ").
  change (lit "Unparsed Data") with ("U"%char :: lit "nparsed Data").
  cbn [app]. intros H. by injection H.
Qed.

Lemma tilingInvariant_pushError (M : fieldSpecs) (hex : list ascii)
    (e : ParseError) (st : LoopState) :
  isInvalidLength e = false →
  tilingInvariant M hex st → tilingInvariant M hex (pushError e st).
Proof.
  intros He (pieces & Ht & Hc & Hr & Hp & Hl). exists pieces.
  cbn [pushError st_pos st_hexSegments st_errors].
  by rewrite filter_invalid_push.
Qed.

(** Pushing the field and its segment for the range from the old cursor to
    the cursor of [st1], where [st1] is the old state with the cursor moved
    and possibly an error that reports no rejected prefix. *)
Lemma tilingInvariant_emitField (M : fieldSpecs) (hex : list ascii)
    (fieldNum : nat) (spec : FieldSpec) (fieldHex fieldValue : list ascii)
    (fieldLength : nat) (st st1 : LoopState) :
  tilingInvariant M hex st →
  st_hexSegments st1 = st_hexSegments st →
  List.filter isInvalidLength (st_errors st1)
  = List.filter isInvalidLength (st_errors st) →
  st_pos st ≤ st_pos st1 →
  tilingInvariant M hex
    (emitField fieldNum spec fieldHex fieldValue fieldLength (st_pos st) st1).
Proof.
  intros (pieces & Ht & Hc & Hr & Hp & Hl) Hs He Hle.
  exists (pieces
          ++ [Covered (mkFieldSegment fieldNum spec fieldHex (st_pos st)
                         (st_pos st1))]).
  cbn [emitField st_pos st_hexSegments st_errors]. rewrite Hs, He.
  split_and!.
  - eapply tiles_app; [exact Ht|]. by cbn.
  - rewrite coveredSegments_app, Hc. done.
  - rewrite rejectedErrors_app, Hr. cbn. apply app_nil_r.
  - apply Forall_app. split; [done|]. constructor; [exact I | constructor].
  - apply Forall_app. split; [done|].
    constructor; [apply field_segment_not_trailing | constructor].
Qed.

(** Stepping over a rejected prefix. *)
Lemma tilingInvariant_rejected (M : fieldSpecs) (hex : list ascii)
    (fieldNum : nat) (spec : FieldSpec) (e : ParseError) (w : nat)
    (st : LoopState) :
  tilingInvariant M hex st →
  rejectedPrefix M hex (Rejected e (st_pos st) w) →
  tilingInvariant M hex (setPos (st_pos st + w) (pushError e st)).
Proof.
  intros (pieces & Ht & Hc & Hr & Hp & Hl) Hrej.
  pose proof Hrej as (_ & Hinv & _).
  exists (pieces ++ [Rejected e (st_pos st) w]).
  cbn [setPos pushError st_pos st_hexSegments st_errors]. split_and!.
  - eapply tiles_app; [exact Ht|]. cbn. split; [done|]. split; [lia|done].
  - rewrite coveredSegments_app, Hc. cbn. apply app_nil_r.
  - rewrite rejectedErrors_app, Hr, List.filter_app. cbn.
    by rewrite Hinv.
  - apply Forall_app. split; [done|]. constructor; [exact Hrej | constructor].
  - done.
Qed.

Lemma tilingInvariant_parseFixed (M : fieldSpecs) (hex : list ascii)
    (fieldNum : nat) (spec : FieldSpec) (st : LoopState) :
  st_pos st ≤ length hex →
  tilingInvariant M hex st →
  tilingInvariant M hex (flowState (parseFixed hex fieldNum spec st)).
Proof.
  intros Hpos Hinv. unfold parseFixed. cbv zeta.
  destruct (length hex <? st_pos st + fixedHexLen spec) eqn:Hshort;
    cbv beta iota zeta delta [flowState].
  - apply tilingInvariant_emitField; cbn; try done.
    apply filter_invalid_push, errFixedShort_not_invalid.
  - apply tilingInvariant_emitField; cbn; try done. lia.
Qed.

Lemma tilingInvariant_parseVar (M : fieldSpecs) (w : nat)
    (errPrefix : nat → ParseError)
    (errInvalid : list ascii → nat → ParseError)
    (hex : list ascii) (fieldNum : nat) (spec : FieldSpec) (st : LoopState) :
  FIELD_SPECS M !! fieldNum = Some spec →
  spec_format spec = lit "LLVAR" ∧ w = 2
  ∨ spec_format spec = lit "LLLVAR" ∧ w = 4 →
  (∀ p, isInvalidLength (errPrefix p) = false) →
  (∀ lenStr p,
     isInvalidLength (errInvalid lenStr p) = true
     ∧ position (errInvalid lenStr p) = Some p
     ∧ field (errInvalid lenStr p) = Some fieldNum) →
  st_pos st ≤ length hex →
  tilingInvariant M hex st →
  tilingInvariant M hex
    (flowState (parseVar w errPrefix errInvalid hex fieldNum spec st)).
Proof.
  intros Hspec Hfmt Hprefix Hinvalid Hpos Hinv. unfold parseVar. cbv zeta.
  destruct (length hex <? st_pos st + w) eqn:Hshort; cbn [flowState].
  { by apply tilingInvariant_pushError. }
  apply Nat.ltb_ge in Hshort.
  replace (st_pos st + w - w) with (st_pos st) by lia.
  set (lenStr := substring hex (st_pos st) (st_pos st + w)).
  assert (rejectedLength (spec_maxLength spec) lenStr = true →
          tilingInvariant M hex
            (setPos (st_pos st + w)
               (pushError (errInvalid lenStr (st_pos st)) st))) as Hskip.
  { intros Hrej. apply (tilingInvariant_rejected M hex fieldNum spec); [done|].
    destruct (Hinvalid lenStr (st_pos st)) as (Hi & Hp & Hf).
    split; [done|]. split; [done|]. split; [done|].
    by exists fieldNum, spec. }
  unfold rejectedLength in Hskip.
  destruct (parseInt10 lenStr) as [dataLen|]; [|by apply Hskip].
  destruct (spec_maxLength spec <? dataLen); [by apply Hskip|].
  destruct (length hex <? st_pos st + w + varHexLen spec dataLen) eqn:Hdata;
    cbv beta iota zeta delta [flowState].
  - apply tilingInvariant_emitField; cbn; try done; try lia.
    apply filter_invalid_push, errVarShort_not_invalid.
  - apply tilingInvariant_emitField; cbn; try done. lia.
Qed.

Lemma tilingInvariant_fieldStep (M : fieldSpecs) (hex : list ascii)
    (fieldNum : nat) (st : LoopState) :
  st_pos st ≤ length hex →
  tilingInvariant M hex st →
  tilingInvariant M hex (flowState (fieldStep M hex fieldNum st)).
Proof.
  intros Hpos Hinv. unfold fieldStep.
  destruct (FIELD_SPECS M !! fieldNum) as [spec|] eqn:Hspec; cbn [flowState];
    [|apply tilingInvariant_pushError; [apply errNoSpec_not_invalid|done]].
  destruct (length hex <=? st_pos st); cbn [flowState];
    [apply tilingInvariant_pushError; [apply errRanOut_not_invalid|done]|].
  destruct (streq (spec_format spec) (lit "FIXED"));
    [by apply tilingInvariant_parseFixed|].
  destruct (streq (spec_format spec) (lit "LLVAR")) eqn:Hll.
  { apply streq_eq in Hll.
    apply (tilingInvariant_parseVar M 2); try done.
    - left. by split.
    - intros p. apply errLLVARPrefix_not_invalid.
    - intros lenStr p. split; [apply errLLVARInvalid_isInvalidLength|done]. }
  destruct (streq (spec_format spec) (lit "LLLVAR")) eqn:Hlll.
  { apply streq_eq in Hlll.
    apply (tilingInvariant_parseVar M 4); try done.
    - right. by split.
    - intros p. apply errLLLVARPrefix_not_invalid.
    - intros lenStr p. split; [apply errLLLVARInvalid_isInvalidLength|done]. }
  cbn [flowState]. by apply tilingInvariant_emitField.
Qed.

Lemma tilingInvariant_fieldLoop (M : fieldSpecs) (hex : list ascii)
    (allActiveFields : list nat) (st : LoopState) :
  loopInvariant hex st →
  tilingInvariant M hex st →
  tilingInvariant M hex (fieldLoop M hex allActiveFields st).
Proof.
  revert st. induction allActiveFields as [|fieldNum rest IH];
    intros st Hloop Hinv; [done|].
  cbn [fieldLoop].
  pose proof (loopInvariant_fieldStep M hex fieldNum st Hloop) as Hloop'.
  pose proof (tilingInvariant_fieldStep M hex fieldNum st (proj1 Hloop) Hinv)
    as Hstep.
  destruct (fieldStep M hex fieldNum st); cbn [flowState] in *;
    [by apply IH | done].
Qed.

Lemma inOrder_weaken (a a' b : nat) (segs : list HexSegment) :
  a ≤ a' → inOrder a' segs b → inOrder a segs b.
Proof.
  destruct segs as [|seg segs]; cbn [inOrder]; [lia|].
  intros Ha (H1 & H2 & H3). split; [lia|done].
Qed.

Lemma tiles_inOrder (a b : nat) (pieces : list Piece) :
  tiles a pieces b → inOrder a (coveredSegments pieces) b.
Proof.
  revert a. induction pieces as [|[seg | e start width] pieces IH]; intros a;
    cbn [tiles coveredSegments inOrder pieceStart pieceEnd].
  - lia.
  - intros (<- & Hle & Ht). split; [done|]. split; [done|]. by apply IH.
  - intros (<- & Hle & Ht). apply (inOrder_weaken _ (start + width)); [lia|].
    by apply IH.
Qed.

Lemma tiles_concat (hex : list ascii) (a b : nat) (pieces : list Piece) :
  Forall (segmentConsistent hex) (coveredSegments pieces) →
  tiles a pieces b →
  a ≤ b ∧ concat (map (pieceHex hex) pieces) = substring hex a b.
Proof.
  revert a. induction pieces as [|[seg | e start width] pieces IH]; intros a;
    cbn [tiles coveredSegments map concat pieceHex pieceStart pieceEnd].
  - intros _ ->. split; [done|]. by rewrite substring_empty.
  - intros [(_ & _ & Hhex) Hsegs]%Forall_cons (<- & Hle & Ht).
    destruct (IH _ Hsegs Ht) as [Hle' ->]. split; [lia|].
    rewrite Hhex. by apply substring_app.
  - intros Hsegs (<- & Hle & Ht).
    destruct (IH _ Hsegs Ht) as [Hle' ->]. split; [lia|].
    by apply substring_app.
Qed.

(** The state in which [parseBody] enters the field loop satisfies both
    invariants. *)
Lemma parseBody_tiling (M : fieldSpecs) (hex : list ascii) (mtiInfo : MTIInfo)
    (mtiSegment : HexSegment) :
  20 ≤ length hex → segmentConsistent hex mtiSegment →
  seg_startPos mtiSegment = 0 → seg_endPos mtiSegment = 4 →
  isTrailingSegment mtiSegment = false →
  ∃ primary secondary allActiveFields st0,
    parseBody M hex mtiInfo mtiSegment 4 =
      finishParse hex mtiInfo primary secondary
        (fieldLoop M hex allActiveFields st0)
    ∧ loopInvariant hex st0
    ∧ tilingInvariant M hex st0.
Proof.
  intros Hlen Hmti H0 H4 Hlabel. unfold parseBody.
  set (primary := primaryBitmapInfo hex 4).
  set (primarySeg := bitmapSegment (lit "Primary Bitmap") (bm_rawHex primary) 4).
  assert (segmentConsistent hex primarySeg) as Hprimary.
  { split; [cbn; lia|]. split; [cbn; lia|]. done. }
  destruct (bm_hasSecondary primary).
  - destruct (length hex <? 4 + 16 + 16) eqn:Hsec.
    + eexists _, _, _, _. split; [reflexivity|]. split.
      * apply loopInvariant_initial; [| |lia].
        -- apply Forall_cons; split; [done|].
           apply Forall_cons; split; [done|]. constructor.
        -- cbn. by rewrite H0, H4.
      * exists [Covered mtiSegment; Covered primarySeg].
        cbn [st_pos st_hexSegments st_errors]. split_and!.
        -- cbn. rewrite H0, H4. split_and!; (done || lia).
        -- done.
        -- reflexivity.
        -- by repeat constructor.
        -- by repeat constructor.
    + apply Nat.ltb_ge in Hsec.
      set (secondarySeg := bitmapSegment (lit "Secondary Bitmap") _ _).
      eexists _, _, _, _. split; [reflexivity|]. split.
      * apply loopInvariant_initial; [| |lia].
        -- apply Forall_cons; split; [done|].
           apply Forall_cons; split; [done|].
           apply Forall_cons; split; [|constructor].
           split; [cbn; lia|]. split; [cbn; lia|]. done.
        -- cbn. by rewrite H0, H4.
      * exists [Covered mtiSegment; Covered primarySeg; Covered secondarySeg].
        cbn [st_pos st_hexSegments st_errors]. split_and!.
        -- cbn. rewrite H0, H4. split_and!; (done || lia).
        -- done.
        -- reflexivity.
        -- by repeat constructor.
        -- by repeat constructor.
  - eexists _, _, _, _. split; [reflexivity|]. split.
    + apply loopInvariant_initial; [| |lia].
      * apply Forall_cons; split; [done|].
        apply Forall_cons; split; [done|]. constructor.
      * cbn. by rewrite H0, H4.
    + exists [Covered mtiSegment; Covered primarySeg].
      cbn [st_pos st_hexSegments st_errors]. split_and!.
      * cbn. rewrite H0, H4. split_and!; (done || lia).
      * done.
      * reflexivity.
      * by repeat constructor.
      * by repeat constructor.
Qed.

(** After the trailing-data check the pieces reach the end of the stream,
    and a trailing segment, when there is one, is the last segment and ends
    there. *)
Lemma tilingInvariant_trailingCheck (M : fieldSpecs) (hex : list ascii)
    (st : LoopState) :
  st_pos st ≤ length hex →
  tilingInvariant M hex st →
  let st' := trailingCheck hex st in
  ∃ pieces,
    tiles 0 pieces (length hex)
    ∧ coveredSegments pieces = st_hexSegments st'
    ∧ rejectedErrors pieces = List.filter isInvalidLength (st_errors st')
    ∧ Forall (rejectedPrefix M hex) pieces
    ∧ Forall
        (fun seg =>
           isTrailingSegment seg = true →
           seg_endPos seg = length hex
           ∧ last (st_hexSegments st') = Some seg)
        (st_hexSegments st').
Proof.
  intros Hpos (pieces & Ht & Hc & Hr & Hp & Hl) st'. subst st'.
  unfold trailingCheck. cbv zeta.
  destruct (st_pos st <? length hex) eqn:Hrem;
    cbn [st_hexSegments st_errors].
  - apply Nat.ltb_lt in Hrem.
    set (trailing := Build_HexSegment _ _ _ _ _ _).
    exists (pieces ++ [Covered trailing]). split_and!.
    + eapply tiles_app; [exact Ht|]. cbn. split_and!; (done || lia).
    + rewrite coveredSegments_app, Hc. done.
    + rewrite rejectedErrors_app, Hr.
      rewrite filter_invalid_push by apply errUnparsed_not_invalid.
      cbn. apply app_nil_r.
    + apply Forall_app. split; [done|]. constructor; [exact I | constructor].
    + apply Forall_app. split.
      * eapply Forall_impl; [exact Hl|]. cbn beta. intros seg -> Hn.
        discriminate Hn.
      * constructor; [|constructor]. intros _. split; [done|].
        apply last_snoc.
  - apply Nat.ltb_ge in Hrem. exists pieces. split_and!; try done.
    + by replace (length hex) with (st_pos st) by lia.
    + eapply Forall_impl; [exact Hl|]. cbn beta. intros seg -> Hn.
      discriminate Hn.
Qed.


